(** * Maze generator: recursive backtracking, configuration and event bus

    A shallow embedding of
      - [MazeUtils]: the functions on numbers and lists   (js/utils.js),
      - [RecursiveBacktrackingAlgorithm]                  (js/maze/algorithms/recursive.js),
      - the configuration object and its freeze           (js/config.js),
      - [MazeScene3D.fitCameraToMaze] and what it calls   (js/3d/scene.js),
      - [EventBus]: subscribing, unsubscribing, [emit]    (js/ui/eventBus.js),
    followed by the properties proved about them.

    Conventions.  Coordinates and counters are JavaScript numbers that only
    ever hold integers here; they are modelled by [Z] and [nat].  Where the
    source computes with fractions (the progress percentage, the animation
    delay, the camera distance, the values of [Math.random()]) the numbers
    are modelled by exact rationals [Q].  A JavaScript
    [TypeError] (reading a property of [null] or [undefined]) is the [None]
    of the option monad. *)

From Stdlib Require Import ZArith Lia QArith Qround Qminmax Lqa.
From stdpp Require Import base option list list_numbers gmap strings.

Local Open Scope Z_scope.

(* ===================================================================== *)
(** * Grid model *)
(* ===================================================================== *)

(** A cell of the grid.  The field names are the ones the algorithm writes
    ([wall], [visited], [current], [path]) and the 3D scene reads
    ([cell.current], [cell.path]). *)
Record Cell := mkCell {
  c_wall : bool;
  c_visited : bool;
  c_current : bool;
  c_path : bool
}.

(** The object literal passed to [setCell]: any subset of the cell's fields. *)
Record CellState := mkCellState {
  st_wall : option bool;
  st_visited : option bool;
  st_current : option bool;
  st_path : option bool
}.

(** [{ wall: w, visited: v, current: c, path: p }], the only shape the
    recursive algorithm ever passes. *)
Definition cellState (w v c p : bool) : CellState :=
  mkCellState (Some w) (Some v) (Some c) (Some p).

(** A coordinate object [{ x, y }]. *)
Record Coord := mkCoord { cx : Z; cy : Z }.

#[global] Instance Coord_eq_dec : EqDecision Coord.
Proof. solve_decision. Defined.

(** Modelled from the spec: the maze object handed to the algorithm is built
    by js/maze/generator.js, which is not part of the sources at hand.  The
    algorithm reads [maze.width], [maze.height] and the scene reads
    [maze.grid[y][x]], so the grid is an array of rows. *)
Record Maze := mkMaze {
  width : Z;
  height : Z;
  grid : list (list Cell)
}.

(** Modelled from the spec: [set(x,y, partialState)] merges fields. *)
Definition mergeCell (c : Cell) (st : CellState) : Cell :=
  {| c_wall := default (c_wall c) (st_wall st);
     c_visited := default (c_visited c) (st_visited st);
     c_current := default (c_current c) (st_current st);
     c_path := default (c_path c) (st_path st) |}.

(** Modelled from the spec: [get(x,y) -> Cell].  Where the arrays hold no
    cell the result is [None] (JavaScript's [undefined]). *)
Definition getCell (m : Maze) (x y : Z) : option Cell :=
  if (x <? 0) || (y <? 0) then None
  else row ← grid m !! Z.to_nat y; row !! Z.to_nat x.

(** Modelled from the spec: [set(x,y, partialState)].  The spec does not say
    what happens where the grid holds no cell; the model stops there
    ([None]), so that nothing proved below rests on a guess about it. *)
Definition setCell (m : Maze) (x y : Z) (st : CellState) : option Maze :=
  if (x <? 0) || (y <? 0) then None
  else
    row ← grid m !! Z.to_nat y;
    c ← row !! Z.to_nat x;
    Some {| width := width m; height := height m;
            grid := <[Z.to_nat y := <[Z.to_nat x := mergeCell c st]> row]> (grid m) |}.

(** [MazeUtils.isValidCoordinate(x, y, width, height)]. *)
Definition isValidCoordinate (x y width height : Z) : bool :=
  (0 <=? x) && (x <? width) && (0 <=? y) && (y <? height).

(** A rectangular grid: [height] rows of [width] cells each. *)
Definition wellFormed (m : Maze) : Prop :=
  0 <= width m /\ 0 <= height m /\
  length (grid m) = Z.to_nat (height m) /\
  Forall (fun row => length row = Z.to_nat (width m)) (grid m).

(** An untouched cell and the grid made only of them: the fresh grid used
    in the examples. *)
Definition wallCell : Cell := mkCell true false false false.

Definition blankMaze (w h : Z) : Maze :=
  mkMaze w h (replicate (Z.to_nat h) (replicate (Z.to_nat w) wallCell)).

(** Cell flags read through a coordinate; [false] where there is no cell. *)
Definition cellFlag (f : Cell -> bool) (m : Maze) (p : Coord) : bool :=
  match getCell m (cx p) (cy p) with
  | Some c => f c
  | None => false
  end.

(** Glossary: a passage cell is a grid cell not marked as wall. *)
Definition passage (m : Maze) (p : Coord) : bool := cellFlag (fun c => negb (c_wall c)) m p.
Definition isVisited (m : Maze) (p : Coord) : bool := cellFlag c_visited m p.
Definition isCurrent (m : Maze) (p : Coord) : bool := cellFlag c_current m p.
Definition isPath (m : Maze) (p : Coord) : bool := cellFlag c_path m p.

(** All coordinates of the grid, in the order of the scene's double loop
    [for y < height, for x < width]. *)
Definition coords (m : Maze) : list Coord :=
  y ← seqZ 0 (height m); x ← seqZ 0 (width m); [mkCoord x y].

(** How many elements of a list carry a flag. *)
Definition count {A : Type} (f : A -> bool) (l : list A) : nat :=
  length (filter (fun a => f a = true) l).

Definition countCells (f : Coord -> bool) (m : Maze) : nat := count f (coords m).

Definition visitedCount (m : Maze) : nat := countCells (isVisited m) m.
Definition currentCount (m : Maze) : nat := countCells (isCurrent m) m.
Definition passageCount (m : Maze) : nat := countCells (passage m) m.

Definition shift (dx dy : Z) (p : Coord) : Coord := mkCoord (cx p + dx) (cy p + dy).

(** [p] and its neighbour in direction [(dx, dy)] are both passage cells. *)
Definition edgeAlong (dx dy : Z) (m : Maze) (p : Coord) : bool :=
  passage m p && passage m (shift dx dy p).

(** Edges of the passage graph: pairs of passage cells that touch
    horizontally or vertically, each pair counted once (from its left cell
    for a horizontal pair, from its upper cell for a vertical one). *)
Definition edgeCount (m : Maze) : nat :=
  (countCells (edgeAlong 1 0 m) m + countCells (edgeAlong 0 1 m) m)%nat.

(** Modelled from the spec: the grid is "created fresh per generation run".
    The spec does not spell out a fresh cell; the backtracker carves its
    passages out of walls, so a fresh grid is taken to be rectangular with
    nothing visited, nothing carved and no current marker. *)
Definition fresh (m : Maze) : Prop :=
  wellFormed m /\
  forall p, passage m p = false /\ isVisited m p = false /\ isCurrent m p = false.

(* ===================================================================== *)
(** * RecursiveBacktrackingAlgorithm *)
(* ===================================================================== *)

(** [window.MazeConfig.algorithms.recursive.stepSize] (js/config.js). *)
Definition defaultStepSize : Z := 2.

(** The fields of the algorithm object.  [alg_stack] keeps the top of the
    JavaScript array (its last element) at the head of the list. *)
Record Algorithm := mkAlgorithm {
  alg_maze : Maze;
  alg_stepSize : Z;
  alg_stack : list Coord;
  alg_current : option Coord;
  alg_isComplete : bool;
  alg_stepCount : nat
}.

(** [constructor(maze, config = {})] with the default configuration. *)
Definition newAlgorithm (m : Maze) : Algorithm :=
  mkAlgorithm m defaultStepSize [] None false 0.

(** [initialize()]. *)
Definition initialize (a : Algorithm) : option Algorithm :=
  let cur := mkCoord 1 1 in
  m ← setCell (alg_maze a) (cx cur) (cy cur) (cellState false true true false);
  Some (mkAlgorithm m (alg_stepSize a) [] (Some cur) false 0).

(** The loop of [getUnvisitedNeighbors] over the candidate directions. *)
Fixpoint collectUnvisited (m : Maze) (dirs : list Coord) : option (list Coord) :=
  match dirs with
  | [] => Some []
  | dir :: rest =>
      if isValidCoordinate (cx dir) (cy dir) (width m) (height m) then
        cell ← getCell m (cx dir) (cy dir);
        ns ← collectUnvisited m rest;
        Some (if c_visited cell then ns else dir :: ns)
      else collectUnvisited m rest
  end.

Definition directions (x y step : Z) : list Coord :=
  [ mkCoord x (y - step);      (* North *)
    mkCoord (x + step) y;      (* East *)
    mkCoord x (y + step);      (* South *)
    mkCoord (x - step) y ].    (* West *)

(** [getUnvisitedNeighbors(x, y)]. *)
Definition getUnvisitedNeighbors (a : Algorithm) (x y : Z) : option (list Coord) :=
  collectUnvisited (alg_maze a) (directions x y (alg_stepSize a)).

(** The object returned by [step()].  The key [step] carries [this.stepCount];
    a key the object literal does not have is [None]. *)
Record StepResult := mkStepResult {
  sr_complete : bool;
  sr_current : option Coord;
  sr_step : option nat;
  sr_stackSize : option nat
}.

(** The three branches of [step()] taken while the run is not complete.
    [r] is the random draw: [Math.floor(Math.random() * n)] can be any index
    below [n], and is modelled by [r mod n].  The halved differences are
    [0], [1] or [-1] for the neighbours the algorithm produces, so integer
    division is exact. *)
Definition advance (r : nat) (a : Algorithm) (cur : Coord) (neighbors : list Coord)
  : option Algorithm :=
  let m := alg_maze a in
  match neighbors with
  | _ :: _ =>
      next ← neighbors !! (r mod length neighbors)%nat;
      let wallX := cx cur + (cx next - cx cur) / 2 in
      let wallY := cy cur + (cy next - cy cur) / 2 in
      m1 ← setCell m wallX wallY (cellState false true false true);
      m2 ← setCell m1 (cx next) (cy next) (cellState false true false false);
      m3 ← setCell m2 (cx cur) (cy cur) (cellState false true false true);
      m4 ← setCell m3 (cx next) (cy next) (cellState false true true false);
      Some (mkAlgorithm m4 (alg_stepSize a) (cur :: alg_stack a) (Some next)
              (alg_isComplete a) (alg_stepCount a))
  | [] =>
      match alg_stack a with
      | top :: rest =>
          m1 ← setCell m (cx cur) (cy cur) (cellState false true false true);
          m2 ← setCell m1 (cx top) (cy top) (cellState false true true true);
          Some (mkAlgorithm m2 (alg_stepSize a) rest (Some top)
                  (alg_isComplete a) (alg_stepCount a))
      | [] =>
          m1 ← setCell m (cx cur) (cy cur) (cellState false true false true);
          Some (mkAlgorithm m1 (alg_stepSize a) [] (Some cur) true (alg_stepCount a))
      end
  end.

(** [step()]. *)
Definition step (r : nat) (a : Algorithm) : option (Algorithm * StepResult) :=
  if alg_isComplete a then
    Some (a, mkStepResult true (alg_current a) None None)
  else
    cur ← alg_current a;
    neighbors ← getUnvisitedNeighbors a (cx cur) (cy cur);
    a1 ← advance r a cur neighbors;
    let a2 := mkAlgorithm (alg_maze a1) (alg_stepSize a1) (alg_stack a1)
                (alg_current a1) (alg_isComplete a1) (S (alg_stepCount a1)) in
    Some (a2, mkStepResult (alg_isComplete a2) (alg_current a2)
                (Some (alg_stepCount a2)) (Some (length (alg_stack a2)))).

(** ** generate *)

(** How a run of the asynchronous loop ends in the model: it returns, it
    throws, or the fuel that bounds the number of iterations runs out. *)
Inductive Outcome (A : Type) : Type :=
| Done (a : A)
| Throws
| OutOfFuel.
Arguments Done {A} a.
Arguments Throws {A}.
Arguments OutOfFuel {A}.

(** The object [generate] resolves to.  Its [time] field is a difference of
    two readings of the wall clock and is left out. *)
Record Stats := mkStats {
  stats_algorithm : string;
  stats_steps : nat;
  stats_cellsProcessed : nat
}.

(** [(processedCells / totalCells) * 100], as an exact rational.  (For
    [totalCells = 0] JavaScript yields [Infinity]; [Q] yields [0].) *)
Definition percentageOf (processedCells : nat) (totalCells : Z) : Q :=
  (inject_Z (Z.of_nat processedCells) / inject_Z totalCells) * inject_Z 100.

(** [Math.floor((this.maze.width * this.maze.height) / 4)]. *)
Definition totalCellsOf (m : Maze) : Z := (width m * height m) / 4.

Section Generate.
(** Whatever the progress callback acts upon (a canvas, a progress bar, a
    log).  The callback is a collaborator that reads what it is given; it
    does not reach back into the algorithm. *)
Context {W : Type}.
Variable progressCallback : option (Q -> nat -> StepResult -> W -> W).

(** The draws of [Math.random()], one per iteration. *)
Variable rnd : nat -> nat.

(** The [while (!this.isComplete)] loop.  The awaited delay between two
    iterations only passes time. *)
Fixpoint generateLoop (fuel : nat) (totalCells : Z) (processedCells : nat)
    (a : Algorithm) (w : W) : Outcome (Algorithm * nat * W) :=
  if alg_isComplete a then Done (a, processedCells, w)
  else
    match fuel with
    | O => OutOfFuel
    | S fuel' =>
        match step (rnd processedCells) a with
        | None => Throws
        | Some (a', result) =>
            let processedCells' := S processedCells in
            let w' :=
              match progressCallback with
              | Some callback =>
                  callback (percentageOf processedCells' totalCells)
                    (alg_stepCount a') result w
              | None => w
              end in
            generateLoop fuel' totalCells processedCells' a' w'
        end
    end.

(** [generate(progressCallback, animationSpeed)]. *)
Definition generate (fuel : nat) (a : Algorithm) (w : W)
    : Outcome (Algorithm * Stats * W) :=
  match initialize a with
  | None => Throws
  | Some a0 =>
      let totalCells := totalCellsOf (alg_maze a0) in
      match generateLoop fuel totalCells 0 a0 w with
      | Done (a', processedCells, w') =>
          Done (a', mkStats "recursive" (alg_stepCount a') processedCells, w')
      | Throws => Throws
      | OutOfFuel => OutOfFuel
      end
  end.
End Generate.

(** A progress callback that only records its arguments. *)
Record ProgressCall := mkProgressCall {
  pc_percentage : Q;
  pc_stepCount : nat;
  pc_result : StepResult
}.

Definition recordProgress (p : Q) (n : nat) (r : StepResult)
    (calls : list ProgressCall) : list ProgressCall :=
  calls ++ [mkProgressCall p n r].

(** What a callback [cb] makes of its state when invoked on the recorded
    arguments, in order. *)
Definition applyCalls {W : Type} (cb : Q -> nat -> StepResult -> W -> W)
    (w : W) (calls : list ProgressCall) : W :=
  foldl (fun w c => cb (pc_percentage c) (pc_stepCount c) (pc_result c) w) w calls.

(** The state after [n] calls of [step()], with the result of the last one. *)
Fixpoint stepN (rnd : nat -> nat) (n : nat) (a : Algorithm)
    : option (Algorithm * option StepResult) :=
  match n with
  | O => Some (a, None)
  | S n' =>
      '(a', _) ← stepN rnd n' a;
      '(a'', res) ← step (rnd n') a';
      Some (a'', Some res)
  end.


(* ===================================================================== *)
(** * Passage graph and run invariants *)
(* ===================================================================== *)

(** Paths in a graph whose nodes are the [V] satisfying [P] and whose edges
    join the nodes related by [adj]. *)
Inductive walk {V : Type} (adj : V -> V -> Prop) (P : V -> Prop)
    : V -> V -> list V -> Prop :=
| walk_one a : P a -> walk adj P a a [a]
| walk_cons a c b l : P a -> adj a c -> walk adj P c b l -> walk adj P a b (a :: l).

Definition simplePath {V : Type} (adj : V -> V -> Prop) (P : V -> Prop)
    (a b : V) (l : list V) : Prop :=
  walk adj P a b l /\ NoDup l.

Definition uniquelyConnected {V : Type} (adj : V -> V -> Prop) (P : V -> Prop) : Prop :=
  forall a b, P a -> P b ->
    exists l, simplePath adj P a b l /\ forall l', simplePath adj P a b l' -> l' = l.

(** Two cells touch when they are horizontal or vertical neighbours. *)
Definition touching (p q : Coord) : Prop :=
  Z.abs (cx p - cx q) + Z.abs (cy p - cy q) = 1.

(** A path of the maze: a walk over passage cells, each touching the next. *)
Definition mazePath (m : Maze) : Coord -> Coord -> list Coord -> Prop :=
  simplePath touching (fun p => passage m p = true).

(** Perfect maze: any two passage cells are joined by exactly one simple
    path.  (Existence is connectedness, uniqueness is the absence of
    cycles.) *)
Definition perfect (m : Maze) : Prop :=
  uniquelyConnected touching (fun p => passage m p = true).

(** Rooms sit on odd coordinates; the cells between two rooms have one even
    coordinate. *)
Definition oddCell (p : Coord) : Prop := cx p mod 2 = 1 /\ cy p mod 2 = 1.

Definition room (m : Maze) (p : Coord) : Prop := oddCell p /\ passage m p = true.

Record carved (m : Maze) : Prop := mkCarved {
  cv_wf : wellFormed m;
  (** the visited cells are the passage cells *)
  cv_visited : forall p, isVisited m p = passage m p;
  (** no cell with two even coordinates is ever opened *)
  cv_parity : forall p, passage m p = true -> cx p mod 2 = 1 \/ cy p mod 2 = 1;
  (** an opened cell between two rooms joins two opened rooms *)
  cv_conn : forall p q, passage m p = true -> touching p q -> oddCell q -> passage m q = true;
  cv_perfect : perfect m;
  cv_edges : (edgeCount m + 1 = passageCount m)%nat
}.

(** What holds of the algorithm object between two calls during a run. *)
Record running (a : Algorithm) : Prop := mkRunning {
  run_carved : carved (alg_maze a);
  run_stepSize : alg_stepSize a = defaultStepSize;
  run_current : exists cur,
    alg_current a = Some cur /\ room (alg_maze a) cur /\
    forall p, isCurrent (alg_maze a) p
              = if alg_isComplete a then false else bool_decide (p = cur);
  run_stack : Forall (room (alg_maze a)) (alg_stack a);
  (** the start cell stays open *)
  run_start : passage (alg_maze a) (mkCoord 1 1) = true
}.

(** Iterations the loop can still make: cells not yet visited, cells to
    backtrack through, and the closing call. *)
Definition workLeft (a : Algorithm) : nat :=
  (length (coords (alg_maze a)) - visitedCount (alg_maze a)
   + length (alg_stack a) + if alg_isComplete a then 0 else 1)%nat.

(** The states a run on the grid [m] goes through: the one [initialize()]
    leaves, and every state a call of [step()] leads to. *)
Inductive reachable (m : Maze) : Algorithm -> Prop :=
| reach_initialize a0 :
    initialize (newAlgorithm m) = Some a0 -> reachable m a0
| reach_step a r a' res :
    reachable m a -> step r a = Some (a', res) -> reachable m a'.

(** What the [i]-th invocation (counted from 0) of the progress callback is
    given during a run that started in [a0]. *)
Definition callOf (rnd : nat -> nat) (a0 : Algorithm) (totalCells : Z)
    (i : nat) (c : ProgressCall) : Prop :=
  exists ai ri,
    stepN rnd (S i) a0 = Some (ai, Some ri) /\
    c = mkProgressCall (percentageOf (S i) totalCells) (alg_stepCount ai) ri /\
    alg_stepCount ai = S i.

(** ** Between runs, and what the depth-first search keeps true *)

(** [reset()]: the grid is the caller's and is left as it is. *)
Definition reset (a : Algorithm) : Algorithm :=
  mkAlgorithm (alg_maze a) (alg_stepSize a) [] None false 0.

(** The cells the depth-first search has entered and not yet left: the
    current cell and the cells on the stack. *)
Definition onTrail (a : Algorithm) (p : Coord) : Prop :=
  alg_current a = Some p \/ p ∈ alg_stack a.

(** [oddCell] and [room] as flags that can be counted. *)
Definition isOdd (p : Coord) : bool := (cx p mod 2 =? 1) && (cy p mod 2 =? 1).

Definition isRoom (m : Maze) (p : Coord) : bool := isOdd p && passage m p.

Definition roomCount (m : Maze) : nat := countCells (isRoom m) m.

(** What the depth-first search keeps true besides [running]. *)
Record searching (a : Algorithm) : Prop := mkSearching {
  (** the trail starts at (1,1) *)
  sch_trail : exists cur,
    alg_current a = Some cur /\ last (cur :: alg_stack a) = Some (mkCoord 1 1);
  sch_done : alg_isComplete a = true -> alg_stack a = [];
  (** every step enters a new room, or leaves one for good *)
  sch_count :
    (alg_stepCount a + length (alg_stack a) + 1
     = visitedCount (alg_maze a) + if alg_isComplete a then 1 else 0)%nat;
  (** a room the search has left has no unvisited neighbour *)
  sch_closed : forall p n,
    room (alg_maze a) p -> alg_isComplete a = true \/ ~ onTrail a p ->
    n ∈ directions (cx p) (cy p) 2 ->
    isValidCoordinate (cx n) (cy n) (width (alg_maze a)) (height (alg_maze a)) = true ->
    isVisited (alg_maze a) n = true;
  (** every opened cell but the current one is marked as path *)
  sch_path : forall p,
    passage (alg_maze a) p = true ->
    alg_isComplete a = true \/ alg_current a <> Some p ->
    isPath (alg_maze a) p = true;
  (** one connecting cell is opened with every room but the first *)
  sch_rooms : (visitedCount (alg_maze a) + 1 = 2 * roomCount (alg_maze a))%nat
}.

(* ===================================================================== *)
(** * The configuration object and the 3D scene *)
(* ===================================================================== *)

(** JavaScript objects live in a heap and are handed around by reference:
    [this.config = window.MazeConfig.threeD] makes the scene and the
    configuration share one object.  The heap maps a reference to an
    object; an object is its own properties and the flag [Object.freeze]
    sets. *)
Inductive Value : Type :=
| VNum (q : Q)
| VBool (b : bool)
| VStr (s : string)
| VRef (l : nat).

Record Obj := mkObj {
  obj_frozen : bool;
  obj_fields : gmap string Value
}.

Abbreviation Heap := (gmap nat Obj).

(** An object literal. *)
Definition literal (fs : list (string * Value)) : Obj := mkObj false (list_to_map fs).

Definition num (z : Z) : Value := VNum (inject_Z z).

(** [o.k] *)
Definition getField (h : Heap) (l : nat) (k : string) : option Value :=
  o ← h !! l; obj_fields o !! k.

(** [o.k = v] in strict mode (class bodies are strict): a [TypeError] on a
    frozen object. *)
Definition setField (h : Heap) (l : nat) (k : string) (v : Value) : option Heap :=
  o ← h !! l;
  if obj_frozen o then None
  else Some (<[l := mkObj (obj_frozen o) (<[k := v]> (obj_fields o))]> h).

(** [Object.freeze(o)]: freezes the properties of [o] itself.  Objects that
    [o] refers to are other objects and stay as they are. *)
Definition objectFreeze (h : Heap) (l : nat) : Heap :=
  alter (fun o => mkObj true (obj_fields o)) l h.

(** Where the objects of js/config.js are allocated. *)
Definition MazeConfig_ref : nat := 0.
Definition maze_ref : nat := 1.
Definition threeD_ref : nat := 2.
Definition ui_ref : nat := 3.
Definition colors_ref : nat := 4.
Definition algorithms_ref : nat := 5.
Definition recursive_ref : nat := 6.
Definition kruskal_ref : nat := 7.
Definition cellular_ref : nat := 8.
Definition performance_ref : nat := 9.
Definition events_ref : nat := 10.

(** [window.MazeConfig = { ... }] *)
Definition configLiteral : Heap :=
  list_to_map [
    (MazeConfig_ref, literal [
       ("maze", VRef maze_ref); ("threeD", VRef threeD_ref); ("ui", VRef ui_ref);
       ("colors", VRef colors_ref); ("algorithms", VRef algorithms_ref);
       ("performance", VRef performance_ref); ("events", VRef events_ref) ]);
    (maze_ref, literal [
       ("defaultWidth", num 31); ("defaultHeight", num 31);
       ("minSize", num 11); ("maxSize", num 51); ("cellSize", num 20);
       ("animationDelayBase", num 50); ("animationDelayMax", num 500) ]);
    (threeD_ref, literal [
       ("wallHeight", num 3); ("cellSize", num 4); ("playerHeight", VNum (18 # 10));
       ("cameraDistance", num 50); ("lightIntensity", VNum (8 # 10));
       ("enableShadows", VBool false); ("fogDensity", VNum (1 # 100));
       ("renderDistance", num 100) ]);
    (ui_ref, literal [
       ("canvasWidth", num 600); ("canvasHeight", num 600);
       ("progressUpdateInterval", num 50); ("statUpdateInterval", num 100);
       ("fadeAnimationDuration", num 300); ("buttonClickDuration", num 150) ]);
    (colors_ref, literal [
       ("background", VStr "#000000"); ("wall", VStr "#333333");
       ("path", VStr "#ffffff"); ("current", VStr "#ff4444");
       ("visited", VStr "#4444ff"); ("pathGenerated", VStr "#44ff44");
       ("border", VStr "#666666");
       ("wallMaterial", num 0x8B4513); ("floorMaterial", num 0x2F4F2F);
       ("currentMaterial", num 0xFF4444); ("pathMaterial", num 0x90EE90);
       ("skyColor", num 0x87CEEB) ]);
    (algorithms_ref, literal [
       ("recursive", VRef recursive_ref); ("kruskal", VRef kruskal_ref);
       ("cellular", VRef cellular_ref) ]);
    (recursive_ref, literal [
       ("name", VStr "Recursive Backtracking");
       ("description", VStr "Creates perfect mazes with exactly one solution between any two points. Uses depth-first search with backtracking to carve paths through a grid of walls.");
       ("stepSize", num defaultStepSize);
       ("guaranteesSolution", VBool true); ("createLoops", VBool false) ]);
    (kruskal_ref, literal [
       ("name", VStr "Modified Kruskal's Algorithm");
       ("description", VStr "Generates mazes with multiple paths and loops by treating cells as graph nodes and randomly connecting them while avoiding cycles initially, then adding some back.");
       ("loopProbability", VNum (1 # 10));
       ("guaranteesSolution", VBool true); ("createLoops", VBool true) ]);
    (cellular_ref, literal [
       ("name", VStr "Cellular Automata");
       ("description", VStr "Creates organic, cave-like structures by starting with random noise and applying local rules based on neighbor counts over multiple iterations.");
       ("iterations", num 5); ("initialWallProbability", VNum (45 # 100));
       ("wallThreshold", num 4);
       ("guaranteesSolution", VBool false); ("createLoops", VBool true) ]);
    (performance_ref, literal [
       ("maxAnimationSteps", num 1000); ("frameRateTarget", num 30);
       ("enableOptimizations", VBool true); ("debugMode", VBool false) ]);
    (events_ref, literal [
       ("MAZE_GENERATION_START", VStr "maze:generation:start");
       ("MAZE_GENERATION_PROGRESS", VStr "maze:generation:progress");
       ("MAZE_GENERATION_COMPLETE", VStr "maze:generation:complete");
       ("MAZE_RESET", VStr "maze:reset");
       ("ALGORITHM_CHANGED", VStr "algorithm:changed");
       ("VIEW_MODE_CHANGED", VStr "view:mode:changed");
       ("SPEED_CHANGED", VStr "speed:changed");
       ("CAMERA_CHANGED", VStr "camera:changed") ])
  ].

(** The heap once js/config.js has run: the literal, then
    [Object.freeze(window.MazeConfig)]. *)
Definition configHeap : Heap := objectFreeze configLiteral MazeConfig_ref.

(** [window.MazeConfig.k1.k2...]: a configuration value reached from the
    global object. *)
Fixpoint configValue (h : Heap) (l : nat) (keys : list string) : option Value :=
  match keys with
  | [] => None
  | [k] => getField h l k
  | k :: rest =>
      match getField h l k with
      | Some (VRef l') => configValue h l' rest
      | _ => None
      end
  end.

(** The camera is an object of the rendering library; the scene sets its
    position and the point it looks at. *)
Record Camera := mkCamera {
  cam_position : Q * Q * Q;
  cam_lookAt : Q * Q * Q
}.

Inductive ViewMode := Overhead | Perspective | FirstPerson.

(** The fields of [MazeScene3D] the camera code touches.  [sc_config] is the
    reference held in [this.config]. *)
Record MazeScene3D := mkScene {
  sc_config : nat;
  sc_maze : option Maze;
  sc_camera : option Camera
}.

Definition getNum (h : Heap) (l : nat) (k : string) : option Q :=
  match getField h l k with
  | Some (VNum q) => Some q
  | _ => None
  end.

(** The part of the constructor that matters here:
    [this.config = window.MazeConfig.threeD]. *)
Definition newScene (h : Heap) : option MazeScene3D :=
  match getField h MazeConfig_ref "threeD" with
  | Some (VRef l) => Some (mkScene l None None)
  | _ => None
  end.

(** [getMazeCenter()] *)
Definition getMazeCenter (h : Heap) (sc : MazeScene3D) : option (Q * Q * Q) :=
  match sc_maze sc with
  | None => Some (0, 0, 0)%Q
  | Some mz =>
      cellSize ← getNum h (sc_config sc) "cellSize";
      Some ((inject_Z (width mz) * cellSize) / 2, 0,
            (inject_Z (height mz) * cellSize) / 2)%Q
  end.

(** [setCameraView(viewMode)] *)
Definition setCameraView (mode : ViewMode) (h : Heap) (sc : MazeScene3D)
    : option MazeScene3D :=
  match sc_camera sc with
  | None => Some sc
  | Some _ =>
      '(x, _, z) ← getMazeCenter h sc;
      camera ←
        match mode with
        | Overhead =>
            d ← getNum h (sc_config sc) "cameraDistance";
            Some (mkCamera (x, d, z) (x, 0, z))%Q
        | Perspective =>
            d ← getNum h (sc_config sc) "cameraDistance";
            Some (mkCamera (x + d * (7 # 10), d * (5 # 10), z + d * (7 # 10)) (x, 0, z))%Q
        | FirstPerson =>
            ph ← getNum h (sc_config sc) "playerHeight";
            Some (mkCamera (x, ph, z) (x + 1, ph, z))%Q
        end;
      Some (mkScene (sc_config sc) (sc_maze sc) (Some camera))
  end.

(** [fitCameraToMaze()] *)
Definition fitCameraToMaze (h : Heap) (sc : MazeScene3D) : option (Heap * MazeScene3D) :=
  match sc_maze sc, sc_camera sc with
  | Some mz, Some _ =>
      let maxDimension := Z.max (width mz) (height mz) in
      cellSize ← getNum h (sc_config sc) "cellSize";
      (* the product, kept in lowest terms *)
      let distance := Qred (inject_Z maxDimension * cellSize * (8 # 10)) in
      h' ← setField h (sc_config sc) "cameraDistance" (VNum distance);
      sc' ← setCameraView Overhead h' sc;
      Some (h', sc')
  | _, _ => Some (h, sc)
  end.

(** ** The pause between two steps of [generate] *)

(** The pause [generate] awaits after each step:
    [animationDelayMax - (animationSpeed - 1) * (animationDelayMax - animationDelayBase) / 9],
    both bounds read from [window.MazeConfig.maze]. *)
Definition animationDelay (h : Heap) (animationSpeed : Q) : option Q :=
  match getField h MazeConfig_ref "maze" with
  | Some (VRef l) =>
      animationDelayMax ← getNum h l "animationDelayMax";
      animationDelayBase ← getNum h l "animationDelayBase";
      Some (animationDelayMax
            - (animationSpeed - 1) * (animationDelayMax - animationDelayBase) / 9)%Q
  | _ => None
  end.

(* ===================================================================== *)
(** * EventBus *)
(* ===================================================================== *)

(** Statements that may throw: a computation over a state [S] ends normally
    with a value, or abruptly with what was thrown. *)
Inductive Completion (E S A : Type) : Type :=
| Normal (a : A) (s : S)
| Thrown (e : E) (s : S).
Arguments Normal {E S A} a s.
Arguments Thrown {E S A} e s.

Definition JS (E S A : Type) : Type := S -> Completion E S A.

Definition js_ret {E S A} (a : A) : JS E S A := fun s => Normal a s.

Definition js_bind {E S A B} (c : JS E S A) (k : A -> JS E S B) : JS E S B :=
  fun s => match c s with
           | Normal a s' => k a s'
           | Thrown e s' => Thrown e s'
           end.

(** [throw e] *)
Definition js_throw {E S A} (e : E) : JS E S A := fun s => Thrown e s.

(** A computation whose exceptions are seen as exceptions of a larger
    kind. *)
Definition js_lift {E E' S A} (f : E -> E') (c : JS E S A) : JS E' S A :=
  fun s => match c s with
           | Normal a s' => Normal a s'
           | Thrown e s' => Thrown (f e) s'
           end.

(** [try { body } catch (error) { handler }] *)
Definition tryCatch {E S A} (body : JS E S A) (handler : E -> JS E S A) : JS E S A :=
  fun s => match body s with
           | Normal a s' => Normal a s'
           | Thrown e s' => handler e s'
           end.

(** [array.forEach(f)] *)
Fixpoint forEach {E S A} (l : list A) (f : A -> JS E S unit) : JS E S unit :=
  match l with
  | [] => js_ret tt
  | a :: rest => js_bind (f a) (fun _ => forEach rest f)
  end.

(** An entry of [this.events[event]].  Functions and context objects are
    identified by a number; [l_context] is [None] for a context that is not
    truthy ([null] by default). *)
Record Listener := mkListener {
  l_callback : nat;
  l_context : option nat;
  l_id : string
}.

(** [this.events] is a plain object used as a map from event names to
    arrays of listeners; [events] holds its own properties. *)
Record EventBus := mkEventBus {
  events : gmap string (list Listener);
  debugMode : bool
}.

(** Like every plain object, [this.events] inherits the properties of
    [Object.prototype]: these are their names in a standard environment,
    each with the [length] of the function it holds ([None] for
    [__proto__], whose value is [Object.prototype] itself and has no
    [length]). *)
Definition objectPrototype : gmap string (option nat) :=
  list_to_map
    [ ("constructor", Some 1%nat); ("hasOwnProperty", Some 1%nat);
      ("isPrototypeOf", Some 1%nat); ("propertyIsEnumerable", Some 1%nat);
      ("toLocaleString", Some 0%nat); ("toString", Some 0%nat);
      ("valueOf", Some 0%nat); ("__proto__", None);
      ("__defineGetter__", Some 2%nat); ("__defineSetter__", Some 2%nat);
      ("__lookupGetter__", Some 1%nat); ("__lookupSetter__", Some 1%nat) ].

(** What [this.events[event]] evaluates to: an array the bus has stored
    under that name, else what the object inherits under that name, else
    [undefined].  An array is truthy even when empty, and so is every
    inherited value. *)
Inductive Property :=
| Own (listeners : list Listener)
| Inherited (length : option nat)
| Undefined.

Definition getProperty (bus : EventBus) (event : string) : Property :=
  match events bus !! event with
  | Some listeners => Own listeners
  | None =>
      match objectPrototype !! event with
      | Some length => Inherited length
      | None => Undefined
      end
  end.

(** [on(event, callback, context)]; [id] is the value of [generateId()].
    On a name the object only inherits, [this.events[event]] is truthy and
    has no [push]: the call throws a [TypeError] ([None]) before anything
    is written. *)
Definition on (event : string) (callback : nat) (context : option nat) (id : string)
    (bus : EventBus) : option EventBus :=
  let listener := mkListener callback context id in
  match getProperty bus event with
  | Own listeners =>
      Some (mkEventBus (<[event := listeners ++ [listener]]> (events bus)) (debugMode bus))
  | Undefined =>      (* [this.events[event] = []] comes first *)
      Some (mkEventBus (<[event := [] ++ [listener]]> (events bus)) (debugMode bus))
  | Inherited _ => None
  end.

(** [off(event, callback)].  On a name the object only inherits the guard
    [if (!this.events[event]) return] lets the call through and [.filter]
    is not a function: a [TypeError] ([None]), nothing written. *)
Definition off (event : string) (callback : nat) (bus : EventBus) : option EventBus :=
  match getProperty bus event with
  | Undefined => Some bus
  | Inherited _ => None
  | Own listeners =>
      let kept := filter (fun l => l_callback l <> callback) listeners in
      Some (mkEventBus (match kept with
                        | [] => delete event (events bus)
                        | _ => <[event := kept]> (events bus)
                        end)
                       (debugMode bus))
  end.

Section Emit.
(** [Data] is what is emitted, [Err] what listeners can throw, [World]
    everything listeners can reach besides the bus itself. *)
Context {Data Err World : Type}.

(** A function call made by [emit]: which function, with which [this],
    on which argument. *)
Record Call := mkCall {
  call_callback : nat;
  call_this : option nat;
  call_data : Data
}.

Inductive ConsoleEntry :=
| ConsoleLog (event : string) (data : Data)
| ConsoleError (event : string) (error : Err).

(** What a call of [emit] may end with when it ends abruptly: something a
    listener threw, or the [TypeError] of [emit]'s own code
    ([[...this.events[event]]] on a value that is not iterable). *)
Inductive EmitError :=
| ListenerError (error : Err)
| NotIterable.

(** The state [emit] runs in.  [bs_calls] lists the calls made so far; it
    is there to be reasoned about, no code reads it. *)
Record BusState := mkBusState {
  bs_bus : EventBus;
  bs_world : World;
  bs_console : list ConsoleEntry;
  bs_calls : list Call
}.

(** What the functions subscribed as listeners do when called: anything,
    including subscribing and unsubscribing listeners and throwing. *)
Variable behaviour :
  nat -> option nat -> Data -> JS Err (EventBus * World) unit.

(** [callback.call(this, data)] *)
Definition callFunction (callback : nat) (this : option nat) (data : Data)
    : JS Err BusState unit :=
  fun s =>
    let calls := bs_calls s ++ [mkCall callback this data] in
    match behaviour callback this data (bs_bus s, bs_world s) with
    | Normal _ (bus, world) => Normal tt (mkBusState bus world (bs_console s) calls)
    | Thrown e (bus, world) => Thrown e (mkBusState bus world (bs_console s) calls)
    end.

Definition console {E : Type} (entry : ConsoleEntry) : JS E BusState unit :=
  fun s => Normal tt (mkBusState (bs_bus s) (bs_world s) (bs_console s ++ [entry])
                        (bs_calls s)).

Definition readBus {E : Type} : JS E BusState EventBus := fun s => Normal (bs_bus s) s.

(** [emit(event, data)].  The spread [[...this.events[event]]] is outside
    the [try]: on a name the object only inherits it throws. *)
Definition emit (event : string) (data : Data) : JS EmitError BusState unit :=
  js_bind readBus (fun this =>
  js_bind (if debugMode this then console (ConsoleLog event data) else js_ret tt) (fun _ =>
  match getProperty this event with
  | Undefined => js_ret tt
  | Inherited _ => js_throw NotIterable
  | Own subscribed =>
      let listeners := subscribed in   (* [...this.events[event]] *)
      js_lift ListenerError
        (forEach listeners (fun listener =>
           tryCatch
             (match l_context listener with
              | Some context => callFunction (l_callback listener) (Some context) data
              | None => callFunction (l_callback listener) None data
              end)
             (fun error => console (ConsoleError event error))))
  end)).

(** The calls [emit] owes to a list of listeners. *)
Definition callsFor (data : Data) (listeners : list Listener) : list Call :=
  map (fun l => mkCall (l_callback l) (l_context l) data) listeners.
End Emit.

(* ===================================================================== *)
(** * EventBus: the other methods *)
(* ===================================================================== *)

(** [new EventBus()]; [debugMode] is read from the configuration. *)
Definition newEventBus (debug : bool) : EventBus := mkEventBus ∅ debug.

(** [listenerCount(event)]: [this.events[event].length] of whatever truthy
    value is found, else 0.  [None] is [undefined], the [length] of
    [Object.prototype]. *)
Definition listenerCount (event : string) (bus : EventBus) : option nat :=
  match getProperty bus event with
  | Own listeners => Some (length listeners)
  | Inherited length => length
  | Undefined => Some 0%nat
  end.

(** [eventNames()]: [Object.keys] lists the object's own properties only;
    taken as a set (the order is not modelled). *)
Definition eventNames (bus : EventBus) : gset string := dom (events bus).

(** [removeAllListeners(event)].  [None] is a call without argument; the
    test [if (event)] also fails for the empty string.  [delete] removes an
    own property and does nothing to an inherited one. *)
Definition removeAllListeners (event : option string) (bus : EventBus) : EventBus :=
  match event with
  | Some name =>
      if decide (name = "") then mkEventBus ∅ (debugMode bus)
      else mkEventBus (delete name (events bus)) (debugMode bus)
  | None => mkEventBus ∅ (debugMode bus)
  end.

(** [once(event, callback, context)] subscribes a function created on the
    spot, here identified by [wrapper]; what that function does when called
    is [onceWrapper]. *)
Definition once (event : string) (wrapper : nat) (context : option nat) (id : string)
    (bus : EventBus) : option EventBus :=
  on event wrapper context id bus.

(** [(...args) => { unsubscribe(); callback.apply(context, args); }] where
    [unsubscribe] is [() => this.off(event, wrapper)]; [typeError] is what
    [off] throws when it throws. *)
Definition onceWrapper {Data Err World : Type}
    (behaviour : nat -> option nat -> Data -> JS Err (EventBus * World) unit)
    (typeError : Err) (event : string) (wrapper callback : nat) (context : option nat)
    : Data -> JS Err (EventBus * World) unit :=
  fun data '(bus, world) =>
    match off event wrapper bus with
    | Some bus' => behaviour callback context data (bus', world)
    | None => Thrown typeError (bus, world)
    end.

(** The calls a program can make on the bus to manage subscriptions. *)
Inductive BusCall :=
| CallOn (event : string) (callback : nat) (context : option nat) (id : string)
| CallOff (event : string) (callback : nat)
| CallRemoveAllListeners (event : option string).

(** The bus after a call.  A call that throws has written nothing when it
    throws: the program that catches the exception goes on with the bus as
    it was. *)
Definition busCall (bus : EventBus) (c : BusCall) : EventBus :=
  match c with
  | CallOn event callback context id => default bus (on event callback context id bus)
  | CallOff event callback => default bus (off event callback bus)
  | CallRemoveAllListeners event => removeAllListeners event bus
  end.

(** No event is kept with an empty array of listeners. *)
Definition tidy (bus : EventBus) : Prop :=
  forall event, events bus !! event <> Some [].

(** No array is stored under a name of [Object.prototype]. *)
Definition unshadowed (bus : EventBus) : Prop :=
  forall event, is_Some (events bus !! event) -> objectPrototype !! event = None.

(** The callback [callback] is subscribed to [event]. *)
Definition subscribed (event : string) (callback : nat) (bus : EventBus) : Prop :=
  exists l, l ∈ default [] (events bus !! event) /\ l_callback l = callback.

(** What [emit] does with one listener: the body of its [forEach], with
    the [try]/[catch] around the call. *)
Definition callListener {Data Err World : Type}
    (behaviour : nat -> option nat -> Data -> JS Err (EventBus * World) unit)
    (event : string) (data : Data) (listener : Listener)
    : JS Err (BusState (Data := Data) (Err := Err) (World := World)) unit :=
  tryCatch
    (match l_context listener with
     | Some context => callFunction behaviour (l_callback listener) (Some context) data
     | None => callFunction behaviour (l_callback listener) None data
     end)
    (fun error => console (ConsoleError event error)).

(* ===================================================================== *)
(** * MazeUtils *)
(* ===================================================================== *)

(** The functions of js/utils.js on integers and lists, and [clamp], which
    only compares numbers.  A value of [Math.random()] is taken as a
    rational.  ([isValidCoordinate] is with the grid model above.) *)

(** [Math.floor(Math.random() * n)], where [r] is the value of
    [Math.random()]: a number with [0 <= r < 1], taken as a rational. *)
Definition randomIndex (r : Q) (n : Z) : Z := Qfloor (r * inject_Z n)%Q.

(** [randomInt(min, max)] *)
Definition randomInt (r : Q) (min max : Z) : Z :=
  Qfloor (r * inject_Z (max - min + 1))%Q + min.

(** [[array[i], array[j]] = [array[j], array[i]]] on indices that hold an
    element.  (An index beyond the end would make JavaScript extend the
    array; [shuffleArray] never produces one, see [shuffleArray_swaps].) *)
Definition swapAt {A : Type} (array : list A) (i j : nat) : option (list A) :=
  ai ← array !! i;
  aj ← array !! j;
  Some (<[j := ai]> (<[i := aj]> array)).

(** The loop of [shuffleArray]: [for (i = ...; i > 0; i--)], the [k]-th
    iteration using the draw [rnd k]. *)
Fixpoint shuffleLoop {A : Type} (rnd : nat -> Q) (k : nat) (i : nat) (array : list A)
    : option (list A) :=
  match i with
  | O => Some array
  | S i' =>
      let j := Z.to_nat (randomIndex (rnd k) (Z.of_nat i + 1)) in
      array' ← swapAt array i j;
      shuffleLoop rnd (S k) i' array'
  end.

(** [shuffleArray(array)] *)
Definition shuffleArray {A : Type} (rnd : nat -> Q) (array : list A) : option (list A) :=
  shuffleLoop rnd 0 (length array - 1) array.

(** [manhattanDistance(x1, y1, x2, y2)] *)
Definition manhattanDistance (x1 y1 x2 y2 : Z) : Z :=
  Z.abs (x1 - x2) + Z.abs (y1 - y2).

(** An entry of [getCardinalNeighbors]: [{ x, y, direction }]. *)
Record CardinalNeighbor := mkCardinalNeighbor {
  cn_x : Z;
  cn_y : Z;
  cn_direction : string
}.

(** [getCardinalNeighbors(x, y, step = 1)] *)
Definition getCardinalNeighbors (x y step : Z) : list CardinalNeighbor :=
  [ mkCardinalNeighbor x (y - step) "north";
    mkCardinalNeighbor (x + step) y "east";
    mkCardinalNeighbor x (y + step) "south";
    mkCardinalNeighbor (x - step) y "west" ].

(** [getAllNeighbors(x, y)]: the two nested loops over [dy] and [dx] from
    -1 to 1, skipping [dx === 0 && dy === 0]. *)
Definition getAllNeighbors (x y : Z) : list Coord :=
  dy ← seqZ (-1) 3;
  dx ← seqZ (-1) 3;
  if (dx =? 0) && (dy =? 0) then [] else [mkCoord (x + dx) (y + dy)].

(** [clamp(value, min, max)]: [Math.min(Math.max(value, min), max)]. *)
Definition clamp (value min max : Q) : Q := Qmin (Qmax value min) max.

(* ===================================================================== *)
(** * Sample states *)
(* ===================================================================== *)

(** The state [initialize()] leaves on the blank 3x3 grid. *)
Definition initialized3 : Algorithm :=
  mkAlgorithm
    (mkMaze 3 3 [ [wallCell; wallCell; wallCell];
                  [wallCell; mkCell false true true false; wallCell];
                  [wallCell; wallCell; wallCell] ])
    defaultStepSize [] (Some (mkCoord 1 1)) false 0.

(** A 3x3 grid on which a run has just completed. *)
Definition completed3 : Algorithm :=
  mkAlgorithm
    (mkMaze 3 3 [ [wallCell; wallCell; wallCell];
                  [wallCell; mkCell false true false true; wallCell];
                  [wallCell; wallCell; wallCell] ])
    defaultStepSize [] (Some (mkCoord 1 1)) true 1.

(** A scene that holds a 31x31 maze and a camera. *)
Definition sampleScene : option MazeScene3D :=
  sc ← newScene configHeap;
  Some (mkScene (sc_config sc) (Some (blankMaze 31 31))
          (Some (mkCamera (0, 0, 0) (0, 0, 0))%Q)).

(** Three listeners of the event "e": the first throws, the second
    unsubscribes the third, the third adds the data to a counter. *)
Definition sampleBus : EventBus :=
  mkEventBus
    {[ "e" := [mkListener 1 None "id1"; mkListener 2 (Some 9%nat) "id2";
               mkListener 3 None "id3"] ]}
    false.

Definition sampleBehaviour (callback : nat) (this : option nat) (data : nat)
    : JS string (EventBus * nat) unit :=
  fun '(bus, counter) =>
    match callback with
    | 1%nat => Thrown "boom" (bus, counter)
    | 2%nat =>
        match off "e" 3 bus with
        | Some bus' => Normal tt (bus', counter)
        | None => Thrown "TypeError" (bus, counter)
        end
    | _ => Normal tt (bus, (counter + data)%nat)
    end.

(** A bus with a plain listener and a [once] listener for the event "e".
    Function 7 is the wrapper [once] made for function 5, which adds the
    data to a counter and throws; every other function does nothing. *)
Definition onceBus : EventBus :=
  mkEventBus {[ "e" := [mkListener 4 None "id4"; mkListener 7 None "id7"] ]} false.

Definition onceBehaviour (callback : nat) (this : option nat) (data : nat)
    : JS string (EventBus * nat) unit :=
  fun '(bus, counter) =>
    match callback with
    | 7%nat =>
        match off "e" 7 bus with
        | Some bus' => Thrown "boom" (bus', (counter + data)%nat)
        | None => Thrown "TypeError" (bus, counter)
        end
    | 5%nat => Thrown "boom" (bus, (counter + data)%nat)
    | _ => Normal tt (bus, counter)
    end.

(* ===================================================================== *)
(** * Reading and writing cells *)
(* ===================================================================== *)

Lemma isValidCoordinate_spec x y w h :
  isValidCoordinate x y w h = true <-> 0 <= x < w /\ 0 <= y < h.
Proof. unfold isValidCoordinate. rewrite !andb_true_iff. lia. Qed.

Lemma isValidCoordinate_false x y w h :
  isValidCoordinate x y w h = false <-> ~ (0 <= x < w /\ 0 <= y < h).
Proof.
  rewrite <- isValidCoordinate_spec.
  destruct (isValidCoordinate x y w h); split; intros; congruence.
Qed.

Lemma mergeCell_full c w v cu p :
  mergeCell c (cellState w v cu p) = mkCell w v cu p.
Proof. reflexivity. Qed.

Lemma getCell_wellFormed m x y :
  wellFormed m ->
  is_Some (getCell m x y) <-> isValidCoordinate x y (width m) (height m) = true.
Proof.
  intros (Hw & Hh & Hlen & Hrows). rewrite isValidCoordinate_spec.
  unfold getCell. destruct (Z.ltb_spec x 0), (Z.ltb_spec y 0); simpl;
    try (split; [intros [? ?]; discriminate | lia]).
  destruct (grid m !! Z.to_nat y) as [row|] eqn:Hrow; simpl.
  - assert (length row = Z.to_nat (width m)) as Hr.
    { eapply Forall_forall in Hrows; [exact Hrows|]. eapply list_elem_of_lookup_2, Hrow. }
    apply lookup_lt_Some in Hrow. rewrite lookup_lt_is_Some. lia.
  - apply lookup_ge_None in Hrow. split; [intros [? ?]; discriminate | lia].
Qed.

Lemma getCell_valid m p c :
  wellFormed m -> getCell m (cx p) (cy p) = Some c ->
  0 <= cx p < width m /\ 0 <= cy p < height m.
Proof.
  intros Hwf Hc. apply isValidCoordinate_spec, getCell_wellFormed; eauto.
Qed.

Lemma setCell_is_Some m x y st :
  is_Some (getCell m x y) -> is_Some (setCell m x y st).
Proof.
  unfold getCell, setCell. destruct ((x <? 0) || (y <? 0)); [intros [? ?]; discriminate|].
  destruct (grid m !! Z.to_nat y) as [row|]; simpl; [|intros [? ?]; discriminate].
  destruct (row !! Z.to_nat x); simpl; [eauto | intros [? ?]; discriminate].
Qed.

Lemma setCell_dims m x y st m' :
  setCell m x y st = Some m' -> width m' = width m /\ height m' = height m.
Proof.
  unfold setCell. destruct ((x <? 0) || (y <? 0)); [discriminate|].
  destruct (grid m !! Z.to_nat y) as [row|]; simpl; [|discriminate].
  destruct (row !! Z.to_nat x); simpl; [|discriminate].
  intros [= <-]. auto.
Qed.

Lemma setCell_wellFormed m x y st m' :
  setCell m x y st = Some m' -> wellFormed m -> wellFormed m'.
Proof.
  unfold setCell. destruct ((x <? 0) || (y <? 0)); [discriminate|].
  destruct (grid m !! Z.to_nat y) as [row|] eqn:Hrow; simpl; [|discriminate].
  destruct (row !! Z.to_nat x); simpl; [|discriminate].
  intros [= <-] (Hw & Hh & Hlen & Hrows). repeat split; simpl; auto.
  - rewrite length_insert. exact Hlen.
  - apply Forall_insert; [exact Hrows|]. rewrite length_insert.
    eapply Forall_forall in Hrows; [exact Hrows|]. eapply list_elem_of_lookup_2, Hrow.
Qed.

Lemma getCell_setCell_same m x y st m' :
  setCell m x y st = Some m' ->
  exists c, getCell m x y = Some c /\ getCell m' x y = Some (mergeCell c st).
Proof.
  unfold setCell, getCell. destruct ((x <? 0) || (y <? 0)); [discriminate|].
  destruct (grid m !! Z.to_nat y) as [row|] eqn:Hrow; simpl; [|discriminate].
  destruct (row !! Z.to_nat x) as [c|] eqn:Hc; simpl; [|discriminate].
  intros [= <-]. exists c. split; [reflexivity|]. simpl.
  rewrite list_lookup_insert_eq by (eapply lookup_lt_Some, Hrow). simpl.
  rewrite list_lookup_insert_eq by (eapply lookup_lt_Some, Hc). reflexivity.
Qed.

Lemma getCell_setCell_other m x y st m' x' y' :
  setCell m x y st = Some m' -> (x', y') <> (x, y) ->
  getCell m' x' y' = getCell m x' y'.
Proof.
  unfold setCell, getCell.
  destruct (Z.ltb_spec x 0), (Z.ltb_spec y 0); simpl; try discriminate.
  destruct (grid m !! Z.to_nat y) as [row|] eqn:Hrow; simpl; [|discriminate].
  destruct (row !! Z.to_nat x) as [c|] eqn:Hc; simpl; [|discriminate].
  intros [= <-] Hne. simpl.
  destruct (Z.ltb_spec x' 0), (Z.ltb_spec y' 0); simpl; try reflexivity.
  destruct (decide (Z.to_nat y = Z.to_nat y')) as [Hy|Hy].
  - rewrite <- Hy. rewrite list_lookup_insert_eq by (eapply lookup_lt_Some, Hrow).
    rewrite Hrow. simpl. apply list_lookup_insert_ne.
    intros Hx. apply Hne. f_equal; lia.
  - rewrite list_lookup_insert_ne by exact Hy. reflexivity.
Qed.

(** The effect of one [setCell] with all four fields on the flags read at any
    coordinate. *)
Lemma cellFlag_setCell f m p w v cu pa m' q :
  setCell m (cx p) (cy p) (cellState w v cu pa) = Some m' ->
  cellFlag f m' q = if decide (q = p) then f (mkCell w v cu pa) else cellFlag f m q.
Proof.
  intros Hset. unfold cellFlag. destruct (decide (q = p)) as [->|Hne].
  - destruct (getCell_setCell_same _ _ _ _ _ Hset) as (c & _ & ->). reflexivity.
  - rewrite (getCell_setCell_other _ _ _ _ _ (cx q) (cy q) Hset); [reflexivity|].
    intros [= Hx Hy]. apply Hne. destruct q, p; simpl in *; congruence.
Qed.

Lemma setCell_of_flag f m p st :
  cellFlag f m p = true -> is_Some (setCell m (cx p) (cy p) st).
Proof.
  unfold cellFlag. intros H. apply setCell_is_Some.
  destruct (getCell m (cx p) (cy p)); [eauto | discriminate].
Qed.

Lemma setCell_of_valid m p st :
  wellFormed m -> isValidCoordinate (cx p) (cy p) (width m) (height m) = true ->
  is_Some (setCell m (cx p) (cy p) st).
Proof. intros Hwf Hv. apply setCell_is_Some, getCell_wellFormed; assumption. Qed.

Lemma cellFlag_valid f m p :
  wellFormed m -> cellFlag f m p = true ->
  0 <= cx p < width m /\ 0 <= cy p < height m.
Proof.
  unfold cellFlag. intros Hwf H.
  destruct (getCell m (cx p) (cy p)) eqn:Hc; [|discriminate].
  eapply getCell_valid; eauto.
Qed.

(* ===================================================================== *)
(** * Counting cells *)
(* ===================================================================== *)

Lemma elem_of_coords m p :
  p ∈ coords m <-> 0 <= cx p < width m /\ 0 <= cy p < height m.
Proof.
  unfold coords. rewrite list_elem_of_bind. split.
  - intros (y & Hp & Hy). apply list_elem_of_bind in Hp as (x & Hp & Hx).
    apply list_elem_of_singleton in Hp as ->. simpl.
    apply elem_of_seqZ in Hx, Hy. lia.
  - intros [Hx Hy]. exists (cy p). split; [|apply elem_of_seqZ; lia].
    apply list_elem_of_bind. exists (cx p). split; [|apply elem_of_seqZ; lia].
    destruct p; simpl. apply list_elem_of_singleton. reflexivity.
Qed.

Lemma NoDup_coords m : NoDup (coords m).
Proof.
  unfold coords. apply NoDup_bind; [| |apply NoDup_seqZ].
  - intros y1 y2 p _ _ H1 H2.
    apply list_elem_of_bind in H1 as (x1 & H1 & _), H2 as (x2 & H2 & _).
    apply list_elem_of_singleton in H1, H2. congruence.
  - intros y _. apply NoDup_bind; [| |apply NoDup_seqZ].
    + intros x1 x2 p _ _ H1 H2. apply list_elem_of_singleton in H1, H2. congruence.
    + intros x _. apply NoDup_singleton.
Qed.

Lemma coords_dims m m' :
  width m' = width m -> height m' = height m -> coords m' = coords m.
Proof. unfold coords. intros -> ->. reflexivity. Qed.

Section Counting.
Context {A : Type} `{EqDecision A}.
Implicit Types (f g : A -> bool) (l : list A).

Lemma count_ext f g l : (forall a, a ∈ l -> f a = g a) -> count f l = count g l.
Proof.
  unfold count. induction l as [|a l IH]; intros H; [reflexivity|].
  rewrite !filter_cons. rewrite <- (H a) by left.
  destruct (decide (f a = true)); simpl; rewrite IH; auto;
    intros; apply H; by right.
Qed.

Lemma count_zero f l : (forall a, a ∈ l -> f a = false) -> count f l = 0%nat.
Proof.
  unfold count. induction l as [|a l IH]; intros H; [reflexivity|].
  rewrite filter_cons. rewrite (H a) by left.
  destruct (decide (false = true)); [discriminate|]. apply IH. intros; apply H; by right.
Qed.

Lemma count_le f l : (count f l <= length l)%nat.
Proof. apply length_filter. Qed.

(** Switching one point of a duplicate-free list from [false] to [true]
    raises the count by one. *)
Lemma count_switch_on f g l p :
  NoDup l -> p ∈ l -> f p = false -> g p = true ->
  (forall a, a <> p -> g a = f a) ->
  count g l = S (count f l).
Proof.
  unfold count. intros Hnd. induction Hnd as [|a l Hna Hnd IH]; intros Hin Hf Hg Hoth.
  - inversion Hin.
  - rewrite !filter_cons. destruct (decide (a = p)) as [->|Hne].
    + rewrite Hf, Hg. destruct (decide (true = true)); [|congruence].
      destruct (decide (false = true)); [discriminate|]. simpl. f_equal.
      apply (count_ext g f). intros b Hb. apply Hoth. intros ->. contradiction.
    + rewrite (Hoth a Hne). apply elem_of_cons in Hin as [->|Hin]; [congruence|].
      destruct (decide (f a = true)); simpl; rewrite IH; auto.
Qed.

Lemma count_switch_off f g l p :
  NoDup l -> p ∈ l -> f p = true -> g p = false ->
  (forall a, a <> p -> g a = f a) ->
  count f l = S (count g l).
Proof.
  intros. apply (count_switch_on g f l p); auto.
  intros a Ha. symmetry. auto.
Qed.

(** A flag that holds at exactly one point of the list. *)
Lemma count_one f l p :
  NoDup l -> p ∈ l -> f p = true -> (forall a, a ∈ l -> f a = true -> a = p) ->
  count f l = 1%nat.
Proof.
  intros Hnd Hin Hp Huniq.
  rewrite (count_switch_off f (fun a => if decide (a = p) then false else f a) l p); auto.
  - f_equal. apply count_zero. intros a Ha. destruct (decide (a = p)); [reflexivity|].
    destruct (f a) eqn:Hfa; [|reflexivity]. exfalso; auto.
  - destruct (decide (p = p)); congruence.
  - intros a Ha. destruct (decide (a = p)); congruence.
Qed.
End Counting.

Lemma countCells_count f m : countCells f m = count f (coords m).
Proof. reflexivity. Qed.

(* ===================================================================== *)
(** * Graphs in which any two nodes are joined by exactly one simple path *)
(* ===================================================================== *)

Section Trees.
Context {V : Type} `{EqDecision V}.

(** Which nodes touch; the nodes of the graph are those satisfying [P]. *)
Variable adj : V -> V -> Prop.
Hypothesis adj_sym : forall a b, adj a b -> adj b a.

Lemma walk_head P a b l : walk adj P a b l -> exists l', l = a :: l'.
Proof. destruct 1; eauto. Qed.

Lemma walk_Forall P a b l : walk adj P a b l -> Forall P l.
Proof. induction 1; repeat constructor; auto. Qed.

Lemma walk_start P a b l : walk adj P a b l -> P a.
Proof. destruct 1; auto. Qed.

Lemma walk_end P a b l : walk adj P a b l -> P b /\ b ∈ l.
Proof.
  induction 1 as [a Ha|a c b l Ha Hac Hw [IH1 IH2]].
  - split; [assumption | left].
  - split; [assumption | by right].
Qed.

Lemma walk_mono (P Q : V -> Prop) a b l :
  (forall x, P x -> Q x) -> walk adj P a b l -> walk adj Q a b l.
Proof. intros HPQ. induction 1; econstructor; eauto. Qed.

Lemma walk_snoc P a b c l :
  walk adj P a b l -> P c -> adj b c -> walk adj P a c (l ++ [c]).
Proof.
  intros Hw Hc Hbc. induction Hw as [a Ha|a d b l Ha Had Hw IH]; simpl.
  - econstructor; eauto. by constructor.
  - econstructor; eauto.
Qed.

(** A graph with a single node. *)
Lemma uniquelyConnected_single (P : V -> Prop) s :
  P s -> (forall x, P x -> x = s) -> uniquelyConnected adj P.
Proof.
  intros Hs Honly a b Ha Hb. apply Honly in Ha as ->, Hb as ->.
  exists [s]. split; [split; [by constructor | apply NoDup_singleton]|].
  intros l' [Hw Hnd]. inversion Hw as [|? c ? l2 _ _ Hw2]; subst; [reflexivity|].
  apply walk_start in Hw2 as Hc. apply Honly in Hc as ->.
  apply walk_head in Hw2 as [l3 ->].
  apply NoDup_cons_1_1 in Hnd. exfalso. apply Hnd. left.
Qed.

Section Leaf.
(** [Q] extends [P] by a node [v] that touches exactly one node of [P],
    namely [u]. *)
Variables (P Q : V -> Prop) (u v : V).
Hypothesis Hv : ~ P v.
Hypothesis Hu : P u.
Hypothesis Huv : adj u v.
Hypothesis Honly : forall q, adj v q -> P q -> q = u.
Hypothesis HQ : forall x, Q x <-> P x \/ x = v.

Lemma leaf_walk_from_old a b l :
  walk adj Q a b l -> NoDup l -> a <> v ->
  ((v ∉ l) /\ walk adj P a b l) \/
  (b = v /\ exists l0, l = l0 ++ [v] /\ walk adj P a u l0).
Proof.
  induction 1 as [a Ha|a c b l Ha Hac Hw IH]; intros Hnd Hav.
  - left. apply HQ in Ha as [Ha|Ha]; [|contradiction].
    split; [|by constructor]. intros Hin. apply list_elem_of_singleton in Hin. auto.
  - apply HQ in Ha as [Ha|Ha]; [|contradiction].
    apply NoDup_cons in Hnd as [Hal Hnd].
    destruct (decide (c = v)) as [->|Hcv].
    + assert (a = u) as -> by (apply Honly; auto).
      right. inversion Hw as [|? c2 ? l2 _ Hvc2 Hw2]; subst.
      * split; [reflexivity|]. exists [u]. split; [reflexivity | by constructor].
      * exfalso. apply walk_head in Hw2 as Hhd. destruct Hhd as [l3 ->].
        apply walk_start in Hw2 as Hc2. apply HQ in Hc2 as [Hc2| ->].
        -- apply Honly in Hc2 as ->; [|assumption].
           apply Hal. right. left.
        -- apply NoDup_cons_1_1 in Hnd. apply Hnd. left.
    + destruct (IH Hnd Hcv) as [[Hvl HwP]|[-> (l0 & -> & HwP)]].
      * left. split; [|econstructor; eauto].
        intros Hin. apply elem_of_cons in Hin as [Hin|Hin]; auto.
      * right. split; [reflexivity|]. exists (a :: l0).
        split; [reflexivity | econstructor; eauto].
Qed.

Lemma leaf_walk_from_new b l :
  walk adj Q v b l -> NoDup l ->
  (b = v /\ l = [v]) \/ (exists l1, l = v :: l1 /\ (v ∉ l1) /\ walk adj P u b l1).
Proof.
  intros Hw Hnd. inversion Hw as [|? c ? l1 _ Hvc Hw1]; subst; [by left|].
  right. exists l1. apply NoDup_cons in Hnd as [Hvl Hnd].
  split; [reflexivity|]. split; [assumption|].
  assert (c <> v) as Hcv.
  { intros ->. apply walk_head in Hw1 as [l2 ->]. apply Hvl. left. }
  assert (c = u) as ->.
  { apply Honly; [assumption|]. apply walk_start in Hw1. apply HQ in Hw1. tauto. }
  destruct (leaf_walk_from_old _ _ _ Hw1 Hnd Hcv) as [[_ HwP]|[_ (l0 & -> & _)]];
    [assumption|].
  exfalso. apply Hvl. apply elem_of_app. right. left.
Qed.

Lemma uniquelyConnected_leaf : uniquelyConnected adj P -> uniquelyConnected adj Q.
Proof.
  intros Htree a b Ha Hb.
  assert (forall x, P x -> Q x) as HPQ by (intros; apply HQ; auto).
  assert (forall x y l, walk adj P x y l -> v ∉ l) as Hfree.
  { intros x y l Hw Hin. apply walk_Forall in Hw.
    eapply Forall_forall in Hw; [|exact Hin]. contradiction. }
  apply HQ in Ha, Hb.
  destruct (decide (a = v)) as [->|Hav], (decide (b = v)) as [->|Hbv].
  - exists [v]. split.
    + split; [constructor; apply HQ; auto | apply NoDup_singleton].
    + intros l' [Hw Hnd].
      destruct (leaf_walk_from_new _ _ Hw Hnd) as [[_ ->]|(l1 & -> & _ & HwP)];
        [reflexivity|].
      apply walk_end in HwP as [HPv _]. contradiction.
  - destruct Hb as [Hb|Hb]; [|contradiction].
    destruct (Htree u b Hu Hb) as (l & [Hw Hnd] & Huniq).
    exists (v :: l). split.
    + split.
      * econstructor; [apply HQ; auto | apply adj_sym, Huv | eapply walk_mono; eauto].
      * apply NoDup_cons. split; [eapply Hfree; eauto | assumption].
    + intros l' [Hw' Hnd'].
      destruct (leaf_walk_from_new _ _ Hw' Hnd') as [[-> _]|(l1 & -> & _ & HwP)];
        [contradiction|].
      f_equal. apply Huniq. split; [assumption|].
      apply NoDup_cons in Hnd'. tauto.
  - destruct Ha as [Ha|Ha]; [|contradiction].
    destruct (Htree a u Ha Hu) as (l & [Hw Hnd] & Huniq).
    exists (l ++ [v]). split.
    + split.
      * eapply walk_snoc; [eapply walk_mono; eauto | apply HQ; auto | assumption].
      * apply NoDup_app. split; [assumption|]. split; [|apply NoDup_singleton].
        intros x Hx Hxv. apply list_elem_of_singleton in Hxv as ->.
        eapply Hfree; eauto.
    + intros l' [Hw' Hnd'].
      destruct (leaf_walk_from_old _ _ _ Hw' Hnd' Hav) as [[Hvl _]|[_ (l0 & -> & HwP)]].
      * exfalso. apply walk_end in Hw' as [_ Hin]. contradiction.
      * f_equal. apply Huniq. split; [assumption|].
        apply NoDup_app in Hnd'. tauto.
  - destruct Ha as [Ha|Ha]; [|contradiction].
    destruct Hb as [Hb|Hb]; [|contradiction].
    destruct (Htree a b Ha Hb) as (l & [Hw Hnd] & Huniq).
    exists l. split.
    + split; [eapply walk_mono; eauto | assumption].
    + intros l' [Hw' Hnd'].
      destruct (leaf_walk_from_old _ _ _ Hw' Hnd' Hav) as [[_ HwP]|[-> _]];
        [|contradiction].
      apply Huniq. split; assumption.
Qed.
End Leaf.

(** Graphs with the same nodes have the same paths. *)
Lemma uniquelyConnected_ext (P Q : V -> Prop) :
  (forall x, P x <-> Q x) -> uniquelyConnected adj P -> uniquelyConnected adj Q.
Proof.
  intros HPQ Htree a b Ha Hb.
  destruct (Htree a b) as (l & [Hw Hnd] & Huniq); [by apply HPQ | by apply HPQ |].
  exists l. split.
  - split; [|assumption]. eapply walk_mono; [|exact Hw]. intros; by apply HPQ.
  - intros l' [Hw' Hnd']. apply Huniq. split; [|assumption].
    eapply walk_mono; [|exact Hw']. intros; by apply HPQ.
Qed.
End Trees.

(* ===================================================================== *)
(** * The passage graph of a maze *)
(* ===================================================================== *)

Lemma Coord_eq_iff p q : p = q <-> cx p = cx q /\ cy p = cy q.
Proof.
  split; [intros ->; auto|]. destruct p, q; simpl. intros [-> ->]. reflexivity.
Qed.

Lemma touching_sym p q : touching p q -> touching q p.
Proof. unfold touching. lia. Qed.

Lemma cellFlag_eq f m p q : cx p = cx q -> cy p = cy q -> cellFlag f m p = cellFlag f m q.
Proof. intros Hx Hy. assert (p = q) as -> by (apply Coord_eq_iff; auto). reflexivity. Qed.

Lemma passage_valid m p :
  wellFormed m -> passage m p = true -> 0 <= cx p < width m /\ 0 <= cy p < height m.
Proof. apply cellFlag_valid. Qed.

(** Turns equalities and disequalities between coordinates into
    arithmetic on their components. *)
Ltac coord_arith :=
  unfold touching, shift in *; simpl in *;
  rewrite ?Coord_eq_iff in *; simpl in *;
  Z.div_mod_to_equations; lia.

Section Grows.
(** [m'] is [m] with one more passage cell [v], which touches exactly one
    passage cell of [m], namely [u]. *)
Variables (m m' : Maze) (u v : Coord).
Hypothesis Hwf : wellFormed m.
Hypothesis Hwidth : width m' = width m.
Hypothesis Hheight : height m' = height m.
Hypothesis Hvalid : 0 <= cx v < width m /\ 0 <= cy v < height m.
Hypothesis Hv : passage m v = false.
Hypothesis Hu : passage m u = true.
Hypothesis Huv : touching u v.
Hypothesis Honly : forall q, touching v q -> passage m q = true -> q = u.
Hypothesis Hnew : forall q, passage m' q = if decide (q = v) then true else passage m q.

Lemma grows_perfect : perfect m -> perfect m'.
Proof using All.
  unfold perfect.
  apply (uniquelyConnected_leaf touching touching_sym
           (fun p => passage m p = true) (fun p => passage m' p = true) u v);
    auto.
  - congruence.
  - intros x. rewrite Hnew. destruct (decide (x = v)); split; auto.
    intros [H|H]; [assumption | contradiction].
Qed.

Lemma grows_passageCount : passageCount m' = S (passageCount m).
Proof using All.
  unfold passageCount. rewrite !countCells_count.
  rewrite (coords_dims m m') by assumption.
  apply (count_switch_on _ _ _ v).
  - apply NoDup_coords.
  - apply elem_of_coords. assumption.
  - assumption.
  - rewrite Hnew. destruct (decide (v = v)); congruence.
  - intros a Ha. rewrite Hnew. destruct (decide (a = v)); [contradiction | reflexivity].
Qed.

Lemma grows_u_ne_v : u <> v.
Proof. intros ->. congruence. Qed.

Lemma grows_wall_around q : touching v q -> q <> u -> passage m q = false.
Proof.
  intros Hq Hne. destruct (passage m q) eqn:Hp; [|reflexivity].
  exfalso. apply Hne, Honly; assumption.
Qed.

(** Edges counted along one direction [(dx, dy)]. *)
Section Direction.
Variables dx dy : Z.
Hypothesis Hunit : Z.abs dx + Z.abs dy = 1.

Lemma edgeAt_new_forward :
  u = shift dx dy v ->
  count (edgeAlong dx dy m') (coords m) = S (count (edgeAlong dx dy m) (coords m)).
Proof.
  intros Hd. apply (count_switch_on _ _ _ v).
  - apply NoDup_coords.
  - apply elem_of_coords. assumption.
  - unfold edgeAlong. rewrite Hv. reflexivity.
  - unfold edgeAlong. rewrite !Hnew. destruct (decide (v = v)); [|congruence].
    destruct (decide (shift dx dy v = v)); [reflexivity|]. rewrite <- Hd. exact Hu.
  - intros a Ha. unfold edgeAlong. rewrite !Hnew.
    destruct (decide (a = v)); [contradiction|].
    destruct (decide (shift dx dy a = v)) as [Hs|Hs]; [|reflexivity].
    rewrite (grows_wall_around a); [reflexivity | |].
    + subst v. coord_arith.
    + subst v u. coord_arith.
Qed.

Lemma edgeAt_new_backward :
  v = shift dx dy u ->
  count (edgeAlong dx dy m') (coords m) = S (count (edgeAlong dx dy m) (coords m)).
Proof.
  intros Hd. apply (count_switch_on _ _ _ u).
  - apply NoDup_coords.
  - apply elem_of_coords. apply passage_valid; assumption.
  - unfold edgeAlong. rewrite <- Hd, Hv. apply andb_false_r.
  - unfold edgeAlong. rewrite !Hnew. rewrite <- Hd.
    destruct (decide (v = v)); [|congruence].
    destruct (decide (u = v)); [reflexivity|]. rewrite Hu. reflexivity.
  - intros a Ha. unfold edgeAlong. rewrite !Hnew.
    destruct (decide (a = v)) as [->|Hav].
    + rewrite Hv. simpl.
      destruct (decide (shift dx dy v = v)) as [Hs|Hs]; [exfalso; coord_arith|].
      apply grows_wall_around; [coord_arith|].
      intros Heq. rewrite <- Heq in Hd. coord_arith.
    + destruct (decide (shift dx dy a = v)) as [Hs|Hs]; [|reflexivity].
      exfalso. apply Ha. rewrite Hd in Hs. coord_arith.
Qed.

Lemma edgeAt_unchanged :
  u <> shift dx dy v -> v <> shift dx dy u ->
  count (edgeAlong dx dy m') (coords m) = count (edgeAlong dx dy m) (coords m).
Proof.
  intros Hf Hb. apply count_ext. intros a _. unfold edgeAlong. rewrite !Hnew.
  destruct (decide (a = v)) as [->|Hav].
  - rewrite Hv. simpl.
    destruct (decide (shift dx dy v = v)) as [Hs|Hs]; [exfalso; coord_arith|].
    apply grows_wall_around; [coord_arith | congruence].
  - destruct (decide (shift dx dy a = v)) as [Hs|Hs]; [|reflexivity].
    rewrite (grows_wall_around a); [reflexivity | coord_arith |].
    intros ->. apply Hb. symmetry. exact Hs.
Qed.
End Direction.

Lemma grows_edgeCount : edgeCount m' = S (edgeCount m).
Proof using All.
  unfold edgeCount. rewrite !countCells_count.
  rewrite (coords_dims m m') by assumption.
  destruct (decide (u = shift 1 0 v)) as [He|He];
    [|destruct (decide (v = shift 1 0 u)) as [Hw|Hw]].
  - rewrite (edgeAt_new_forward 1 0) by (auto; lia).
    rewrite (edgeAt_unchanged 0 1); [lia | lia | |].
    + rewrite He. coord_arith.
    + rewrite He. coord_arith.
  - rewrite (edgeAt_new_backward 1 0) by (auto; lia).
    rewrite (edgeAt_unchanged 0 1); [lia | lia | |].
    + rewrite Hw. coord_arith.
    + rewrite Hw. coord_arith.
  - rewrite (edgeAt_unchanged 1 0) by (auto; lia).
    destruct (decide (u = shift 0 1 v)) as [Hs|Hs].
    + rewrite (edgeAt_new_forward 0 1) by (auto; lia). lia.
    + rewrite (edgeAt_new_backward 0 1); [lia | lia |].
      pose proof Huv. coord_arith.
Qed.
End Grows.

(* ===================================================================== *)
(** * What the recursive backtracker keeps true of the grid *)
(* ===================================================================== *)

Lemma countCells_ext f g m m' :
  width m' = width m -> height m' = height m -> (forall p, f p = g p) ->
  countCells f m' = countCells g m.
Proof.
  intros Hw Hh Hfg. rewrite !countCells_count, (coords_dims m m') by assumption.
  apply count_ext. auto.
Qed.

Lemma carved_visitedCount m : carved m -> visitedCount m = passageCount m.
Proof. intros Hc. apply countCells_ext; auto. apply Hc. Qed.

(** Nothing above depends on more than the walls and the visited marks. *)
Lemma carved_ext m m' :
  carved m -> wellFormed m' -> width m' = width m -> height m' = height m ->
  (forall p, passage m' p = passage m p) ->
  (forall p, isVisited m' p = isVisited m p) ->
  carved m'.
Proof.
  intros [Hwf Hvis Hpar Hconn Hperf Hedges] Hwf' Hw Hh Hp Hv. split.
  - assumption.
  - intros p. rewrite Hp, Hv. apply Hvis.
  - intros p. rewrite Hp. apply Hpar.
  - intros p q. rewrite !Hp. apply Hconn.
  - unfold perfect in *. eapply uniquelyConnected_ext; [|exact Hperf].
    intros x. simpl. rewrite Hp. reflexivity.
  - unfold edgeCount, passageCount in *.
    rewrite (countCells_ext _ (edgeAlong 1 0 m) m m'),
      (countCells_ext _ (edgeAlong 0 1 m) m m'),
      (countCells_ext _ (passage m) m m'); auto.
    + intros p. unfold edgeAlong. rewrite !Hp. reflexivity.
    + intros p. unfold edgeAlong. rewrite !Hp. reflexivity.
Qed.

(** Rewriting the markers of a cell that is already open. *)
Lemma carved_mark m p cu pa m' :
  carved m -> passage m p = true ->
  setCell m (cx p) (cy p) (cellState false true cu pa) = Some m' ->
  carved m' /\ (forall q, passage m' q = passage m q) /\
  width m' = width m /\ height m' = height m.
Proof.
  intros Hc Hp Hset. destruct (setCell_dims _ _ _ _ _ Hset) as [Hw Hh].
  assert (forall q, passage m' q = passage m q) as Hpass.
  { intros q. unfold passage. rewrite (cellFlag_setCell _ _ _ _ _ _ _ _ q Hset).
    destruct (decide (q = p)) as [->|]; [|reflexivity]. symmetry. exact Hp. }
  split; [|auto].
  apply (carved_ext m); auto.
  - eapply setCell_wellFormed; [exact Hset | apply Hc].
  - intros q. unfold isVisited. rewrite (cellFlag_setCell _ _ _ _ _ _ _ _ q Hset).
    destruct (decide (q = p)) as [->|]; [|reflexivity].
    symmetry. fold (isVisited m p). rewrite (cv_visited m Hc). exact Hp.
Qed.

(** Arithmetic of a room [cur], the cell [w] next to it and the room [next]
    one step further in the same direction. *)
Section Between.
Variables cur w next : Coord.
Hypothesis Hodd : oddCell cur.
Hypothesis Htouch : touching cur w.
Hypothesis Hx : cx next - cx w = cx w - cx cur.
Hypothesis Hy : cy next - cy w = cy w - cy cur.

Lemma between_oddCell : oddCell next.
Proof using All. unfold oddCell, touching in *. Z.div_mod_to_equations. lia. Qed.

Lemma between_touching : touching w next.
Proof using Htouch Hx Hy. unfold touching in *. lia. Qed.

Lemma between_parity : cx w mod 2 = 1 \/ cy w mod 2 = 1.
Proof using Hodd Htouch. unfold oddCell, touching in *. Z.div_mod_to_equations. lia. Qed.

Lemma between_distinct : next <> w /\ cur <> w /\ cur <> next.
Proof using Htouch Hx Hy. unfold touching in *. rewrite !Coord_eq_iff. lia. Qed.

Lemma between_only q :
  touching w q -> cx q mod 2 = 1 \/ cy q mod 2 = 1 -> q <> next -> q = cur.
Proof using All.
  unfold oddCell, touching in *. rewrite !Coord_eq_iff. intros.
  Z.div_mod_to_equations. lia.
Qed.

Lemma between_valid width height :
  0 <= cx cur < width /\ 0 <= cy cur < height ->
  0 <= cx next < width /\ 0 <= cy next < height ->
  0 <= cx w < width /\ 0 <= cy w < height.
Proof using Htouch Hx Hy. unfold touching in *. lia. Qed.
End Between.

Lemma oddCells_apart p q : oddCell p -> oddCell q -> touching p q -> False.
Proof. unfold oddCell, touching. intros. Z.div_mod_to_equations. lia. Qed.

(** Opening the cell [w] between the room [cur] and the closed room [next],
    then [next] itself. *)
Lemma carved_carve m cur w next m1 m2 :
  carved m -> room m cur ->
  touching cur w ->
  cx next - cx w = cx w - cx cur -> cy next - cy w = cy w - cy cur ->
  isValidCoordinate (cx next) (cy next) (width m) (height m) = true ->
  isVisited m next = false ->
  setCell m (cx w) (cy w) (cellState false true false true) = Some m1 ->
  setCell m1 (cx next) (cy next) (cellState false true false false) = Some m2 ->
  carved m2 /\ passageCount m2 = S (S (passageCount m)) /\
  (forall q, passage m2 q = if decide (q = next) then true
                            else if decide (q = w) then true else passage m q).
Proof.
  intros Hc [Hodd Hcur] Htouch Hx Hy Hvalid Hunvis Hset1 Hset2.
  pose proof (cv_wf m Hc) as Hwf.
  destruct (setCell_dims _ _ _ _ _ Hset1) as [Hw1 Hh1].
  destruct (setCell_dims _ _ _ _ _ Hset2) as [Hw2 Hh2].
  pose proof (setCell_wellFormed _ _ _ _ _ Hset1 Hwf) as Hwf1.
  pose proof (setCell_wellFormed _ _ _ _ _ Hset2 Hwf1) as Hwf2.
  apply isValidCoordinate_spec in Hvalid.
  pose proof (passage_valid m cur Hwf Hcur) as Hcurv.
  assert (passage m next = false) as Hnext by (rewrite <- (cv_visited m Hc); exact Hunvis).
  pose proof (between_oddCell cur w next Hodd Htouch Hx Hy) as Hoddn.
  pose proof (between_touching cur w next Htouch Hx Hy) as Htouch2.
  destruct (between_distinct cur w next Htouch Hx Hy) as (Hnw & Hcw & Hcn).
  pose proof (between_valid cur w next Htouch Hx Hy _ _ Hcurv Hvalid) as Hwv.
  assert (passage m w = false) as Hwall.
  { destruct (passage m w) eqn:Hpw; [|reflexivity].
    rewrite (cv_conn m Hc w next Hpw Htouch2 Hoddn) in Hnext. discriminate. }
  assert (forall q, passage m1 q = if decide (q = w) then true else passage m q) as Hp1.
  { intros q. unfold passage. rewrite (cellFlag_setCell _ _ _ _ _ _ _ _ q Hset1).
    reflexivity. }
  assert (forall q, passage m2 q = if decide (q = next) then true else passage m1 q) as Hp2.
  { intros q. unfold passage. rewrite (cellFlag_setCell _ _ _ _ _ _ _ _ q Hset2).
    reflexivity. }
  assert (forall q, touching w q -> passage m q = true -> q = cur) as Honly1.
  { intros q Hq Hpq. apply (between_only cur w next); auto.
    - apply (cv_parity m Hc q Hpq).
    - intros ->. congruence. }
  assert (forall q, touching next q -> passage m1 q = true -> q = w) as Honly2.
  { intros q Hq. rewrite Hp1. destruct (decide (q = w)); [auto|]. intros Hpq.
    rewrite (cv_conn m Hc q next Hpq (touching_sym _ _ Hq) Hoddn) in Hnext. discriminate. }
  assert (passage m1 next = false) as Hnext1.
  { rewrite Hp1. destruct (decide (next = w)); [contradiction | exact Hnext]. }
  assert (passage m1 w = true) as Hw1p.
  { rewrite Hp1. destruct (decide (w = w)); congruence. }
  assert (forall q, passage m2 q = if decide (q = next) then true
                                   else if decide (q = w) then true else passage m q) as Hp12.
  { intros q. rewrite Hp2, Hp1. reflexivity. }
  assert (0 <= cx next < width m1 /\ 0 <= cy next < height m1) as Hvalid1
    by (rewrite Hw1, Hh1; exact Hvalid).
  split; [|split; [|exact Hp12]].
  - split.
    + exact Hwf2.
    + intros q. rewrite Hp12. unfold isVisited.
      rewrite (cellFlag_setCell _ _ _ _ _ _ _ _ q Hset2).
      destruct (decide (q = next)); [reflexivity|].
      rewrite (cellFlag_setCell _ _ _ _ _ _ _ _ q Hset1).
      destruct (decide (q = w)); [reflexivity|]. apply (cv_visited m Hc).
    + intros q. rewrite Hp12.
      destruct (decide (q = next)) as [->|]; [intros _; left; apply Hoddn|].
      destruct (decide (q = w)) as [->|];
        [intros _; apply (between_parity cur w); auto|].
      apply (cv_parity m Hc).
    + intros p q. rewrite !Hp12. intros Hp Hpq Hq.
      destruct (decide (q = next)); [reflexivity|].
      destruct (decide (q = w)); [reflexivity|].
      destruct (decide (p = next)) as [->|].
      { exfalso. exact (oddCells_apart next q Hoddn Hq Hpq). }
      destruct (decide (p = w)) as [->|].
      { assert (q = cur) as ->; [|exact Hcur].
        apply (between_only cur w next); auto. left. apply Hq. }
      eapply (cv_conn m Hc); eauto.
    + apply (grows_perfect m1 m2 w next); auto.
      apply (grows_perfect m m1 cur w); auto. apply Hc.
    + rewrite (grows_edgeCount m1 m2 w next), (grows_passageCount m1 m2 w next); auto.
      rewrite (grows_edgeCount m m1 cur w), (grows_passageCount m m1 cur w); auto.
      pose proof (cv_edges m Hc). lia.
  - rewrite (grows_passageCount m1 m2 w next); auto.
    rewrite (grows_passageCount m m1 cur w); auto.
Qed.

(* ===================================================================== *)
(** * getUnvisitedNeighbors *)
(* ===================================================================== *)

Lemma collectUnvisited_spec m dirs :
  wellFormed m ->
  exists ns, collectUnvisited m dirs = Some ns /\
    forall n, n ∈ ns <->
      n ∈ dirs /\ isValidCoordinate (cx n) (cy n) (width m) (height m) = true /\
      isVisited m n = false.
Proof.
  intros Hwf. induction dirs as [|dir rest (ns & Hns & IH)]; simpl.
  - exists []. split; [reflexivity|]. intros n. rewrite elem_of_nil. tauto.
  - rewrite Hns. simpl.
    destruct (isValidCoordinate (cx dir) (cy dir) (width m) (height m)) eqn:Hv.
    + destruct (proj2 (getCell_wellFormed m (cx dir) (cy dir) Hwf) Hv) as [cell Hcell].
      rewrite Hcell. simpl. eexists. split; [reflexivity|]. intros n.
      assert (isVisited m dir = c_visited cell) as Hvis
        by (unfold isVisited, cellFlag; rewrite Hcell; reflexivity).
      destruct (c_visited cell).
      * rewrite IH, elem_of_cons.
        split; [tauto|]. intros ([->|?] & ? & ?); [congruence | tauto].
      * rewrite !elem_of_cons, IH.
        split; [intros [->|?]; tauto | tauto].
    + exists ns. split; [reflexivity|]. intros n. rewrite IH, elem_of_cons.
      split; [tauto|]. intros ([->|?] & ? & ?); [congruence | tauto].
Qed.

Lemma getUnvisitedNeighbors_spec a x y :
  wellFormed (alg_maze a) ->
  exists ns, getUnvisitedNeighbors a x y = Some ns /\
    forall n, n ∈ ns <->
      n ∈ directions x y (alg_stepSize a) /\
      isValidCoordinate (cx n) (cy n) (width (alg_maze a)) (height (alg_maze a)) = true /\
      isVisited (alg_maze a) n = false.
Proof. apply collectUnvisited_spec. Qed.

(** The cell whose wall [step()] clears lies between the current cell and
    the chosen neighbour. *)
Lemma wall_between cur next :
  next ∈ directions (cx cur) (cy cur) 2 ->
  let w := mkCoord (cx cur + (cx next - cx cur) / 2) (cy cur + (cy next - cy cur) / 2) in
  touching cur w /\
  cx next - cx w = cx w - cx cur /\ cy next - cy w = cy w - cy cur.
Proof.
  unfold directions, touching. rewrite !elem_of_cons, elem_of_nil.
  intros [->|[->|[->|[->|[]]]]]; simpl; Z.div_mod_to_equations; lia.
Qed.

(* ===================================================================== *)
(** * States of a run *)
(* ===================================================================== *)

Lemma room_mono m m' p :
  (forall q, passage m q = true -> passage m' q = true) -> room m p -> room m' p.
Proof. intros H [Ho Hp]. split; auto. Qed.

Lemma setCell_passage m p st :
  passage m p = true -> exists m', setCell m (cx p) (cy p) st = Some m'.
Proof. intros H. destruct (setCell_of_flag _ m p st H) as [m' ->]. eauto. Qed.

Lemma isCurrent_setCell m p w v cu pa m' q :
  setCell m (cx p) (cy p) (cellState w v cu pa) = Some m' ->
  isCurrent m' q = if decide (q = p) then cu else isCurrent m q.
Proof. intros H. unfold isCurrent. rewrite (cellFlag_setCell _ _ _ _ _ _ _ _ q H). reflexivity. Qed.

Lemma visitedCount_le m : (visitedCount m <= length (coords m))%nat.
Proof. apply count_le. Qed.

Lemma passageCount_ext m m' :
  width m' = width m -> height m' = height m ->
  (forall q, passage m' q = passage m q) -> passageCount m' = passageCount m.
Proof. intros. apply countCells_ext; auto. Qed.

(** ** One call of [step()] from a running state *)

Section Advance.
Variables (r : nat) (a : Algorithm) (cur : Coord) (ns : list Coord).
Hypothesis Hrun : running a.
Hypothesis Hactive : alg_isComplete a = false.
Hypothesis Hcur : alg_current a = Some cur.
Hypothesis Hns : getUnvisitedNeighbors a (cx cur) (cy cur) = Some ns.

Let m := alg_maze a.

Lemma advance_room : room m cur.
Proof using Hrun Hcur.
  destruct (run_current a Hrun) as (cur' & Hc & Hroom & _).
  rewrite Hcur in Hc. injection Hc as <-. exact Hroom.
Qed.

Lemma advance_marker p : isCurrent m p = bool_decide (p = cur).
Proof using Hrun Hcur Hactive.
  destruct (run_current a Hrun) as (cur' & Hc & _ & Hmark).
  rewrite Hcur in Hc. injection Hc as <-. subst m. rewrite Hmark, Hactive. reflexivity.
Qed.

Lemma advance_neighbors n :
  n ∈ ns <->
  n ∈ directions (cx cur) (cy cur) 2 /\
  isValidCoordinate (cx n) (cy n) (width m) (height m) = true /\
  isVisited m n = false.
Proof using Hrun Hns.
  destruct (getUnvisitedNeighbors_spec a (cx cur) (cy cur)) as (ns' & Hns' & Hspec).
  { apply Hrun. }
  rewrite Hns in Hns'. injection Hns' as <-.
  rewrite Hspec, (run_stepSize a Hrun). reflexivity.
Qed.

(** Branch 1: an unvisited neighbour exists. *)
Lemma advance_forward :
  ns <> [] ->
  exists a', advance r a cur ns = Some a' /\ running a' /\
    alg_isComplete a' = false /\
    alg_stepCount a' = alg_stepCount a /\
    alg_stack a' = cur :: alg_stack a /\
    visitedCount (alg_maze a') = S (S (visitedCount m)) /\
    coords (alg_maze a') = coords m.
Proof using All.
  intros Hne. pose proof advance_room as Hroom. pose proof (run_carved a Hrun) as Hcv.
  fold m in Hcv. pose proof (cv_wf m Hcv) as Hwf.
  assert (r mod length ns < length ns)%nat as Hlt.
  { apply Nat.mod_upper_bound. destruct ns; [congruence | simpl; lia]. }
  destruct (lookup_lt_is_Some_2 ns _ Hlt) as [next Hnext].
  assert (next ∈ ns) as Hin by (eapply list_elem_of_lookup_2; eauto).
  apply advance_neighbors in Hin as (Hdir & Hvalid & Hunvis).
  destruct (wall_between cur next Hdir) as (Htouch & Hx & Hy).
  set (w := mkCoord (cx cur + (cx next - cx cur) / 2)
                    (cy cur + (cy next - cy cur) / 2)) in *.
  assert (0 <= cx w < width m /\ 0 <= cy w < height m) as Hwv.
  { apply (between_valid cur w next Htouch Hx Hy).
    - apply passage_valid; [exact Hwf | apply Hroom].
    - apply isValidCoordinate_spec, Hvalid. }
  destruct (setCell_of_valid m w (cellState false true false true) Hwf) as [m1 Hset1].
  { apply isValidCoordinate_spec, Hwv. }
  destruct (setCell_dims _ _ _ _ _ Hset1) as [Hw1 Hh1].
  pose proof (setCell_wellFormed _ _ _ _ _ Hset1 Hwf) as Hwf1.
  destruct (setCell_of_valid m1 next (cellState false true false false) Hwf1) as [m2 Hset2].
  { rewrite Hw1, Hh1. exact Hvalid. }
  destruct (carved_carve m cur w next m1 m2 Hcv Hroom Htouch Hx Hy Hvalid Hunvis Hset1 Hset2)
    as (Hcv2 & Hcount2 & Hp2).
  destruct (setCell_dims _ _ _ _ _ Hset2) as [Hw2 Hh2].
  assert (passage m2 cur = true) as Hpc2.
  { rewrite Hp2. destruct (decide (cur = next)); [reflexivity|].
    destruct (decide (cur = w)); [reflexivity | apply Hroom]. }
  destruct (setCell_passage m2 cur (cellState false true false true) Hpc2) as [m3 Hset3].
  destruct (carved_mark m2 cur false true m3 Hcv2 Hpc2 Hset3) as (Hcv3 & Hp3 & Hw3 & Hh3).
  assert (passage m3 next = true) as Hpn3.
  { rewrite Hp3, Hp2. destruct (decide (next = next)); congruence. }
  destruct (setCell_passage m3 next (cellState false true true false) Hpn3) as [m4 Hset4].
  destruct (carved_mark m3 next true false m4 Hcv3 Hpn3 Hset4) as (Hcv4 & Hp4 & Hw4 & Hh4).
  assert (forall q, passage m q = true -> passage m4 q = true) as Hmono.
  { intros q Hq. rewrite Hp4, Hp3, Hp2.
    destruct (decide (q = next)); [reflexivity|].
    destruct (decide (q = w)); [reflexivity | exact Hq]. }
  destruct (between_distinct cur w next Htouch Hx Hy) as (Hnw & Hcw & Hcn).
  eexists. split.
  { unfold advance. destruct ns as [|n0 rest]; [congruence|].
    fold m. rewrite Hnext. simpl. fold w.
    change (cx cur + (cx next - cx cur) / 2) with (cx w).
    change (cy cur + (cy next - cy cur) / 2) with (cy w).
    rewrite Hset1. simpl. rewrite Hset2. simpl. rewrite Hset3. simpl.
    rewrite Hset4. simpl. reflexivity. }
  simpl. split; [|repeat split; auto].
  - split; simpl.
    + exact Hcv4.
    + apply Hrun.
    + exists next. split; [reflexivity|]. split.
      * split; [eapply between_oddCell; eauto; apply Hroom|].
        rewrite Hp4. exact Hpn3.
      * intros p. rewrite Hactive.
        rewrite (isCurrent_setCell _ _ _ _ _ _ _ p Hset4).
        destruct (decide (p = next)) as [->|Hpn].
        { rewrite bool_decide_eq_true_2; reflexivity. }
        rewrite bool_decide_eq_false_2 by exact Hpn.
        rewrite (isCurrent_setCell _ _ _ _ _ _ _ p Hset3).
        destruct (decide (p = cur)); [reflexivity|].
        rewrite (isCurrent_setCell _ _ _ _ _ _ _ p Hset2).
        destruct (decide (p = next)); [reflexivity|].
        rewrite (isCurrent_setCell _ _ _ _ _ _ _ p Hset1).
        destruct (decide (p = w)); [reflexivity|].
        rewrite advance_marker. apply bool_decide_eq_false_2. assumption.
    + constructor; [eapply room_mono; eauto|].
      eapply Forall_impl; [apply (run_stack a Hrun)|].
      intros q Hq. eapply room_mono; eauto.
    + apply Hmono, (run_start a Hrun).
  - rewrite (carved_visitedCount m4 Hcv4), (carved_visitedCount m Hcv).
    rewrite (passageCount_ext m3 m4), (passageCount_ext m2 m3); auto.
  - apply coords_dims; congruence.
Qed.

(** Branch 2: no unvisited neighbour, the stack is not empty. *)
Lemma advance_backtrack top rest :
  ns = [] -> alg_stack a = top :: rest ->
  exists a', advance r a cur ns = Some a' /\ running a' /\
    alg_isComplete a' = false /\
    alg_stepCount a' = alg_stepCount a /\
    alg_stack a' = rest /\
    visitedCount (alg_maze a') = visitedCount m /\
    coords (alg_maze a') = coords m.
Proof using Hrun Hactive Hcur.
  intros Hnil Hstack. clear Hns. subst ns. pose proof advance_room as Hroom.
  pose proof (run_carved a Hrun) as Hcv. fold m in Hcv.
  pose proof (run_stack a Hrun) as Hst. rewrite Hstack in Hst.
  apply Forall_cons in Hst as [Htop Hrest]. fold m in Htop, Hrest.
  destruct (setCell_passage m cur (cellState false true false true)) as [m1 Hset1];
    [apply Hroom|].
  destruct (carved_mark m cur false true m1 Hcv (proj2 Hroom) Hset1)
    as (Hcv1 & Hp1 & Hw1 & Hh1).
  assert (passage m1 top = true) as Hpt by (rewrite Hp1; apply Htop).
  destruct (setCell_passage m1 top (cellState false true true true) Hpt) as [m2 Hset2].
  destruct (carved_mark m1 top true true m2 Hcv1 Hpt Hset2) as (Hcv2 & Hp2 & Hw2 & Hh2).
  assert (forall q, passage m q = true -> passage m2 q = true) as Hmono
    by (intros q Hq; rewrite Hp2, Hp1; exact Hq).
  eexists. split.
  { unfold advance. rewrite Hstack. fold m. rewrite Hset1. simpl. rewrite Hset2.
    simpl. reflexivity. }
  simpl. split; [|repeat split; auto].
  - split; simpl.
    + exact Hcv2.
    + apply Hrun.
    + exists top. split; [reflexivity|]. split; [eapply room_mono; eauto|].
      intros p. rewrite Hactive.
      rewrite (isCurrent_setCell _ _ _ _ _ _ _ p Hset2).
      destruct (decide (p = top)) as [->|Hpt'].
      { rewrite bool_decide_eq_true_2; reflexivity. }
      rewrite bool_decide_eq_false_2 by exact Hpt'.
      rewrite (isCurrent_setCell _ _ _ _ _ _ _ p Hset1).
      destruct (decide (p = cur)); [reflexivity|].
      rewrite advance_marker. apply bool_decide_eq_false_2. assumption.
    + eapply Forall_impl; [exact Hrest|]. intros q Hq. eapply room_mono; eauto.
    + apply Hmono, (run_start a Hrun).
  - rewrite (carved_visitedCount m2 Hcv2), (carved_visitedCount m Hcv).
    rewrite (passageCount_ext m1 m2), (passageCount_ext m m1); auto.
  - apply coords_dims; congruence.
Qed.

(** Branch 3: no unvisited neighbour, empty stack. *)
Lemma advance_finish :
  ns = [] -> alg_stack a = [] ->
  exists a', advance r a cur ns = Some a' /\ running a' /\
    alg_isComplete a' = true /\
    alg_stepCount a' = alg_stepCount a /\
    alg_stack a' = [] /\
    alg_current a' = Some cur /\
    isPath (alg_maze a') cur = true /\
    visitedCount (alg_maze a') = visitedCount m /\
    coords (alg_maze a') = coords m.
Proof using Hrun Hactive Hcur.
  intros Hnil Hstack. clear Hns. subst ns. pose proof advance_room as Hroom.
  pose proof (run_carved a Hrun) as Hcv. fold m in Hcv.
  destruct (setCell_passage m cur (cellState false true false true)) as [m1 Hset1];
    [apply Hroom|].
  destruct (carved_mark m cur false true m1 Hcv (proj2 Hroom) Hset1)
    as (Hcv1 & Hp1 & Hw1 & Hh1).
  eexists. split.
  { unfold advance. rewrite Hstack. fold m. rewrite Hset1. simpl. reflexivity. }
  simpl. split; [|repeat split; auto].
  - split; simpl.
    + exact Hcv1.
    + apply Hrun.
    + exists cur. split; [reflexivity|]. split.
      * eapply room_mono; [|exact Hroom]. intros q Hq. rewrite Hp1. exact Hq.
      * intros p. rewrite (isCurrent_setCell _ _ _ _ _ _ _ p Hset1).
        destruct (decide (p = cur)) as [|Hne]; [reflexivity|].
        rewrite advance_marker. apply bool_decide_eq_false_2. assumption.
    + constructor.
    + rewrite Hp1. apply (run_start a Hrun).
  - unfold isPath. rewrite (cellFlag_setCell _ _ _ _ _ _ _ _ cur Hset1).
    destruct (decide (cur = cur)); [reflexivity | congruence].
  - rewrite (carved_visitedCount m1 Hcv1), (carved_visitedCount m Hcv).
    apply passageCount_ext; auto.
  - apply coords_dims; congruence.
Qed.
End Advance.

Lemma running_stepCount m sz st cur done n n' :
  running (mkAlgorithm m sz st cur done n) -> running (mkAlgorithm m sz st cur done n').
Proof. intros [H1 H2 H3 H4 H5]. split; assumption. Qed.

(** An active running state always has a next state, and the call uses up
    one unit of [workLeft]. *)
Lemma step_active r a :
  running a -> alg_isComplete a = false ->
  exists a', step r a
             = Some (a', mkStepResult (alg_isComplete a') (alg_current a')
                           (Some (alg_stepCount a')) (Some (length (alg_stack a')))) /\
    running a' /\
    alg_stepCount a' = S (alg_stepCount a) /\
    (workLeft a' < workLeft a)%nat /\
    coords (alg_maze a') = coords (alg_maze a).
Proof.
  intros Hrun Hactive.
  destruct (run_current a Hrun) as (cur & Hcur & _ & _).
  destruct (getUnvisitedNeighbors_spec a (cx cur) (cy cur)) as (ns & Hns & _);
    [apply Hrun|].
  assert (exists a1, advance r a cur ns = Some a1 /\ running a1 /\
            alg_stepCount a1 = alg_stepCount a /\
            (workLeft a1 < workLeft a)%nat /\
            coords (alg_maze a1) = coords (alg_maze a)) as (a1 & Hadv & Hrun1 & Hcnt & Hwork & Hco).
  { destruct ns as [|n0 rest] eqn:Hnil.
    - destruct (alg_stack a) as [|top rest] eqn:Hstack.
      + destruct (advance_finish r a cur [] Hrun Hactive Hcur eq_refl Hstack)
          as (a1 & Hadv & Hrun1 & Hdone & Hcnt & Hst & _ & _ & Hvis & Hco).
        exists a1. split; [exact Hadv|]. split; [exact Hrun1|]. split; [exact Hcnt|].
        split; [|exact Hco].
        unfold workLeft. rewrite Hvis, Hco, Hst, Hstack, Hdone, Hactive. simpl. lia.
      + destruct (advance_backtrack r a cur [] Hrun Hactive Hcur top rest eq_refl Hstack)
          as (a1 & Hadv & Hrun1 & Hdone & Hcnt & Hst & Hvis & Hco).
        exists a1. split; [exact Hadv|]. split; [exact Hrun1|]. split; [exact Hcnt|].
        split; [|exact Hco].
        unfold workLeft. rewrite Hvis, Hco, Hst, Hstack, Hdone, Hactive. simpl. lia.
    - destruct (advance_forward r a cur (n0 :: rest) Hrun Hactive Hcur Hns)
        as (a1 & Hadv & Hrun1 & Hdone & Hcnt & Hst & Hvis & Hco); [discriminate|].
      exists a1. split; [exact Hadv|]. split; [exact Hrun1|]. split; [exact Hcnt|].
      split; [|exact Hco].
      pose proof (visitedCount_le (alg_maze a1)) as Hle. rewrite Hvis, Hco in Hle.
      unfold workLeft. rewrite Hvis, Hco, Hst, Hdone, Hactive. simpl. lia. }
  destruct a1 as [m1 sz1 st1 cur1 done1 n1]. simpl in *.
  exists (mkAlgorithm m1 sz1 st1 cur1 done1 (S n1)). split.
  { unfold step. rewrite Hactive, Hcur. simpl. rewrite Hns. simpl. rewrite Hadv. simpl.
    reflexivity. }
  simpl. split; [eapply running_stepCount; eauto|].
  split; [congruence|]. split; [|exact Hco].
  unfold workLeft in *. simpl in *. exact Hwork.
Qed.

(** [initialize()] on a fresh grid that contains the cell (1,1). *)
Lemma initialize_running m :
  fresh m -> 1 < width m -> 1 < height m ->
  exists a0, initialize (newAlgorithm m) = Some a0 /\ running a0 /\
    alg_isComplete a0 = false /\ alg_stepCount a0 = 0%nat /\
    alg_current a0 = Some (mkCoord 1 1) /\ alg_stack a0 = [] /\
    width (alg_maze a0) = width m /\ height (alg_maze a0) = height m /\
    (workLeft a0 <= length (coords m))%nat.
Proof.
  intros [Hwf Hfresh] Hw Hh. set (start := mkCoord 1 1).
  destruct (setCell_of_valid m start (cellState false true true false) Hwf) as [m0 Hset].
  { apply isValidCoordinate_spec. simpl. lia. }
  destruct (setCell_dims _ _ _ _ _ Hset) as [Hw0 Hh0].
  pose proof (setCell_wellFormed _ _ _ _ _ Hset Hwf) as Hwf0.
  assert (forall q, passage m0 q = bool_decide (q = start)) as Hp.
  { intros q. unfold passage. rewrite (cellFlag_setCell _ _ _ _ _ _ _ _ q Hset).
    destruct (decide (q = start)) as [->|Hne];
      [rewrite bool_decide_eq_true_2 by reflexivity; reflexivity
      |rewrite bool_decide_eq_false_2 by assumption; apply Hfresh]. }
  assert (forall q, isVisited m0 q = bool_decide (q = start)) as Hv.
  { intros q. unfold isVisited. rewrite (cellFlag_setCell _ _ _ _ _ _ _ _ q Hset).
    destruct (decide (q = start)) as [->|Hne];
      [rewrite bool_decide_eq_true_2 by reflexivity; reflexivity
      |rewrite bool_decide_eq_false_2 by assumption; apply Hfresh]. }
  assert (start ∈ coords m0) as Hin by (apply elem_of_coords; rewrite Hw0, Hh0; simpl; lia).
  assert (passageCount m0 = 1%nat) as Hcount.
  { unfold passageCount. rewrite countCells_count. apply (count_one _ _ start).
    - apply NoDup_coords.
    - exact Hin.
    - rewrite Hp. apply bool_decide_eq_true_2. reflexivity.
    - intros q _. rewrite Hp. apply bool_decide_eq_true_1. }
  assert (oddCell start) as Hodd by (split; reflexivity).
  assert (carved m0) as Hcv.
  { split.
    - exact Hwf0.
    - intros q. rewrite Hp, Hv. reflexivity.
    - intros q. rewrite Hp. intros Hq. apply bool_decide_eq_true_1 in Hq as ->.
      left. reflexivity.
    - intros p q. rewrite Hp. intros Hq Htouch Hoq.
      apply bool_decide_eq_true_1 in Hq as ->.
      exfalso. exact (oddCells_apart start q Hodd Hoq Htouch).
    - apply (uniquelyConnected_single touching _ start).
      + rewrite Hp. apply bool_decide_eq_true_2. reflexivity.
      + intros q. rewrite Hp. apply bool_decide_eq_true_1.
    - rewrite Hcount. unfold edgeCount. rewrite !countCells_count.
      rewrite !count_zero; [reflexivity| |].
      + intros q _. unfold edgeAlong. rewrite !Hp. apply andb_false_iff.
        destruct (decide (q = start)) as [->|];
          [right | left]; apply bool_decide_eq_false_2; [|assumption].
        rewrite Coord_eq_iff. simpl. lia.
      + intros q _. unfold edgeAlong. rewrite !Hp. apply andb_false_iff.
        destruct (decide (q = start)) as [->|];
          [right | left]; apply bool_decide_eq_false_2; [|assumption].
        rewrite Coord_eq_iff. simpl. lia. }
  eexists. split.
  { unfold initialize, newAlgorithm. simpl.
    pose proof Hset as Hset'. simpl in Hset'. rewrite Hset'. simpl. reflexivity. }
  simpl. split; [|repeat split; auto].
  - split; simpl;
      [exact Hcv | reflexivity | | constructor
      | rewrite Hp; apply bool_decide_eq_true_2; reflexivity].
    exists start. split; [reflexivity|]. split.
    + split; [exact Hodd|]. rewrite Hp. apply bool_decide_eq_true_2. reflexivity.
    + intros p. rewrite (isCurrent_setCell _ _ _ _ _ _ _ p Hset).
      destruct (decide (p = start)) as [->|Hne];
        [rewrite bool_decide_eq_true_2 by reflexivity; reflexivity
        |rewrite bool_decide_eq_false_2 by assumption; apply Hfresh].
  - unfold workLeft. simpl. rewrite (carved_visitedCount m0 Hcv), Hcount.
    rewrite (coords_dims m m0) by assumption.
    assert (0 < length (coords m))%nat; [|lia].
    rewrite <- (coords_dims m m0) by assumption.
    destruct (coords m0); [inversion Hin | simpl; lia].
Qed.

(* ===================================================================== *)
(** * Runs *)
(* ===================================================================== *)

Lemma initialize_inside m a0 :
  wellFormed m -> initialize (newAlgorithm m) = Some a0 -> 1 < width m /\ 1 < height m.
Proof.
  intros Hwf. unfold initialize, newAlgorithm. simpl.
  destruct (setCell m 1 1 _) as [m0|] eqn:Hset; [|discriminate]. intros _.
  destruct (getCell_setCell_same _ _ _ _ _ Hset) as (c & Hc & _).
  assert (is_Some (getCell m 1 1)) as Hsome by eauto.
  apply getCell_wellFormed, isValidCoordinate_spec in Hsome; [lia | exact Hwf].
Qed.

Lemma step_complete r a :
  alg_isComplete a = true ->
  step r a = Some (a, mkStepResult true (alg_current a) None None).
Proof. intros H. unfold step. rewrite H. reflexivity. Qed.

Lemma reachable_running m a : fresh m -> reachable m a -> running a.
Proof.
  intros Hfresh Hreach. induction Hreach as [a0 Hinit|a r a' res Hreach IH Hstep].
  - destruct (initialize_inside m a0 (proj1 Hfresh) Hinit) as [Hw Hh].
    destruct (initialize_running m Hfresh Hw Hh) as (a0' & Hinit' & Hrun & _).
    congruence.
  - destruct (alg_isComplete a) eqn:Hdone.
    + rewrite (step_complete r a Hdone) in Hstep. congruence.
    + destruct (step_active r a IH Hdone) as (a1 & Hstep1 & Hrun1 & _). congruence.
Qed.

Lemma advance_stepCount r a cur ns a1 :
  advance r a cur ns = Some a1 -> alg_stepCount a1 = alg_stepCount a.
Proof.
  unfold advance. intros H.
  destruct ns; [destruct (alg_stack a)|]; simplify_option_eq; reflexivity.
Qed.

Lemma step_stepCount r a a' res :
  alg_isComplete a = false -> step r a = Some (a', res) ->
  alg_stepCount a' = S (alg_stepCount a) /\
  sr_step res = Some (S (alg_stepCount a)) /\
  sr_stackSize res = Some (length (alg_stack a')) /\
  sr_complete res = alg_isComplete a' /\
  sr_current res = alg_current a'.
Proof.
  unfold step. intros ->.
  destruct (alg_current a) as [cur|]; simpl; [|discriminate].
  destruct (getUnvisitedNeighbors a (cx cur) (cy cur)) as [ns|]; simpl; [|discriminate].
  destruct (advance r a cur ns) as [a1|] eqn:Hadv; simpl; [|discriminate].
  intros [= <- <-]. simpl. rewrite (advance_stepCount _ _ _ _ _ Hadv). auto.
Qed.

Section Loop.
Variable rnd : nat -> nat.
Variable a0 : Algorithm.
Variable totalCells : Z.

(** The loop ends for every callback, once the fuel covers [workLeft]. *)
Lemma generateLoop_done {W} (cb : option (Q -> nat -> StepResult -> W -> W)) fuel :
  forall k a w o,
    running a -> stepN rnd k a0 = Some (a, o) -> (workLeft a <= fuel)%nat ->
    exists a' k' w' o',
      generateLoop cb rnd fuel totalCells k a w = Done (a', k', w') /\
      running a' /\ alg_isComplete a' = true /\
      stepN rnd k' a0 = Some (a', o') /\
      coords (alg_maze a') = coords (alg_maze a).
Proof.
  induction fuel as [|fuel IH]; intros k a w o Hrun HstepN Hfuel;
    destruct (alg_isComplete a) eqn:Hdone.
  - exists a, k, w, o. simpl. rewrite Hdone. split_and!; auto.
  - exfalso. unfold workLeft in Hfuel. rewrite Hdone in Hfuel. lia.
  - exists a, k, w, o. simpl. rewrite Hdone. split_and!; auto.
  - destruct (step_active (rnd k) a Hrun Hdone) as (a1 & Hstep & Hrun1 & _ & Hwork & Hco).
    simpl. rewrite Hdone, Hstep.
    edestruct (IH (S k) a1) as (a' & k' & w' & o' & Hloop & Hrun' & Hdone' & HstepN' & Hco').
    + exact Hrun1.
    + simpl. rewrite HstepN. simpl. rewrite Hstep. reflexivity.
    + lia.
    + exists a', k', w', o'. rewrite Hloop. split_and!; auto. congruence.
Qed.

(** With the recording callback, the loop leaves one record per
    iteration. *)
Lemma generateLoop_calls fuel :
  forall k a calls a' k' calls' o,
    stepN rnd k a0 = Some (a, o) ->
    alg_stepCount a = k ->
    length calls = k ->
    (forall i c, calls !! i = Some c -> callOf rnd a0 totalCells i c) ->
    generateLoop (Some recordProgress) rnd fuel totalCells k a calls
      = Done (a', k', calls') ->
    alg_stepCount a' = k' /\
    length calls' = k' /\
    (forall i c, calls' !! i = Some c -> callOf rnd a0 totalCells i c).
Proof.
  induction fuel as [|fuel IH]; intros k a calls a' k' calls' o HstepN Hcnt Hlen Hcalls;
    simpl; destruct (alg_isComplete a) eqn:Hdone; try discriminate.
  - intros [= <- <- <-]. auto.
  - intros [= <- <- <-]. auto.
  - destruct (step (rnd k) a) as [[a1 res]|] eqn:Hstep; [|discriminate].
    destruct (step_stepCount _ _ _ _ Hdone Hstep) as (Hcnt1 & _).
    assert (stepN rnd (S k) a0 = Some (a1, Some res)) as HstepN1.
    { simpl. rewrite HstepN. simpl. rewrite Hstep. reflexivity. }
    apply (IH (S k) a1 _ a' k' calls' (Some res) HstepN1).
    + rewrite Hcnt1, Hcnt; reflexivity.
    + unfold recordProgress. rewrite length_app, Hlen. simpl. lia.
    + intros i c. unfold recordProgress. intros Hlook.
      apply lookup_app_Some in Hlook as [Hlook|[Hge Hlook]]; [auto|].
      rewrite Hlen in *. destruct (i - k)%nat as [|d] eqn:Hd; [|discriminate].
      injection Hlook as <-. assert (i = k) as -> by lia.
      exists a1, res. rewrite Hcnt1, Hcnt. auto.
Qed.
(** Whatever the fuel, a loop that returns has completed the run. *)
Lemma generateLoop_returns {W} (cb : option (Q -> nat -> StepResult -> W -> W)) fuel :
  forall k a w a' k' w',
    running a ->
    generateLoop cb rnd fuel totalCells k a w = Done (a', k', w') ->
    running a' /\ alg_isComplete a' = true.
Proof.
  induction fuel as [|fuel IH]; intros k a w a' k' w' Hrun; simpl;
    destruct (alg_isComplete a) eqn:Hdone; try discriminate.
  - intros [= <- <- <-]. auto.
  - intros [= <- <- <-]. auto.
  - destruct (step_active (rnd k) a Hrun Hdone) as (a1 & Hstep & Hrun1 & _).
    rewrite Hstep. apply IH. exact Hrun1.
Qed.

(** Any callback sees what the recording callback records. *)
Lemma generateLoop_any_callback {W} (cb : Q -> nat -> StepResult -> W -> W) (w0 : W) fuel :
  forall k a calls,
    generateLoop (Some cb) rnd fuel totalCells k a (applyCalls cb w0 calls)
    = match generateLoop (Some recordProgress) rnd fuel totalCells k a calls with
      | Done (a', k', calls') => Done (a', k', applyCalls cb w0 calls')
      | Throws => Throws
      | OutOfFuel => OutOfFuel
      end.
Proof.
  induction fuel as [|fuel IH]; intros k a calls; simpl;
    destruct (alg_isComplete a); try reflexivity.
  destruct (step (rnd k) a) as [[a1 res]|]; [|reflexivity].
  rewrite <- IH. f_equal. unfold applyCalls, recordProgress.
  rewrite foldl_app. reflexivity.
Qed.
End Loop.

(** The grid of untouched cells is fresh. *)
Lemma fresh_blankMaze w h : 0 <= w -> 0 <= h -> fresh (blankMaze w h).
Proof.
  intros Hw Hh. split.
  - unfold wellFormed, blankMaze. simpl. split_and!; auto.
    + apply length_replicate.
    + apply Forall_replicate. apply length_replicate.
  - assert (forall p c, getCell (blankMaze w h) (cx p) (cy p) = Some c -> c = wallCell) as Hcell.
    { intros p c. unfold getCell, blankMaze. simpl.
      destruct ((cx p <? 0) || (cy p <? 0)); [discriminate|].
      destruct (replicate _ _ !! Z.to_nat (cy p)) as [row|] eqn:Hrow; simpl; [|discriminate].
      apply lookup_replicate in Hrow as [-> _].
      intros Hc. apply lookup_replicate in Hc as [-> _]. reflexivity. }
    intros p. unfold passage, isVisited, isCurrent, cellFlag.
    destruct (getCell (blankMaze w h) (cx p) (cy p)) as [c|] eqn:Hc; [|auto].
    apply Hcell in Hc as ->. auto.
Qed.

(* ===================================================================== *)
(** * Properties of the recursive backtracker *)
(* ===================================================================== *)

(** C1.  Take a fresh grid and any sequence of random draws.  Whenever
    [generate] returns, [isComplete] is set and the grid is a perfect maze:
    the visited cells are exactly the passage cells, the start cell is one
    of them, any two of them are joined by one and only one simple path of
    touching passage cells (connected, no cycle), and the passage graph has
    as many edges as there are visited cells, minus one.  And [generate]
    does return as soon as the grid contains the start cell (1,1), that is,
    for width and height above 1 (every odd size from 3 on), within
    [width * height] iterations. *)
Theorem recursive_backtracking_perfect_maze
    {W : Type} (progressCallback : option (Q -> nat -> StepResult -> W -> W))
    (rnd : nat -> nat) (m : Maze) (w : W) (fuel : nat) :
  fresh m ->
  (forall a stats w',
      generate progressCallback rnd fuel (newAlgorithm m) w = Done (a, stats, w') ->
      alg_isComplete a = true /\
      (forall p, isVisited (alg_maze a) p = passage (alg_maze a) p) /\
      isVisited (alg_maze a) (mkCoord 1 1) = true /\
      (forall p q,
          isVisited (alg_maze a) p = true -> isVisited (alg_maze a) q = true ->
          exists l, mazePath (alg_maze a) p q l /\
                    forall l', mazePath (alg_maze a) p q l' -> l' = l) /\
      (edgeCount (alg_maze a) + 1 = visitedCount (alg_maze a))%nat) /\
  (1 < width m -> 1 < height m -> (length (coords m) <= fuel)%nat ->
   exists a stats w',
     generate progressCallback rnd fuel (newAlgorithm m) w = Done (a, stats, w')).
Proof.
  intros Hfresh. split.
  - intros a stats w'. unfold generate.
    destruct (initialize (newAlgorithm m)) as [a0|] eqn:Hinit; [|discriminate].
    destruct (initialize_inside m a0 (proj1 Hfresh) Hinit) as [Hw Hh].
    destruct (initialize_running m Hfresh Hw Hh) as (a0' & Hinit' & Hrun0 & _).
    rewrite Hinit in Hinit'. injection Hinit' as <-.
    destruct (generateLoop _ rnd fuel _ 0%nat a0 w) as [[[a' k] w'']| |] eqn:Hloop;
      try discriminate.
    intros [= <- _ _].
    destruct (generateLoop_returns rnd _ _ fuel _ _ _ _ _ _ Hrun0 Hloop) as [Hrun Hdone].
    pose proof (run_carved a' Hrun) as Hcv.
    pose proof (cv_visited _ Hcv) as Hvis.
    split; [exact Hdone|]. split; [exact Hvis|].
    split; [rewrite Hvis; apply (run_start a' Hrun)|].
    split; [|rewrite (carved_visitedCount _ Hcv); apply (cv_edges _ Hcv)].
    intros p q. rewrite !Hvis. apply (cv_perfect _ Hcv).
  - intros Hw Hh Hfuel.
    destruct (initialize_running m Hfresh Hw Hh)
      as (a0 & Hinit & Hrun0 & _ & _ & _ & _ & _ & _ & Hwork).
    destruct (generateLoop_done rnd a0 (totalCellsOf (alg_maze a0)) progressCallback fuel
                0%nat a0 w None Hrun0 eq_refl) as (a & k & w' & o & Hloop & _); [lia|].
    exists a, (mkStats "recursive" (alg_stepCount a) k), w'.
    unfold generate. rewrite Hinit, Hloop. reflexivity.
Qed.

Lemma recursive_backtracking_perfect_maze_witness :
  (forall a stats w',
      generate None (fun _ => 0%nat) 25 (newAlgorithm (blankMaze 5 5)) tt
        = Done (a, stats, w') ->
      alg_isComplete a = true /\
      (forall p, isVisited (alg_maze a) p = passage (alg_maze a) p) /\
      isVisited (alg_maze a) (mkCoord 1 1) = true /\
      (forall p q,
          isVisited (alg_maze a) p = true -> isVisited (alg_maze a) q = true ->
          exists l, mazePath (alg_maze a) p q l /\
                    forall l', mazePath (alg_maze a) p q l' -> l' = l) /\
      (edgeCount (alg_maze a) + 1 = visitedCount (alg_maze a))%nat) /\
  exists a stats w',
    generate None (fun _ => 0%nat) 25 (newAlgorithm (blankMaze 5 5)) tt
      = Done (a, stats, w').
Proof.
  destruct (recursive_backtracking_perfect_maze None (fun _ => 0%nat) (blankMaze 5 5) tt 25)
    as [Hsafe Hlive].
  - apply fresh_blankMaze; lia.
  - split; [exact Hsafe|]. apply Hlive.
    + simpl. lia.
    + simpl. lia.
    + vm_compute. lia.
Defined.

Example generate_5x5 :
  match generate None (fun _ => 0%nat) 25 (newAlgorithm (blankMaze 5 5)) tt with
  | Done (a, stats, _) =>
      Some (stats_steps stats, visitedCount (alg_maze a), edgeCount (alg_maze a),
            map (map c_wall) (grid (alg_maze a)))
  | _ => None
  end
  = Some (7%nat, 7%nat, 6%nat,
          [ [true; true; true; true; true];
            [true; false; false; false; true];
            [true; true; true; false; true];
            [true; false; false; false; true];
            [true; true; true; true; true] ]).
Proof. reflexivity. Qed.

(** C2.  In every state a run on a fresh grid reaches (after [initialize()]
    and after each call of [step()]), exactly one cell of the grid is marked
    current while [isComplete] is false, and none once it is true. *)
Theorem exactly_one_current_cell (m : Maze) (a : Algorithm) :
  fresh m -> reachable m a ->
  currentCount (alg_maze a) = (if alg_isComplete a then 0 else 1)%nat.
Proof.
  intros Hfresh Hreach. pose proof (reachable_running m a Hfresh Hreach) as Hrun.
  destruct (run_current a Hrun) as (cur & _ & [_ Hpass] & Hmark).
  unfold currentCount, countCells. destruct (alg_isComplete a).
  - apply count_zero. intros p _. apply Hmark.
  - apply (count_one _ _ cur).
    + apply NoDup_coords.
    + apply elem_of_coords, (passage_valid _ _ (cv_wf _ (run_carved a Hrun)) Hpass).
    + rewrite Hmark. apply bool_decide_eq_true_2. reflexivity.
    + intros p _. rewrite Hmark. apply bool_decide_eq_true_1.
Qed.

Lemma exactly_one_current_cell_witness :
  match initialize (newAlgorithm (blankMaze 5 5)) with
  | Some a0 => currentCount (alg_maze a0) = (if alg_isComplete a0 then 0 else 1)%nat
  | None => False
  end.
Proof.
  destruct (initialize (newAlgorithm (blankMaze 5 5))) as [a0|] eqn:Hinit.
  - apply (exactly_one_current_cell (blankMaze 5 5) a0).
    + apply fresh_blankMaze; lia.
    + apply reach_initialize. exact Hinit.
  - vm_compute in Hinit. discriminate.
Defined.

(** C3.  Once [isComplete] is true, a call of [step()] returns
    [{complete: true, current}] with the current cell it found and leaves
    the algorithm object, grid included, exactly as it was; so does every
    further call, whatever the number of calls. *)
Theorem step_after_completion (a : Algorithm) :
  alg_isComplete a = true ->
  (forall r, step r a = Some (a, mkStepResult true (alg_current a) None None)) /\
  (forall rnd n,
      stepN rnd (S n) a = Some (a, Some (mkStepResult true (alg_current a) None None))).
Proof.
  intros Hdone. split; [intros r; apply step_complete, Hdone|].
  intros rnd n.
  assert (forall k, exists o, stepN rnd k a = Some (a, o)) as Hstay.
  { induction k as [|k [o IH]]; [exists None; reflexivity|].
    eexists. simpl. rewrite IH. simpl. rewrite (step_complete _ _ Hdone). reflexivity. }
  destruct (Hstay n) as [o Hn]. simpl. rewrite Hn. simpl.
  rewrite (step_complete _ _ Hdone). reflexivity.
Qed.

Lemma step_after_completion_witness :
  (forall r, step r completed3
             = Some (completed3, mkStepResult true (Some (mkCoord 1 1)) None None)) /\
  (forall rnd n,
      stepN rnd (S n) completed3
      = Some (completed3, Some (mkStepResult true (Some (mkCoord 1 1)) None None))).
Proof. apply (step_after_completion completed3). reflexivity. Defined.

Example generate_3x3 :
  generate None (fun _ => 0%nat) 9 (newAlgorithm (blankMaze 3 3)) tt
  = Done (completed3, mkStats "recursive" 1 1, tt).
Proof. reflexivity. Qed.

(** C4, as stated, fails: on a 5x5 grid the cells (3,1) and (1,3) lie inside
    the grid and are unvisited, so the first call of [step()] moves to one
    of them and does not complete the run. *)
Lemma step_5x5_first_call_not_complete :
  (a0 ← initialize (newAlgorithm (blankMaze 5 5));
   ns ← getUnvisitedNeighbors a0 1 1;
   '(a1, res) ← step 0 a0;
   Some (ns, alg_isComplete a1, sr_complete res, sr_current res))
  = Some ([mkCoord 3 1; mkCoord 1 3], false, false, Some (mkCoord 3 1)).
Proof. reflexivity. Qed.

(** C4, amended.  On a fresh 3x3 grid (the odd size with a single room) a
    run started at (1,1) terminates in exactly one call of [step()]: no
    candidate neighbour lies within the grid, and that first call marks the
    start cell as path and sets [isComplete]. *)
Theorem step_3x3_completes_at_once (m : Maze) (r : nat) :
  fresh m -> width m = 3 -> height m = 3 ->
  exists a0 a1 res,
    initialize (newAlgorithm m) = Some a0 /\
    getUnvisitedNeighbors a0 1 1 = Some [] /\
    step r a0 = Some (a1, res) /\
    alg_isComplete a0 = false /\
    alg_isComplete a1 = true /\ sr_complete res = true /\
    alg_stepCount a1 = 1%nat /\
    alg_current a1 = Some (mkCoord 1 1) /\
    isPath (alg_maze a1) (mkCoord 1 1) = true.
Proof.
  intros Hfresh Hw Hh.
  destruct (initialize_running m Hfresh ltac:(lia) ltac:(lia))
    as (a0 & Hinit & Hrun0 & Hactive & Hcnt0 & Hcur0 & Hst0 & Hw0 & Hh0 & _).
  destruct (getUnvisitedNeighbors_spec a0 1 1) as (ns & Hns & Hspec); [apply Hrun0|].
  assert (ns = []) as ->.
  { destruct ns as [|n rest]; [reflexivity|]. exfalso.
    destruct (proj1 (Hspec n) ltac:(left)) as (Hdir & Hvalid & _).
    rewrite (run_stepSize a0 Hrun0), Hw0, Hh0, Hw, Hh in *.
    apply isValidCoordinate_spec in Hvalid.
    unfold directions, defaultStepSize in Hdir.
    rewrite !elem_of_cons, elem_of_nil in Hdir.
    destruct Hdir as [->|[->|[->|[->|[]]]]]; simpl in Hvalid; lia. }
  destruct (advance_finish r a0 (mkCoord 1 1) [] Hrun0 Hactive Hcur0 eq_refl Hst0)
    as (a1 & Hadv & _ & Hdone1 & Hcnt1 & _ & Hcur1 & Hpath & _).
  destruct a1 as [m1 sz1 st1 cur1 done1 n1]. simpl in *. subst.
  eexists a0, _, _. split; [exact Hinit|]. split; [exact Hns|]. split.
  { unfold step. rewrite Hactive, Hcur0. simpl. rewrite Hns. simpl. rewrite Hadv. simpl.
    reflexivity. }
  simpl. rewrite Hcnt0. auto 10.
Qed.

Lemma step_3x3_completes_at_once_witness :
  exists a0 a1 res,
    initialize (newAlgorithm (blankMaze 3 3)) = Some a0 /\
    getUnvisitedNeighbors a0 1 1 = Some [] /\
    step 0 a0 = Some (a1, res) /\
    alg_isComplete a0 = false /\
    alg_isComplete a1 = true /\ sr_complete res = true /\
    alg_stepCount a1 = 1%nat /\
    alg_current a1 = Some (mkCoord 1 1) /\
    isPath (alg_maze a1) (mkCoord 1 1) = true.
Proof.
  apply (step_3x3_completes_at_once (blankMaze 3 3) 0).
  - apply fresh_blankMaze; lia.
  - reflexivity.
  - reflexivity.
Defined.

(** C5, as stated, fails: the object a call of [step()] returns after
    completion has the keys [complete] and [current] only. *)
Lemma completed_step_has_two_fields :
  step 0 completed3 = Some (completed3, mkStepResult true (Some (mkCoord 1 1)) None None).
Proof. reflexivity. Qed.

(** C5, amended.  In every state of a run on a fresh grid a call of
    [step()] returns an object.  A call made while the run is not complete
    returns the four keys [complete], [current], [step] (the step count
    after the call, one more than before) and [stackSize]; a call made after
    completion returns [{complete: true, current}] only. *)
Theorem step_result_fields (r : nat) (a : Algorithm) :
  (forall m, fresh m -> reachable m a -> exists a' res, step r a = Some (a', res)) /\
  (alg_isComplete a = false ->
   forall a' res, step r a = Some (a', res) ->
     res = mkStepResult (alg_isComplete a') (alg_current a')
             (Some (alg_stepCount a')) (Some (length (alg_stack a'))) /\
     alg_stepCount a' = S (alg_stepCount a)) /\
  (alg_isComplete a = true ->
   step r a = Some (a, mkStepResult true (alg_current a) None None)).
Proof.
  split; [|split].
  - intros m Hfresh Hreach. pose proof (reachable_running m a Hfresh Hreach) as Hrun.
    destruct (alg_isComplete a) eqn:Hdone.
    + rewrite (step_complete _ _ Hdone). eauto.
    + destruct (step_active r a Hrun Hdone) as (a' & Hstep & _). eauto.
  - intros Hactive a' res Hstep.
    destruct (step_stepCount _ _ _ _ Hactive Hstep) as (H1 & H2 & H3 & H4 & H5).
    split; [|exact H1]. destruct res as [c cur st sz]. simpl in *.
    rewrite H1. congruence.
  - apply step_complete.
Qed.

Example initialize_3x3 : initialize (newAlgorithm (blankMaze 3 3)) = Some initialized3.
Proof. reflexivity. Qed.

Lemma step_result_fields_witness :
  mkStepResult true (Some (mkCoord 1 1)) (Some 1%nat) (Some 0%nat)
  = mkStepResult (alg_isComplete completed3) (alg_current completed3)
      (Some (alg_stepCount completed3)) (Some (length (alg_stack completed3))) /\
  alg_stepCount completed3 = S (alg_stepCount initialized3).
Proof.
  apply (proj1 (proj2 (step_result_fields 0 initialized3))).
  - reflexivity.
  - reflexivity.
Defined.

(** C6.  [isValidCoordinate] is the bounds check, and on a rectangular grid
    [getUnvisitedNeighbors] returns (it does not throw) exactly those of the
    four candidates that are within bounds and not visited: a candidate out
    of bounds is left out. *)
Theorem neighbors_within_bounds (a : Algorithm) (x y : Z) :
  wellFormed (alg_maze a) ->
  (forall x' y' w h,
      isValidCoordinate x' y' w h = true <-> 0 <= x' < w /\ 0 <= y' < h) /\
  exists ns,
    getUnvisitedNeighbors a x y = Some ns /\
    (forall n, n ∈ ns ->
       0 <= cx n < width (alg_maze a) /\ 0 <= cy n < height (alg_maze a)) /\
    (forall n, n ∈ ns <->
       n ∈ directions x y (alg_stepSize a) /\
       isValidCoordinate (cx n) (cy n) (width (alg_maze a)) (height (alg_maze a)) = true /\
       isVisited (alg_maze a) n = false).
Proof.
  intros Hwf. split; [intros; apply isValidCoordinate_spec|].
  destruct (getUnvisitedNeighbors_spec a x y Hwf) as (ns & Hns & Hspec).
  exists ns. split; [exact Hns|]. split; [|exact Hspec].
  intros n Hn. apply Hspec in Hn as (_ & Hvalid & _).
  apply isValidCoordinate_spec, Hvalid.
Qed.

Lemma neighbors_within_bounds_witness :
  (forall x' y' w h,
      isValidCoordinate x' y' w h = true <-> 0 <= x' < w /\ 0 <= y' < h) /\
  exists ns,
    getUnvisitedNeighbors (newAlgorithm (blankMaze 5 5)) 3 1 = Some ns /\
    (forall n, n ∈ ns -> 0 <= cx n < 5 /\ 0 <= cy n < 5) /\
    (forall n, n ∈ ns <->
       n ∈ directions 3 1 2 /\
       isValidCoordinate (cx n) (cy n) 5 5 = true /\
       isVisited (blankMaze 5 5) n = false).
Proof.
  apply (neighbors_within_bounds (newAlgorithm (blankMaze 5 5)) 3 1).
  apply fresh_blankMaze; lia.
Defined.

Example getUnvisitedNeighbors_corner :
  getUnvisitedNeighbors (newAlgorithm (blankMaze 5 5)) 3 1
  = Some [mkCoord 3 3; mkCoord 1 1].
Proof. reflexivity. Qed.

Lemma initialize_dims a a0 :
  initialize a = Some a0 ->
  width (alg_maze a0) = width (alg_maze a) /\ height (alg_maze a0) = height (alg_maze a) /\
  alg_stepCount a0 = 0%nat.
Proof.
  unfold initialize. simpl.
  destruct (setCell (alg_maze a) 1 1 _) as [m0|] eqn:Hset; [|discriminate].
  intros [= <-]. simpl. destruct (setCell_dims _ _ _ _ _ Hset). auto.
Qed.

(** The invocations of the progress callback during a run of [generate]
    that returns. *)
Lemma generate_calls {W : Type} (cb : Q -> nat -> StepResult -> W -> W)
    (rnd : nat -> nat) (m : Maze) (fuel : nat) (w0 : W) a stats w' :
  generate (Some cb) rnd fuel (newAlgorithm m) w0 = Done (a, stats, w') ->
  exists a0 calls,
    initialize (newAlgorithm m) = Some a0 /\
    w' = applyCalls cb w0 calls /\
    stats_steps stats = stats_cellsProcessed stats /\
    length calls = stats_cellsProcessed stats /\
    (forall i c, calls !! i = Some c ->
       callOf rnd a0 ((width m * height m) / 4) i c).
Proof.
  unfold generate.
  destruct (initialize (newAlgorithm m)) as [a0|] eqn:Hinit; [|discriminate].
  destruct (initialize_dims _ _ Hinit) as (Hw0 & Hh0 & Hcnt0). simpl in Hw0, Hh0.
  change w0 with (applyCalls cb w0 []) at 1.
  rewrite (generateLoop_any_callback rnd (totalCellsOf (alg_maze a0)) cb w0 fuel 0%nat a0 []).
  destruct (generateLoop (Some recordProgress) rnd fuel _ 0%nat a0 [])
    as [[[a' k] calls]| |] eqn:Hloop; try discriminate.
  intros [= <- <- <-].
  destruct (generateLoop_calls rnd a0 (totalCellsOf (alg_maze a0)) fuel 0%nat a0 [] a' k calls
              None eq_refl Hcnt0 eq_refl) as (Hcnt & Hlen & Hcalls); [|exact Hloop|].
  { intros i c Hlook. rewrite lookup_nil in Hlook. discriminate. }
  exists a0, calls. simpl. split_and!; auto.
  unfold totalCellsOf in Hcalls. rewrite Hw0, Hh0 in Hcalls. exact Hcalls.
Qed.

(** The iterations of the loop are the calls of [step()] that lead from
    the state [initialize()] left to the first complete state. *)
Lemma generateLoop_trace {W} (cb : option (Q -> nat -> StepResult -> W -> W))
    rnd a0 totalCells fuel :
  forall k a w a' k' w' o,
    stepN rnd k a0 = Some (a, o) ->
    (forall i, (i < k)%nat ->
       exists ai oi, stepN rnd i a0 = Some (ai, oi) /\ alg_isComplete ai = false) ->
    generateLoop cb rnd fuel totalCells k a w = Done (a', k', w') ->
    (k <= k')%nat /\ alg_isComplete a' = true /\
    (exists o', stepN rnd k' a0 = Some (a', o')) /\
    (forall i, (i < k')%nat ->
       exists ai oi, stepN rnd i a0 = Some (ai, oi) /\ alg_isComplete ai = false).
Proof.
  induction fuel as [|fuel IH]; intros k a w a' k' w' o HstepN Hbefore; simpl;
    destruct (alg_isComplete a) eqn:Hdone; try discriminate.
  - intros [= <- <- <-]. split_and!; eauto.
  - intros [= <- <- <-]. split_and!; eauto.
  - destruct (step (rnd k) a) as [[a1 res]|] eqn:Hstep; [|discriminate].
    intros Hloop.
    assert (stepN rnd (S k) a0 = Some (a1, Some res)) as HstepN1
      by (simpl; rewrite HstepN; simpl; rewrite Hstep; reflexivity).
    assert (forall i, (i < S k)%nat ->
              exists ai oi, stepN rnd i a0 = Some (ai, oi) /\ alg_isComplete ai = false)
      as Hbefore1.
    { intros i Hi. destruct (decide (i = k)) as [->|Hne]; [eauto|]. apply Hbefore. lia. }
    destruct (IH _ _ _ _ _ _ _ HstepN1 Hbefore1 Hloop) as (Hle & Hdone' & Hlast & Hall).
    split_and!; auto. lia.
Qed.

Lemma stepN_S_result rnd n a0 a o :
  stepN rnd (S n) a0 = Some (a, o) -> exists res, o = Some res.
Proof.
  simpl. destruct (stepN rnd n a0) as [[a1 o1]|]; simpl; [|discriminate].
  destruct (step (rnd n) a1) as [[a2 res]|]; simpl; [|discriminate].
  intros [= _ <-]. eauto.
Qed.

(** C7.  During a run of [generate] with a progress callback on a
    rectangular grid, the callback is invoked once per iteration of the
    loop, and the iterations are the calls of [step()] the run consists
    of.  When [generate] returns, what the callback has done is what it
    does on a list of invocations such that: the list has one entry for
    every call of [step()] made from the state [initialize()] left up to
    the first complete state, which is the state [generate] ends in (so
    there is at least one entry, and no state before the last was
    complete); and the entry of iteration [i + 1] holds the result of the
    [(i+1)]-th call of [step()], the step count after that call, and the
    percentage [(i + 1) / floor(width * height / 4) * 100] (whose divisor
    is not 0).  And [generate] does return, for every callback, on a fresh
    grid that contains the start cell, within [width * height]
    iterations. *)
Theorem progress_callback_once_per_step
    {W : Type} (progressCallback : Q -> nat -> StepResult -> W -> W)
    (rnd : nat -> nat) (m : Maze) (fuel : nat) (w0 : W) :
  wellFormed m ->
  (forall a stats w',
     generate (Some progressCallback) rnd fuel (newAlgorithm m) w0 = Done (a, stats, w') ->
     0 < (width m * height m) / 4 /\
     exists a0 calls,
       initialize (newAlgorithm m) = Some a0 /\
       w' = applyCalls progressCallback w0 calls /\
       length calls = stats_cellsProcessed stats /\
       (0 < length calls)%nat /\
       alg_isComplete a = true /\
       (exists res, stepN rnd (length calls) a0 = Some (a, Some res)) /\
       (forall i, (i < length calls)%nat ->
          exists ai oi, stepN rnd i a0 = Some (ai, oi) /\ alg_isComplete ai = false) /\
       forall i c, calls !! i = Some c ->
         exists ai ri,
           stepN rnd (S i) a0 = Some (ai, Some ri) /\
           pc_result c = ri /\
           pc_stepCount c = alg_stepCount ai /\
           pc_percentage c
           = (inject_Z (Z.of_nat (S i)) / inject_Z ((width m * height m) / 4)
              * inject_Z 100)%Q) /\
  (fresh m -> 1 < width m -> 1 < height m -> (length (coords m) <= fuel)%nat ->
   exists a stats w',
     generate (Some progressCallback) rnd fuel (newAlgorithm m) w0 = Done (a, stats, w')).
Proof.
  intros Hwf. split.
  - intros a stats w' Hgen.
    destruct (generate_calls _ _ _ _ _ _ _ _ Hgen)
      as (a0 & calls & Hinit & Hw' & _ & Hlen & Hcalls).
    split.
    { destruct (initialize_inside m a0 Hwf Hinit) as [Hw Hh].
      apply Z.div_str_pos. nia. }
    exists a0, calls. split; [exact Hinit|]. split; [exact Hw'|]. split; [exact Hlen|].
    assert (alg_isComplete a0 = false) as Hactive0.
    { unfold initialize in Hinit.
      destruct (setCell _ _ _ _) as [m0|]; simpl in Hinit; [|discriminate].
      injection Hinit as <-. reflexivity. }
    unfold generate in Hgen. rewrite Hinit in Hgen.
    destruct (generateLoop _ rnd fuel _ 0%nat a0 w0) as [[[a' k] w'']| |] eqn:Hloop;
      try discriminate.
    injection Hgen as <- <- <-. simpl in Hlen.
    assert (forall i, (i < 0)%nat ->
              exists ai oi, stepN rnd i a0 = Some (ai, oi) /\ alg_isComplete ai = false)
      as Hnone by (intros i Hi; lia).
    destruct (generateLoop_trace (Some progressCallback) rnd a0
                (totalCellsOf (alg_maze a0)) fuel 0%nat a0 w0 a' k w'' None
                eq_refl Hnone Hloop) as (_ & Hdone & [o' Hlast] & Hall).
    rewrite Hlen.
    destruct k as [|n].
    { simpl in Hlast. injection Hlast as <- _. congruence. }
    destruct (stepN_S_result _ _ _ _ _ Hlast) as [res ->].
    split; [lia|]. split; [exact Hdone|]. split; [eauto|]. split; [exact Hall|].
    intros i c Hlook. destruct (Hcalls i c Hlook) as (ai & ri & HstepN & -> & _).
    exists ai, ri. auto.
  - intros Hfresh Hw Hh Hfuel.
    destruct (initialize_running m Hfresh Hw Hh)
      as (a0 & Hinit & Hrun0 & _ & _ & _ & _ & _ & _ & Hwork).
    destruct (generateLoop_done rnd a0 (totalCellsOf (alg_maze a0)) (Some progressCallback)
                fuel 0%nat a0 w0 None Hrun0 eq_refl) as (a & k & w' & o & Hloop & _); [lia|].
    exists a, (mkStats "recursive" (alg_stepCount a) k), w'.
    unfold generate. rewrite Hinit, Hloop. reflexivity.
Qed.

Lemma progress_callback_once_per_step_witness :
  (forall a stats w',
     generate (Some recordProgress) (fun _ => 0%nat) 25 (newAlgorithm (blankMaze 5 5)) []
     = Done (a, stats, w') ->
     0 < (5 * 5) / 4 /\
     exists a0 calls,
       initialize (newAlgorithm (blankMaze 5 5)) = Some a0 /\
       w' = applyCalls recordProgress [] calls /\
       length calls = stats_cellsProcessed stats /\
       (0 < length calls)%nat /\
       alg_isComplete a = true /\
       (exists res, stepN (fun _ => 0%nat) (length calls) a0 = Some (a, Some res)) /\
       (forall i, (i < length calls)%nat ->
          exists ai oi,
            stepN (fun _ => 0%nat) i a0 = Some (ai, oi) /\ alg_isComplete ai = false) /\
       forall i c, calls !! i = Some c ->
         exists ai ri,
           stepN (fun _ => 0%nat) (S i) a0 = Some (ai, Some ri) /\
           pc_result c = ri /\
           pc_stepCount c = alg_stepCount ai /\
           pc_percentage c
           = (inject_Z (Z.of_nat (S i)) / inject_Z ((5 * 5) / 4) * inject_Z 100)%Q) /\
  exists a stats w',
    generate (Some recordProgress) (fun _ => 0%nat) 25 (newAlgorithm (blankMaze 5 5)) []
    = Done (a, stats, w').
Proof.
  destruct (progress_callback_once_per_step recordProgress (fun _ => 0%nat) (blankMaze 5 5)
              25 []) as [Hcalls Hreturns].
  - apply fresh_blankMaze; lia.
  - split; [exact Hcalls|]. apply Hreturns.
    + apply fresh_blankMaze; lia.
    + simpl. lia.
    + simpl. lia.
    + vm_compute. lia.
Defined.

Example generate_5x5_percentages :
  match generate (Some recordProgress) (fun _ => 0%nat) 25 (newAlgorithm (blankMaze 5 5)) [] with
  | Done (_, stats, calls) =>
      Some (stats_steps stats, map (fun c => (Qred (pc_percentage c), pc_stepCount c)) calls)
  | _ => None
  end
  = Some (7%nat,
          [ (50 # 3, 1%nat); (100 # 3, 2%nat); (50 # 1, 3%nat); (200 # 3, 4%nat);
            (250 # 3, 5%nat); (100 # 1, 6%nat); (350 # 3, 7%nat) ])%Q.
Proof. reflexivity. Qed.

(** C8.  A call of [step()] on a run that is not complete increases
    [stepCount] by exactly one; hence, within a run of [generate], the
    invocations of the progress callback carry the step counts 1, 2, 3, ...
    in this order: strictly increasing. *)
Theorem progress_stepCount_increasing
    {W : Type} (progressCallback : Q -> nat -> StepResult -> W -> W)
    (rnd : nat -> nat) (m : Maze) (fuel : nat) (w0 : W)
    (a : Algorithm) (stats : Stats) (w' : W) :
  generate (Some progressCallback) rnd fuel (newAlgorithm m) w0 = Done (a, stats, w') ->
  (forall r a1 a2 res,
      alg_isComplete a1 = false -> step r a1 = Some (a2, res) ->
      alg_stepCount a2 = S (alg_stepCount a1)) /\
  exists calls,
    w' = applyCalls progressCallback w0 calls /\
    (forall i c, calls !! i = Some c -> pc_stepCount c = S i) /\
    (forall i j ci cj,
        calls !! i = Some ci -> calls !! j = Some cj -> (i < j)%nat ->
        (pc_stepCount ci < pc_stepCount cj)%nat).
Proof.
  intros Hgen. split.
  { intros r a1 a2 res Hactive Hstep. apply (step_stepCount _ _ _ _ Hactive Hstep). }
  destruct (generate_calls _ _ _ _ _ _ _ _ Hgen)
    as (a0 & calls & _ & Hw' & _ & _ & Hcalls).
  assert (forall i c, calls !! i = Some c -> pc_stepCount c = S i) as Hcount.
  { intros i c Hlook. destruct (Hcalls i c Hlook) as (ai & ri & _ & -> & Hcnt). exact Hcnt. }
  exists calls. split_and!; auto.
  intros i j ci cj Hi Hj Hlt. rewrite (Hcount i ci Hi), (Hcount j cj Hj). lia.
Qed.

Lemma progress_stepCount_increasing_witness :
  match generate (Some recordProgress) (fun k => k) 35 (newAlgorithm (blankMaze 7 5)) []
  with
  | Done (a, stats, w') =>
      (forall r a1 a2 res,
          alg_isComplete a1 = false -> step r a1 = Some (a2, res) ->
          alg_stepCount a2 = S (alg_stepCount a1)) /\
      exists calls,
        w' = applyCalls recordProgress [] calls /\
        (forall i c, calls !! i = Some c -> pc_stepCount c = S i) /\
        (forall i j ci cj,
            calls !! i = Some ci -> calls !! j = Some cj -> (i < j)%nat ->
            (pc_stepCount ci < pc_stepCount cj)%nat)
  | _ => False
  end.
Proof.
  destruct (generate (Some recordProgress) (fun k => k) 35 (newAlgorithm (blankMaze 7 5)) [])
    as [[[a stats] w']| |] eqn:Hgen.
  - exact (progress_stepCount_increasing recordProgress (fun k => k) (blankMaze 7 5)
             35 [] a stats w' Hgen).
  - vm_compute in Hgen. discriminate.
  - vm_compute in Hgen. discriminate.
Defined.

(* ===================================================================== *)
(** * The configuration after the scene has fitted its camera *)
(* ===================================================================== *)

(** The freeze does protect the properties of [window.MazeConfig] itself. *)
Example frozen_top_level :
  setField configHeap MazeConfig_ref "threeD" (num 0) = None.
Proof. reflexivity. Qed.

(** The scene's [this.config] is the very object [window.MazeConfig.threeD]. *)
Example scene_shares_threeD :
  sc_config <$> sampleScene = Some threeD_ref.
Proof. reflexivity. Qed.

(** C9 does not hold of the code.  [Object.freeze] leaves the nested object
    [window.MazeConfig.threeD] writable, the scene keeps a reference to that
    object in [this.config], and [fitCameraToMaze()] assigns to its
    [cameraDistance]: with a 31x31 maze the configuration value
    [threeD.cameraDistance] goes from 50 to 31 * 4 * 0.8 = 99.2. *)
Theorem fitCameraToMaze_overwrites_configuration :
  configValue configHeap MazeConfig_ref ["threeD"; "cameraDistance"] = Some (num 50) /\
  (sc ← sampleScene;
   '(h', _) ← fitCameraToMaze configHeap sc;
   configValue h' MazeConfig_ref ["threeD"; "cameraDistance"])
  = Some (VNum (496 # 5)).
Proof. split; vm_compute; reflexivity. Qed.

(* ===================================================================== *)
(** * EventBus.emit *)
(* ===================================================================== *)

(** The chain of [on] calls that builds the sample bus. *)
Example sampleBus_subscriptions :
  (bus1 ← on "e" 1 None "id1" (mkEventBus ∅ false);
   bus2 ← on "e" 2 (Some 9%nat) "id2" bus1;
   on "e" 3 None "id3" bus2)
  = Some sampleBus.
Proof. vm_compute. reflexivity. Qed.

(** What [this.events[event]] is, in terms of the object's own and
    inherited properties. *)
Lemma getProperty_Own bus event listeners :
  getProperty bus event = Own listeners <-> events bus !! event = Some listeners.
Proof.
  unfold getProperty. destruct (events bus !! event) as [ls|].
  - split; intros [= ->]; reflexivity.
  - destruct (objectPrototype !! event); split; discriminate.
Qed.

Lemma getProperty_Inherited bus event length :
  getProperty bus event = Inherited length <->
  events bus !! event = None /\ objectPrototype !! event = Some length.
Proof.
  unfold getProperty. destruct (events bus !! event) as [ls|].
  - split; [discriminate | intros [? _]; discriminate].
  - destruct (objectPrototype !! event) as [n|].
    + split; [intros [= ->]; auto | intros [_ [= ->]]; reflexivity].
    + split; [discriminate | intros [_ ?]; discriminate].
Qed.

Lemma getProperty_Undefined bus event :
  getProperty bus event = Undefined <->
  events bus !! event = None /\ objectPrototype !! event = None.
Proof.
  unfold getProperty. destruct (events bus !! event) as [ls|].
  - split; [discriminate | intros [? _]; discriminate].
  - destruct (objectPrototype !! event) as [n|].
    + split; [discriminate | intros [_ ?]; discriminate].
    + split; auto.
Qed.

Lemma on_throws event callback context id bus :
  on event callback context id bus = None <->
  exists length, getProperty bus event = Inherited length.
Proof.
  unfold on. destruct (getProperty bus event); split;
    try discriminate; eauto; intros [? ?]; discriminate.
Qed.

Lemma off_throws event callback bus :
  off event callback bus = None <->
  exists length, getProperty bus event = Inherited length.
Proof.
  unfold off. destruct (getProperty bus event); split;
    try discriminate; eauto; intros [? ?]; discriminate.
Qed.

(** The listeners of an event after [on]: the new one behind the others. *)
Lemma on_listeners event callback context id bus bus' :
  on event callback context id bus = Some bus' ->
  events bus' !! event
  = Some (default [] (events bus !! event) ++ [mkListener callback context id]) /\
  debugMode bus' = debugMode bus /\
  forall e, e <> event -> events bus' !! e = events bus !! e.
Proof.
  unfold on. destruct (getProperty bus event) as [listeners| |] eqn:Hprop;
    [| discriminate |]; intros [= <-]; simpl.
  - apply getProperty_Own in Hprop. rewrite Hprop, lookup_insert_eq.
    split_and!; auto. intros e He. apply lookup_insert_ne. congruence.
  - apply getProperty_Undefined in Hprop as [-> _]. rewrite lookup_insert_eq.
    split_and!; auto. intros e He. apply lookup_insert_ne. congruence.
Qed.

(** The listeners of an event after [off]: those with another callback. *)
Lemma off_listeners event callback bus bus' :
  off event callback bus = Some bus' ->
  default [] (events bus' !! event)
  = filter (fun l => l_callback l <> callback) (default [] (events bus !! event)) /\
  debugMode bus' = debugMode bus /\
  forall e, e <> event -> events bus' !! e = events bus !! e.
Proof.
  unfold off. destruct (getProperty bus event) as [listeners| |] eqn:Hprop;
    [| discriminate |]; intros [= <-]; simpl.
  - apply getProperty_Own in Hprop. rewrite Hprop. simpl.
    destruct (filter _ listeners) as [|l kept] eqn:Hkept; simpl.
    + rewrite lookup_delete_eq. split_and!; auto.
      intros e He. apply lookup_delete_ne. congruence.
    + rewrite lookup_insert_eq. split_and!; auto.
      intros e He. apply lookup_insert_ne. congruence.
  - apply getProperty_Undefined in Hprop as [-> _]. auto.
Qed.

Section EmitProperties.
Context {Data Err World : Type}.
Variable behaviour : nat -> option nat -> Data -> JS Err (EventBus * World) unit.

(** The guarded call of one listener never ends abruptly, and makes exactly
    one call. *)
Lemma emit_one_listener (event : string) (data : Data) (listener : Listener)
    (s : BusState (Data := Data) (Err := Err) (World := World)) :
  exists s',
    tryCatch
      (match l_context listener with
       | Some context => callFunction behaviour (l_callback listener) (Some context) data
       | None => callFunction behaviour (l_callback listener) None data
       end)
      (fun error => console (ConsoleError event error)) s
    = Normal tt s' /\
    bs_calls s' = bs_calls s ++ callsFor data [listener].
Proof.
  unfold tryCatch, callFunction, callsFor. simpl.
  destruct (l_context listener) as [context|];
    destruct (behaviour _ _ data (bs_bus s, bs_world s)) as [[] [bus world]|e [bus world]];
    simpl; eexists; split; reflexivity.
Qed.

Lemma emit_forEach (event : string) (data : Data) (listeners : list Listener) :
  forall s : BusState (Data := Data) (Err := Err) (World := World),
  exists s',
    forEach listeners (fun listener =>
      tryCatch
        (match l_context listener with
         | Some context => callFunction behaviour (l_callback listener) (Some context) data
         | None => callFunction behaviour (l_callback listener) None data
         end)
        (fun error => console (ConsoleError event error))) s
    = Normal tt s' /\
    bs_calls s' = bs_calls s ++ callsFor data listeners.
Proof.
  induction listeners as [|listener rest IH]; intros s; simpl.
  - exists s. split; [reflexivity|]. unfold callsFor. simpl. rewrite app_nil_r. reflexivity.
  - unfold js_bind at 1.
    destruct (emit_one_listener event data listener s) as (s1 & -> & Hcalls1).
    destruct (IH s1) as (s' & -> & Hcalls).
    exists s'. split; [reflexivity|].
    rewrite Hcalls, Hcalls1. unfold callsFor. simpl. rewrite <- app_assoc. reflexivity.
Qed.

(** [emit] as its parts: the log in debug mode, then nothing, the
    [TypeError] of the spread, or the loop over the listeners. *)
Lemma emit_unfold (event : string) (data : Data)
    (s : BusState (Data := Data) (Err := Err) (World := World)) :
  let s0 := if debugMode (bs_bus s)
            then mkBusState (bs_bus s) (bs_world s)
                   (bs_console s ++ [ConsoleLog event data]) (bs_calls s)
            else s in
  emit behaviour event data s
  = match getProperty (bs_bus s) event with
    | Undefined => Normal tt s0
    | Inherited _ => Thrown NotIterable s0
    | Own listeners =>
        js_lift ListenerError (forEach listeners (callListener behaviour event data)) s0
    end.
Proof.
  unfold emit, js_bind, readBus, callListener. simpl.
  destruct (debugMode (bs_bus s)); simpl;
    destruct (getProperty (bs_bus s) event); reflexivity.
Qed.

End EmitProperties.

Example emit_sample :
  match emit sampleBehaviour "e" 42%nat (mkBusState sampleBus 0%nat [] []) with
  | Normal _ s' =>
      Some (map call_callback (bs_calls s'), map call_this (bs_calls s'),
            bs_world s', bs_console s',
            map l_callback (default [] (events (bs_bus s') !! "e")))
  | Thrown _ _ => None
  end
  = Some ([1; 2; 3]%nat, [None; Some 9%nat; None], 42%nat,
          [ConsoleError "e" "boom"], [1; 2]%nat).
Proof. vm_compute. reflexivity. Qed.

(** On a name inherited from [Object.prototype]: [on], [off] and [emit]
    throw, and [listenerCount] reports the [length] of a function. *)
Example inherited_event_names :
  on "constructor" 1 None "id" (newEventBus false) = None /\
  off "valueOf" 1 (newEventBus false) = None /\
  emit sampleBehaviour "toString" 42%nat (mkBusState sampleBus 0%nat [] [])
  = Thrown NotIterable (mkBusState sampleBus 0%nat [] []) /\
  listenerCount "constructor" (newEventBus false) = Some 1%nat /\
  eventNames (newEventBus false) = ∅.
Proof. split_and!; reflexivity. Qed.

(* ===================================================================== *)
(** * Properties of MazeUtils *)
(* ===================================================================== *)

Lemma randomIndex_range (r : Q) (n : Z) :
  (0 <= r)%Q -> (r < 1)%Q -> 0 < n -> 0 <= randomIndex r n < n.
Proof.
  intros H0 H1 Hn. unfold randomIndex.
  assert (0 < inject_Z n)%Q as Hq
    by (change (inject_Z 0 < inject_Z n)%Q; rewrite <- Zlt_Qlt; exact Hn).
  split.
  - rewrite <- (Qfloor_Z 0). apply Qfloor_resp_le. change (inject_Z 0) with 0%Q. nra.
  - rewrite Zlt_Qlt. eapply Qle_lt_trans; [apply Qfloor_le|]. nra.
Qed.

(** X1.  For integers [min <= max] and a draw in [0, 1), [randomInt]
    returns an integer between [min] and [max], both included. *)
Theorem randomInt_range (r : Q) (min max : Z) :
  (0 <= r)%Q -> (r < 1)%Q -> min <= max ->
  min <= randomInt r min max <= max.
Proof.
  intros H0 H1 Hle. unfold randomInt.
  pose proof (randomIndex_range r (max - min + 1) H0 H1 ltac:(lia)) as H.
  unfold randomIndex in H. lia.
Qed.

Lemma randomInt_range_witness : 3 <= randomInt (7 # 10) 3 6 <= 6.
Proof. apply randomInt_range; [discriminate | reflexivity | lia]. Defined.

Lemma swapAt_Permutation {A : Type} (array array' : list A) (i j : nat) :
  swapAt array i j = Some array' -> array' ≡ₚ array.
Proof.
  unfold swapAt. intros Hswap.
  destruct (array !! i) as [ai|] eqn:Hi; simpl in Hswap; [|discriminate].
  destruct (array !! j) as [aj|] eqn:Hj; simpl in Hswap; [|discriminate].
  injection Hswap as <-.
  pose proof (lookup_lt_Some _ _ _ Hi) as Hil.
  pose proof (lookup_lt_Some _ _ _ Hj) as Hjl.
  apply Permutation_inj. split; [rewrite !length_insert; reflexivity|].
  exists (fun k => if decide (k = j) then i else if decide (k = i) then j else k).
  split.
  - intros k1 k2. repeat case_decide; intros; subst; congruence.
  - intros k. rewrite !list_lookup_insert, !length_insert.
    repeat case_decide; subst; try congruence; try lia;
      match goal with H : ~ (_ /\ _) |- _ => exfalso; apply H; split; [congruence | lia] end.
Qed.

Lemma swapAt_is_Some {A : Type} (array : list A) (i j : nat) :
  (i < length array)%nat -> (j < length array)%nat -> is_Some (swapAt array i j).
Proof.
  intros Hi Hj. unfold swapAt.
  destruct (lookup_lt_is_Some_2 _ _ Hi) as [ai ->].
  destruct (lookup_lt_is_Some_2 _ _ Hj) as [aj ->]. simpl. eauto.
Qed.

(** Every swap of [shuffleArray] is between two positions of the array. *)
Lemma shuffleArray_swaps {A : Type} (rnd : nat -> Q) (i : nat) :
  (forall k, (0 <= rnd k)%Q /\ (rnd k < 1)%Q) ->
  forall k (array : list A), (i < length array)%nat \/ i = 0%nat ->
  exists array', shuffleLoop rnd k i array = Some array' /\ array' ≡ₚ array.
Proof.
  intros Hrnd. induction i as [|i IH]; intros k array Hi; simpl.
  - exists array. split; reflexivity.
  - destruct Hi as [Hi|Hi]; [|discriminate].
    destruct (Hrnd k) as [H0 H1].
    pose proof (randomIndex_range (rnd k) (Z.of_nat (S i) + 1) H0 H1 ltac:(lia)) as Hj.
    destruct (swapAt_is_Some array (S i)
                (Z.to_nat (randomIndex (rnd k) (Z.of_nat (S i) + 1)))) as [array1 Hswap];
      [lia | lia |].
    rewrite Hswap. simpl.
    pose proof (swapAt_Permutation _ _ _ _ Hswap) as Hperm.
    destruct (IH (S k) array1) as (array' & Hloop & Hperm').
    { left. rewrite (Permutation_length Hperm). lia. }
    exists array'. split; [exact Hloop|]. etransitivity; eassumption.
Qed.

(** X2.  With draws in [0, 1), [shuffleArray] returns a rearrangement of
    the array it is given: the same elements with the same multiplicities,
    hence the same length; the empty array and the one-element array are
    returned as they are. *)
Theorem shuffleArray_permutation {A : Type} (rnd : nat -> Q) (array : list A) :
  (forall k, (0 <= rnd k)%Q /\ (rnd k < 1)%Q) ->
  exists shuffled,
    shuffleArray rnd array = Some shuffled /\
    shuffled ≡ₚ array /\
    length shuffled = length array /\
    ((length array <= 1)%nat -> shuffled = array).
Proof.
  intros Hrnd. unfold shuffleArray.
  destruct (shuffleArray_swaps rnd (length array - 1) Hrnd 0%nat array)
    as (shuffled & Hloop & Hperm); [lia|].
  exists shuffled. split; [exact Hloop|]. split; [exact Hperm|].
  split; [apply Permutation_length, Hperm|].
  intros Hshort. replace (length array - 1)%nat with 0%nat in Hloop by lia.
  simpl in Hloop. congruence.
Qed.

Lemma shuffleArray_permutation_witness :
  exists shuffled,
    shuffleArray (fun k => 1 # Pos.of_nat (k + 2)) [10; 20; 30; 40] = Some shuffled /\
    shuffled ≡ₚ [10; 20; 30; 40] /\
    length shuffled = length [10; 20; 30; 40] /\
    ((length [10; 20; 30; 40] <= 1)%nat -> shuffled = [10; 20; 30; 40]).
Proof.
  apply (shuffleArray_permutation (fun k => 1 # Pos.of_nat (k + 2)) [10; 20; 30; 40]).
  intros k. split.
  - unfold Qle. simpl. lia.
  - unfold Qlt. simpl. lia.
Defined.

Example shuffleArray_sample :
  shuffleArray (fun k => 1 # Pos.of_nat (k + 2)) [10; 20; 30; 40] = Some [40; 10; 20; 30].
Proof. vm_compute. reflexivity. Qed.

(** X3.  [manhattanDistance] is a metric on the grid: never negative, zero
    exactly between a point and itself, symmetric, and it obeys the
    triangle inequality. *)
Theorem manhattanDistance_metric (x1 y1 x2 y2 x3 y3 : Z) :
  0 <= manhattanDistance x1 y1 x2 y2 /\
  (manhattanDistance x1 y1 x2 y2 = 0 <-> x1 = x2 /\ y1 = y2) /\
  manhattanDistance x1 y1 x2 y2 = manhattanDistance x2 y2 x1 y1 /\
  manhattanDistance x1 y1 x3 y3
  <= manhattanDistance x1 y1 x2 y2 + manhattanDistance x2 y2 x3 y3.
Proof. unfold manhattanDistance. lia. Qed.

(** X4.  [getCardinalNeighbors] lists north, east, south, west, in this
    order, each at Manhattan distance [|step|] from the cell; for a step
    other than 0 the four cells are distinct; and the candidates of the
    recursive backtracker are these four cells, in the same order. *)
Theorem getCardinalNeighbors_spec (x y step : Z) :
  map cn_direction (getCardinalNeighbors x y step) = ["north"; "east"; "south"; "west"] /\
  (forall n, n ∈ getCardinalNeighbors x y step ->
     manhattanDistance x y (cn_x n) (cn_y n) = Z.abs step) /\
  (step <> 0 ->
   NoDup (map (fun n => mkCoord (cn_x n) (cn_y n)) (getCardinalNeighbors x y step))) /\
  map (fun n => mkCoord (cn_x n) (cn_y n)) (getCardinalNeighbors x y step)
  = directions x y step.
Proof.
  split; [reflexivity|]. split; [|split; [|reflexivity]].
  - intros n. unfold getCardinalNeighbors. rewrite !elem_of_cons, elem_of_nil.
    unfold manhattanDistance. intros [->|[->|[->|[->|[]]]]]; simpl; lia.
  - intros Hstep. simpl. repeat (apply NoDup_cons; split);
      rewrite ?elem_of_cons, ?elem_of_nil, ?Coord_eq_iff; simpl; try lia.
    apply NoDup_nil. exact I.
Qed.

Lemma getCardinalNeighbors_spec_witness :
  NoDup (map (fun n => mkCoord (cn_x n) (cn_y n)) (getCardinalNeighbors 1 1 2)).
Proof.
  apply (proj1 (proj2 (proj2 (getCardinalNeighbors_spec 1 1 2)))). discriminate.
Defined.

(** X5.  [getAllNeighbors] returns the eight cells around the cell, each
    once: a cell is listed exactly when it differs from [(x, y)] by at most
    1 in each coordinate and is not [(x, y)] itself.  No bounds are
    checked: cells outside the grid are listed as well. *)
Theorem getAllNeighbors_spec (x y : Z) :
  length (getAllNeighbors x y) = 8%nat /\
  NoDup (getAllNeighbors x y) /\
  forall p, p ∈ getAllNeighbors x y <->
            Z.max (Z.abs (cx p - x)) (Z.abs (cy p - y)) = 1.
Proof.
  split; [reflexivity|]. split.
  - unfold getAllNeighbors. simpl.
    repeat (apply NoDup_cons; split);
      rewrite ?elem_of_cons, ?elem_of_nil, ?Coord_eq_iff; simpl; try lia.
    apply NoDup_nil. exact I.
  - intros p. unfold getAllNeighbors. simpl.
    rewrite !elem_of_cons, elem_of_nil, !Coord_eq_iff. simpl. lia.
Qed.

Lemma clamp_between (value min max : Q) :
  (min <= max)%Q ->
  (min <= clamp value min max)%Q /\ (clamp value min max <= max)%Q /\
  ((min <= value)%Q -> (value <= max)%Q -> (clamp value min max == value)%Q) /\
  ((value <= min)%Q -> (clamp value min max == min)%Q) /\
  ((max <= value)%Q -> (clamp value min max == max)%Q).
Proof.
  unfold clamp. intros Hle. split_and!.
  - apply Q.min_glb; [apply Q.le_max_r | exact Hle].
  - apply Q.le_min_r.
  - intros H1 H2. rewrite (Q.max_l value min H1). apply Q.min_l. exact H2.
  - intros H. rewrite (Q.max_r value min H). apply Q.min_l. exact Hle.
  - intros H. apply Q.min_r. eapply Qle_trans; [exact H | apply Q.le_max_l].
Qed.

(** X7.  [clamp] with [min <= max] returns a value between [min] and
    [max], and returns [value] itself when it already lies between them;
    it is then idempotent.  With [min > max] it returns [max], whatever the
    value. *)
Theorem clamp_spec (value min max : Q) :
  ((min <= max)%Q ->
     (min <= clamp value min max)%Q /\ (clamp value min max <= max)%Q /\
     ((min <= value)%Q -> (value <= max)%Q -> (clamp value min max == value)%Q) /\
     ((value <= min)%Q -> (clamp value min max == min)%Q) /\
     ((max <= value)%Q -> (clamp value min max == max)%Q) /\
     (clamp (clamp value min max) min max == clamp value min max)%Q) /\
  ((max < min)%Q -> (clamp value min max == max)%Q).
Proof.
  split.
  - intros Hle. destruct (clamp_between value min max Hle) as (H1 & H2 & H3 & H4 & H5).
    split_and!; auto.
    destruct (clamp_between (clamp value min max) min max Hle) as (_ & _ & Hid & _).
    apply Hid; assumption.
  - intros Hlt. unfold clamp. apply Q.min_r.
    eapply Qle_trans; [apply Qlt_le_weak, Hlt | apply Q.le_max_r].
Qed.

Lemma clamp_spec_witness : (clamp 7 0 1 == 1)%Q /\ (clamp 7 5 2 == 2)%Q.
Proof.
  split.
  - apply (proj1 (clamp_spec 7 0 1)); discriminate.
  - apply (proj2 (clamp_spec 7 5 2)). reflexivity.
Defined.

(* ===================================================================== *)
(** * Properties of the EventBus subscriptions *)
(* ===================================================================== *)

Lemma tidy_on event callback context id bus bus' :
  on event callback context id bus = Some bus' ->
  tidy bus -> unshadowed bus -> tidy bus' /\ unshadowed bus'.
Proof.
  intros Hon Ht Hu. destruct (on_listeners _ _ _ _ _ _ Hon) as (Hev & _ & Hother).
  split; intros e.
  - destruct (decide (e = event)) as [->|Hne].
    + rewrite Hev. intros [= H]. destruct (default [] _); discriminate.
    + rewrite (Hother e Hne). apply Ht.
  - destruct (decide (e = event)) as [->|Hne].
    + intros _. unfold on in Hon.
      destruct (getProperty bus event) as [listeners|length|] eqn:Hprop; [|discriminate|].
      * apply getProperty_Own in Hprop. apply Hu. eauto.
      * apply getProperty_Undefined in Hprop. apply Hprop.
    + rewrite (Hother e Hne). apply Hu.
Qed.

Lemma tidy_off event callback bus bus' :
  off event callback bus = Some bus' ->
  tidy bus -> unshadowed bus -> tidy bus' /\ unshadowed bus'.
Proof.
  intros Hoff Ht Hu. destruct (off_listeners _ _ _ _ Hoff) as (_ & _ & Hother).
  unfold off in Hoff.
  destruct (getProperty bus event) as [listeners|length|] eqn:Hprop;
    [|discriminate|injection Hoff as <-; auto].
  apply getProperty_Own in Hprop. injection Hoff as <-.
  split; intros e; simpl in *.
  - destruct (decide (e = event)) as [->|Hne]; [|rewrite (Hother e Hne); apply Ht].
    destruct (filter _ listeners) as [|l kept].
    + rewrite lookup_delete_eq. discriminate.
    + rewrite lookup_insert_eq. discriminate.
  - destruct (decide (e = event)) as [->|Hne]; [|rewrite (Hother e Hne); apply Hu].
    intros _. apply Hu. eauto.
Qed.

Lemma tidy_removeAllListeners event bus :
  tidy bus -> unshadowed bus ->
  tidy (removeAllListeners event bus) /\ unshadowed (removeAllListeners event bus).
Proof.
  intros Ht Hu. unfold removeAllListeners.
  destruct event as [name|]; [destruct (decide (name = "")) as [Hd|Hd]|]; split;
    intros e; simpl;
    rewrite ?lookup_empty; try discriminate; try (intros [? ?]; discriminate).
  - destruct (decide (name = e)) as [->|Hne].
    + rewrite lookup_delete_eq. discriminate.
    + rewrite lookup_delete_ne by exact Hne. apply Ht.
  - destruct (decide (name = e)) as [->|Hne].
    + rewrite lookup_delete_eq. intros [? ?]; discriminate.
    + rewrite lookup_delete_ne by exact Hne. apply Hu.
Qed.

Lemma tidy_busCalls debug calls :
  tidy (foldl busCall (newEventBus debug) calls) /\
  unshadowed (foldl busCall (newEventBus debug) calls).
Proof.
  induction calls as [|c calls [IHt IHu]] using rev_ind.
  - split; intros e; simpl; rewrite lookup_empty; [discriminate|].
    intros [? ?]; discriminate.
  - rewrite foldl_app. simpl. set (bus := foldl busCall (newEventBus debug) calls) in *.
    destruct c as [event callback context id|event callback|event]; simpl.
    + destruct (on event callback context id bus) as [bus'|] eqn:Hon; simpl; [|auto].
      exact (tidy_on _ _ _ _ _ _ Hon IHt IHu).
    + destruct (off event callback bus) as [bus'|] eqn:Hoff; simpl; [|auto].
      exact (tidy_off _ _ _ _ Hoff IHt IHu).
    + exact (tidy_removeAllListeners event bus IHt IHu).
Qed.

(** X10.  Whatever sequence of [on], [off] and [removeAllListeners] calls a
    bus has received since it was created (those that threw included), it
    keeps no event with an empty listener array and no array under a name
    of [Object.prototype].  For a name that is not inherited, the event is
    among [eventNames()] exactly when its [listenerCount] is positive.  For
    an inherited name such as "constructor", the event is never among
    [eventNames()] and [listenerCount] is the [length] of the inherited
    function (1 for "constructor"), whatever was called. *)
Theorem eventNames_listenerCount (debug : bool) (calls : list BusCall) (event : string) :
  match objectPrototype !! event with
  | Some length =>
      (event ∉ eventNames (foldl busCall (newEventBus debug) calls)) /\
      listenerCount event (foldl busCall (newEventBus debug) calls) = length
  | None =>
      exists n,
        listenerCount event (foldl busCall (newEventBus debug) calls) = Some n /\
        (event ∈ eventNames (foldl busCall (newEventBus debug) calls) <-> (0 < n)%nat)
  end.
Proof.
  destruct (tidy_busCalls debug calls) as [Ht Hu].
  specialize (Ht event). specialize (Hu event).
  unfold eventNames, listenerCount, getProperty.
  destruct (objectPrototype !! event) as [length|] eqn:Hproto.
  - rewrite not_elem_of_dom. destruct (events _ !! event) as [ls|].
    + exfalso. assert (Some length = None) by (apply Hu; eauto). discriminate.
    + split; reflexivity.
  - setoid_rewrite elem_of_dom. destruct (events _ !! event) as [[|l ls]|]; simpl.
    + congruence.
    + eexists. split; [reflexivity|]. simpl. split; [lia | eauto].
    + exists 0%nat. split; [reflexivity|]. split; [intros [? ?]; discriminate | lia].
Qed.

Lemma filter_keeps_all {A : Type} (P : A -> Prop) `{!forall x, Decision (P x)} (l : list A) :
  (forall x, x ∈ l -> P x) -> filter P l = l.
Proof.
  induction l as [|x l IH]; intros Hall; [reflexivity|].
  rewrite filter_cons_True by (apply Hall; left).
  f_equal. apply IH. intros y Hy. apply Hall. by right.
Qed.

Lemma filter_not_subscribed event callback bus :
  ~ subscribed event callback bus ->
  filter (fun l => l_callback l <> callback) (default [] (events bus !! event))
  = default [] (events bus !! event).
Proof.
  intros Hno. apply filter_keeps_all. intros l Hl Heq. apply Hno. exists l. auto.
Qed.

(** [off] on a callback that is not subscribed changes nothing. *)
Lemma off_not_subscribed event callback bus bus' :
  tidy bus -> ~ subscribed event callback bus ->
  off event callback bus = Some bus' -> bus' = bus.
Proof.
  intros Ht Hno Hoff. pose proof (filter_not_subscribed event callback bus Hno) as Hsame.
  unfold off in Hoff. destruct (getProperty bus event) as [listeners| |] eqn:Hprop;
    [|discriminate|congruence].
  apply getProperty_Own in Hprop. rewrite Hprop in Hsame. simpl in Hsame.
  injection Hoff as <-. rewrite Hsame. destruct bus as [evs debug]. simpl in *.
  destruct listeners as [|l ls].
  - exfalso. apply (Ht event). exact Hprop.
  - f_equal. apply insert_id. exact Hprop.
Qed.

(** X11.  Subscribing a callback that is not yet subscribed to the event
    and then calling the function [on] returned (which is [off] of that
    event and callback) gives back the bus as it was.  The subscription
    itself fails, with a [TypeError], exactly for an event name the bus
    only inherits from [Object.prototype]. *)
Theorem off_on_round_trip (event : string) (callback : nat) (context : option nat)
    (id : string) (bus : EventBus) :
  tidy bus -> ~ subscribed event callback bus ->
  match on event callback context id bus with
  | Some bus' => off event callback bus' = Some bus
  | None => exists length, getProperty bus event = Inherited length
  end.
Proof.
  intros Ht Hno. destruct (on event callback context id bus) as [bus'|] eqn:Hon;
    [|apply on_throws in Hon; exact Hon].
  pose proof (filter_not_subscribed event callback bus Hno) as Hfilter.
  destruct (on_listeners _ _ _ _ _ _ Hon) as (Hev & Hdebug & Hother).
  unfold off. rewrite (proj2 (getProperty_Own bus' event _) Hev).
  rewrite filter_app, Hfilter, filter_cons. simpl.
  destruct (decide (callback <> callback)) as [Hne|_]; [congruence|].
  rewrite filter_nil, app_nil_r. f_equal.
  destruct bus as [evs debug], bus' as [evs' debug']. simpl in *. subst debug'.
  f_equal. apply map_eq. intros e. destruct (decide (e = event)) as [->|Hne].
  - destruct (evs !! event) as [[|l ls]|] eqn:Hl; simpl.
    + exfalso. apply (Ht event). exact Hl.
    + rewrite lookup_insert_eq. reflexivity.
    + rewrite lookup_delete_eq. reflexivity.
  - rewrite <- (Hother e Hne).
    destruct (default [] (evs !! event));
      [apply lookup_delete_ne | apply lookup_insert_ne]; congruence.
Qed.

Lemma off_on_round_trip_witness :
  match on "maze:reset" 7 None "id" (mkEventBus {[ "maze:reset" := [mkListener 3 None "id0"] ]}
                                       false) with
  | Some bus' =>
      off "maze:reset" 7 bus'
      = Some (mkEventBus {[ "maze:reset" := [mkListener 3 None "id0"] ]} false)
  | None =>
      exists length,
        getProperty (mkEventBus {[ "maze:reset" := [mkListener 3 None "id0"] ]} false)
          "maze:reset" = Inherited length
  end.
Proof.
  apply off_on_round_trip.
  - apply (tidy_busCalls false [CallOn "maze:reset" 3 None "id0"]).
  - intros (l & Hl & Hcb).
    replace (default [] (events (mkEventBus {[ "maze:reset" := [mkListener 3 None "id0"] ]}
                                   false) !! "maze:reset"))
      with [mkListener 3 None "id0"] in Hl by (vm_compute; reflexivity).
    apply list_elem_of_singleton in Hl as ->. discriminate.
Defined.

Lemma off_unsubscribes event callback bus bus' :
  off event callback bus = Some bus' -> ~ subscribed event callback bus'.
Proof.
  intros Hoff (l & Hl & Hcb). rewrite (proj1 (off_listeners _ _ _ _ Hoff)) in Hl.
  apply list_elem_of_filter in Hl as [Hne _]. contradiction.
Qed.

(** X12.  [off(event, callback)] throws a [TypeError] exactly for an event
    name the bus only inherits from [Object.prototype].  Otherwise it
    removes every listener of the event that has this callback, those
    subscribed with another context or several times included; it keeps
    the other listeners of the event, and leaves every other event as it
    is.  On a callback that is not subscribed it changes nothing. *)
Theorem off_removes_all (event : string) (callback : nat) (bus : EventBus) :
  (off event callback bus = None <->
   exists length, getProperty bus event = Inherited length) /\
  forall bus', off event callback bus = Some bus' ->
    ~ subscribed event callback bus' /\
    (forall other, other <> callback ->
       subscribed event other bus' <-> subscribed event other bus) /\
    (forall e, e <> event -> events bus' !! e = events bus !! e) /\
    (tidy bus -> ~ subscribed event callback bus -> bus' = bus).
Proof.
  split; [apply off_throws|]. intros bus' Hoff.
  destruct (off_listeners _ _ _ _ Hoff) as (Hfilter & _ & Hother).
  split_and!.
  - exact (off_unsubscribes _ _ _ _ Hoff).
  - intros other Hother'. unfold subscribed. rewrite Hfilter. split.
    + intros (l & Hl & Hcb). apply list_elem_of_filter in Hl as [_ Hl]. eauto.
    + intros (l & Hl & Hcb). exists l. split; [|exact Hcb].
      apply list_elem_of_filter. split; [congruence | exact Hl].
  - exact Hother.
  - intros Ht Hno. exact (off_not_subscribed _ _ _ _ Ht Hno Hoff).
Qed.

Lemma off_removes_all_witness :
  ~ subscribed "e" 2 (mkEventBus {[ "e" := [mkListener 1 None "id1"; mkListener 3 None "id3"] ]}
                        false) /\
  off "valueOf" 2 sampleBus = None.
Proof.
  split.
  - apply (proj2 (off_removes_all "e" 2 sampleBus)). vm_compute. reflexivity.
  - apply (proj1 (off_removes_all "valueOf" 2 sampleBus)).
    exists (Some 0%nat). vm_compute. reflexivity.
Defined.

Example off_removes_duplicates :
  (bus1 ← on "e" 5 None "a" (newEventBus false);
   bus2 ← on "e" 6 None "c" bus1;
   bus3 ← on "e" 5 (Some 1%nat) "b" bus2;
   bus4 ← off "e" 5 bus3;
   Some (listenerCount "e" bus3, map l_callback (default [] (events bus4 !! "e"))))
  = Some (Some 3%nat, [6%nat]).
Proof. vm_compute. reflexivity. Qed.

(** X13.  [on] throws a [TypeError] exactly for an event name the bus only
    inherits from [Object.prototype].  Otherwise it never refuses or merges
    a subscription: it raises the [listenerCount] of the event by exactly
    one, also when the same callback is already subscribed, and leaves the
    listeners of every other event as they are. *)
Theorem on_listenerCount (event : string) (callback : nat) (context : option nat)
    (id : string) (bus : EventBus) :
  (on event callback context id bus = None <->
   exists length, getProperty bus event = Inherited length) /\
  forall bus', on event callback context id bus = Some bus' ->
    (exists n, listenerCount event bus = Some n /\
               listenerCount event bus' = Some (S n)) /\
    subscribed event callback bus' /\
    (forall e, e <> event -> events bus' !! e = events bus !! e).
Proof.
  split; [apply on_throws|]. intros bus' Hon.
  destruct (on_listeners _ _ _ _ _ _ Hon) as (Hev & _ & Hother).
  split_and!.
  - exists (length (default [] (events bus !! event))). split.
    + unfold on in Hon. unfold listenerCount.
      destruct (getProperty bus event) as [listeners| |] eqn:Hprop; [|discriminate|].
      * apply getProperty_Own in Hprop. rewrite Hprop. reflexivity.
      * apply getProperty_Undefined in Hprop as [-> _]. reflexivity.
    + unfold listenerCount. rewrite (proj2 (getProperty_Own bus' event _) Hev).
      rewrite length_app. simpl. f_equal. lia.
  - exists (mkListener callback context id). split; [|reflexivity].
    rewrite Hev. simpl. apply elem_of_app. right. left.
  - exact Hother.
Qed.

Lemma on_listenerCount_witness :
  on "constructor" 8 None "id" sampleBus = None /\
  match on "e" 2 None "id" sampleBus with
  | Some bus' =>
      (exists n, listenerCount "e" sampleBus = Some n /\ listenerCount "e" bus' = Some (S n)) /\
      subscribed "e" 2 bus' /\
      (forall e, e <> "e" -> events bus' !! e = events sampleBus !! e)
  | None => False
  end.
Proof.
  split.
  - apply (proj1 (on_listenerCount "constructor" 8 None "id" sampleBus)).
    exists (Some 1%nat). vm_compute. reflexivity.
  - destruct (on "e" 2 None "id" sampleBus) as [bus'|] eqn:Hon.
    + exact (proj2 (on_listenerCount "e" 2 None "id" sampleBus) bus' Hon).
    + vm_compute in Hon. discriminate.
Defined.

(** X14.  [removeAllListeners(event)] with a non-empty event name removes
    the listeners of that event and of no other; without argument, and also
    with the empty string as event name, it removes the listeners of every
    event.  An event whose listeners are removed has the [listenerCount] it
    has on a new bus: 0, unless the name is inherited from
    [Object.prototype], which [delete] cannot remove. *)
Theorem removeAllListeners_spec (bus : EventBus) :
  (forall name e, name <> "" ->
     listenerCount e (removeAllListeners (Some name) bus)
     = if decide (e = name) then listenerCount e (newEventBus (debugMode bus))
       else listenerCount e bus) /\
  (forall name, name <> "" ->
     eventNames (removeAllListeners (Some name) bus) = eventNames bus ∖ {[ name ]}) /\
  (forall e, listenerCount e (removeAllListeners None bus)
             = listenerCount e (newEventBus (debugMode bus))) /\
  (forall e, listenerCount e (removeAllListeners (Some "") bus)
             = listenerCount e (newEventBus (debugMode bus))) /\
  eventNames (removeAllListeners None bus) = ∅ /\
  (forall e debug,
     listenerCount e (newEventBus debug)
     = match objectPrototype !! e with Some length => length | None => Some 0%nat end).
Proof.
  unfold listenerCount, getProperty, removeAllListeners, eventNames. split_and!.
  - intros name e Hname. destruct (decide (name = "")); [contradiction|]. simpl.
    destruct (decide (e = name)) as [->|Hne].
    + rewrite lookup_delete_eq, lookup_empty. reflexivity.
    + rewrite lookup_delete_ne by congruence. reflexivity.
  - intros name Hname. destruct (decide (name = "")); [contradiction|]. simpl.
    apply dom_delete_L.
  - intros e. reflexivity.
  - intros e. reflexivity.
  - simpl. apply dom_empty_L.
  - intros e debug. simpl. rewrite lookup_empty.
    destruct (objectPrototype !! e); reflexivity.
Qed.

Lemma removeAllListeners_spec_witness :
  listenerCount "e" (removeAllListeners (Some "f") sampleBus)
  = (if decide ("e" = "f") then listenerCount "e" (newEventBus (debugMode sampleBus))
     else listenerCount "e" sampleBus) /\
  eventNames (removeAllListeners (Some "e") sampleBus) = eventNames sampleBus ∖ {[ "e" ]}.
Proof.
  split.
  - apply (proj1 (removeAllListeners_spec sampleBus)). discriminate.
  - apply (proj1 (proj2 (removeAllListeners_spec sampleBus))). discriminate.
Defined.

(** The chain of calls that builds the bus with a [once] listener. *)
Example onceBus_subscriptions :
  (bus1 ← on "e" 4 None "id4" (newEventBus false); once "e" 7 None "id7" bus1)
  = Some onceBus.
Proof. vm_compute. reflexivity. Qed.

Section Once.
Context {Data Err World : Type}.
Variable behaviour : nat -> option nat -> Data -> JS Err (EventBus * World) unit.

(** A listener subscribed with [once]: [wrapper] is the function [once]
    created for [callback]; no other function can subscribe [wrapper],
    which nothing else refers to. *)
Variables (event : string) (wrapper callback : nat) (context : option nat).
Variable typeError : Err.
Hypothesis Hwrapper : forall this data s,
  behaviour wrapper this data s
  = onceWrapper behaviour typeError event wrapper callback context data s.
Hypothesis Hcallback : callback <> wrapper.
Hypothesis Hothers : forall c this data bus world,
  c <> wrapper -> ~ subscribed event wrapper bus ->
  match behaviour c this data (bus, world) with
  | Normal _ (bus', _) | Thrown _ (bus', _) => ~ subscribed event wrapper bus'
  end.

Lemma once_call_unsubscribes this data bus world :
  match behaviour wrapper this data (bus, world) with
  | Normal _ (bus', _) | Thrown _ (bus', _) => ~ subscribed event wrapper bus'
  end.
Proof using Hwrapper Hcallback Hothers.
  rewrite Hwrapper. unfold onceWrapper.
  destruct (off event wrapper bus) as [bus'|] eqn:Hoff.
  - apply Hothers; [exact Hcallback|]. exact (off_unsubscribes _ _ _ _ Hoff).
  - apply off_throws in Hoff as [length Hprop].
    apply getProperty_Inherited in Hprop as [Hnone _].
    intros (l & Hl & _). rewrite Hnone in Hl. inversion Hl.
Qed.

Lemma once_callListener e data listener
    (s : BusState (Data := Data) (Err := Err) (World := World)) :
  exists s',
    callListener behaviour e data listener s = Normal tt s' /\
    (l_callback listener = wrapper -> ~ subscribed event wrapper (bs_bus s')) /\
    (~ subscribed event wrapper (bs_bus s) -> ~ subscribed event wrapper (bs_bus s')).
Proof using Hwrapper Hcallback Hothers.
  assert (forall this,
    exists s',
      tryCatch (callFunction behaviour (l_callback listener) this data)
        (fun error => console (ConsoleError e error)) s = Normal tt s' /\
      (l_callback listener = wrapper -> ~ subscribed event wrapper (bs_bus s')) /\
      (~ subscribed event wrapper (bs_bus s) -> ~ subscribed event wrapper (bs_bus s')))
    as Hcall.
  { intros this. unfold tryCatch, callFunction, console.
    pose proof (once_call_unsubscribes this data (bs_bus s) (bs_world s)) as Hw.
    pose proof (fun Hc => Hothers (l_callback listener) this data (bs_bus s) (bs_world s) Hc)
      as Ho.
    destruct (decide (l_callback listener = wrapper)) as [Heq|Hne].
    - rewrite Heq in *.
      destruct (behaviour wrapper this data (bs_bus s, bs_world s))
        as [[] [bus world]|err [bus world]]; simpl; eexists; split; try reflexivity;
        simpl; auto.
    - specialize (Ho Hne).
      destruct (behaviour (l_callback listener) this data (bs_bus s, bs_world s))
        as [[] [bus world]|err [bus world]]; simpl; eexists; split; try reflexivity;
        simpl; split; auto; contradiction. }
  unfold callListener. destruct (l_context listener); apply Hcall.
Qed.

Lemma once_forEach e data listeners :
  forall s : BusState (Data := Data) (Err := Err) (World := World),
  exists s',
    forEach listeners (callListener behaviour e data) s = Normal tt s' /\
    ((exists l, l ∈ listeners /\ l_callback l = wrapper) ->
     ~ subscribed event wrapper (bs_bus s')) /\
    (~ subscribed event wrapper (bs_bus s) -> ~ subscribed event wrapper (bs_bus s')).
Proof using Hwrapper Hcallback Hothers.
  induction listeners as [|listener rest IH]; intros s; simpl.
  - exists s. split; [reflexivity|]. split; [|auto].
    intros (l & Hl & _). inversion Hl.
  - unfold js_bind at 1.
    destruct (once_callListener e data listener s) as (s1 & -> & Hw1 & Hkeep1).
    destruct (IH s1) as (s' & -> & Hw & Hkeep).
    exists s'. split; [reflexivity|]. split; [|auto].
    intros (l & Hl & Hcb). apply elem_of_cons in Hl as [->|Hl].
    + apply Hkeep, Hw1, Hcb.
    + apply Hw. eauto.
Qed.

(** X15.  A listener subscribed with [once] is unsubscribed by the emission
    that calls it: the [emit] of its event returns normally and afterwards
    the listener is no longer subscribed, whatever the other listeners threw
    or did.  An [emit] of the event on a bus where it is not subscribed
    does not call it and does not subscribe it, whether that [emit] returns
    or ends with its own [TypeError] (an event name inherited from
    [Object.prototype]). *)
Theorem once_fires_once (data : Data)
    (s : BusState (Data := Data) (Err := Err) (World := World)) :
  (subscribed event wrapper (bs_bus s) ->
   exists s',
     emit behaviour event data s = Normal tt s' /\
     ~ subscribed event wrapper (bs_bus s')) /\
  (~ subscribed event wrapper (bs_bus s) ->
   exists s' calls,
     (emit behaviour event data s = Normal tt s' \/
      emit behaviour event data s = Thrown NotIterable s') /\
     bs_calls s' = bs_calls s ++ calls /\
     (forall c, c ∈ calls -> call_callback c <> wrapper) /\
     ~ subscribed event wrapper (bs_bus s')).
Proof using Hwrapper Hcallback Hothers.
  rewrite emit_unfold. cbv zeta.
  set (s0 := if debugMode (bs_bus s) then _ else s).
  assert (bs_bus s0 = bs_bus s /\ bs_calls s0 = bs_calls s) as [Hbus Hcalls]
    by (unfold s0; destruct (debugMode (bs_bus s)); auto).
  destruct (getProperty (bs_bus s) event) as [listeners|length|] eqn:Hprop.
  - apply getProperty_Own in Hprop.
    destruct (once_forEach event data listeners s0) as (s' & Hrun & Hfire & Hkeep).
    unfold js_lift. rewrite Hrun. split.
    + intros Hsub. exists s'. split; [reflexivity|]. apply Hfire.
      unfold subscribed in Hsub. rewrite Hprop in Hsub. exact Hsub.
    + intros Hno.
      destruct (emit_forEach behaviour event data listeners s0) as (s'' & Hrun' & Hcalls').
      change (forEach listeners (callListener behaviour event data) s0 = Normal tt s'')
        in Hrun'.
      rewrite Hrun in Hrun'. injection Hrun' as <-.
      exists s', (callsFor data listeners).
      split; [left; reflexivity|]. split; [rewrite Hcalls', Hcalls; reflexivity|]. split.
      * intros c Hc Hcb. unfold callsFor in Hc.
        apply list_elem_of_fmap in Hc as (l & -> & Hl).
        apply Hno. exists l. rewrite Hprop. auto.
      * apply Hkeep. rewrite Hbus. exact Hno.
  - apply getProperty_Inherited in Hprop as [Hnone _]. split.
    + intros (l & Hl & _). rewrite Hnone in Hl. inversion Hl.
    + intros Hno. exists s0, []. split; [right; reflexivity|].
      split; [rewrite app_nil_r; exact Hcalls|]. split.
      * intros c Hc. inversion Hc.
      * rewrite Hbus. exact Hno.
  - apply getProperty_Undefined in Hprop as [Hnone _]. split.
    + intros (l & Hl & _). rewrite Hnone in Hl. inversion Hl.
    + intros Hno. exists s0, []. split; [left; reflexivity|].
      split; [rewrite app_nil_r; exact Hcalls|]. split.
      * intros c Hc. inversion Hc.
      * rewrite Hbus. exact Hno.
Qed.
End Once.

Lemma once_fires_once_witness :
  subscribed "e" 7 onceBus /\
  exists s',
    emit onceBehaviour "e" 3%nat (mkBusState onceBus 0%nat [] []) = Normal tt s' /\
    ~ subscribed "e" 7 (bs_bus s').
Proof.
  assert (subscribed "e" 7 onceBus) as Hsub.
  { exists (mkListener 7 None "id7"). split; [|reflexivity].
    replace (default [] (events onceBus !! "e"))
      with [mkListener 4 None "id4"; mkListener 7 None "id7"]
      by (vm_compute; reflexivity).
    apply elem_of_cons. right. apply elem_of_cons. left. reflexivity. }
  split; [exact Hsub|].
  destruct (once_fires_once onceBehaviour "e" 7%nat 5%nat None "TypeError") with
    (data := 3%nat) (s := mkBusState (Data := nat) (Err := string) onceBus 0%nat [] [])
    as [Hfire _].
  - intros this data [bus counter]. unfold onceWrapper, onceBehaviour.
    destruct (off "e" 7 bus); reflexivity.
  - discriminate.
  - intros c this data bus world Hc Hno.
    do 7 (destruct c as [|c]; [exact Hno|]). destruct c as [|c]; [congruence | exact Hno].
  - exact (Hfire Hsub).
Defined.

(* ===================================================================== *)
(** * The depth-first search *)
(* ===================================================================== *)

(** ** What one call of [step()] writes *)

Lemma advance_forward_cells r a cur ns a' :
  ns <> [] -> advance r a cur ns = Some a' ->
  exists next,
    next ∈ ns /\ alg_current a' = Some next /\ alg_stack a' = cur :: alg_stack a /\
    width (alg_maze a') = width (alg_maze a) /\
    height (alg_maze a') = height (alg_maze a) /\
    forall f q,
      cellFlag f (alg_maze a') q
      = if decide (q = next) then f (mkCell false true true false)
        else if decide (q = cur) then f (mkCell false true false true)
        else if decide (q = mkCoord (cx cur + (cx next - cx cur) / 2)
                                    (cy cur + (cy next - cy cur) / 2))
             then f (mkCell false true false true)
        else cellFlag f (alg_maze a) q.
Proof.
  intros Hne. unfold advance. destruct ns as [|n0 rest]; [congruence|].
  destruct ((n0 :: rest) !! (r mod length (n0 :: rest))%nat) as [next|] eqn:Hnext;
    [|discriminate].
  cbn [mbind option_bind].
  set (w := mkCoord (cx cur + (cx next - cx cur) / 2) (cy cur + (cy next - cy cur) / 2)).
  change (cx cur + (cx next - cx cur) / 2) with (cx w).
  change (cy cur + (cy next - cy cur) / 2) with (cy w).
  destruct (setCell (alg_maze a) (cx w) (cy w) _) as [m1|] eqn:Hset1; [|discriminate].
  cbn [mbind option_bind].
  destruct (setCell m1 (cx next) (cy next) _) as [m2|] eqn:Hset2; [|discriminate].
  cbn [mbind option_bind].
  destruct (setCell m2 (cx cur) (cy cur) _) as [m3|] eqn:Hset3; [|discriminate].
  cbn [mbind option_bind].
  destruct (setCell m3 (cx next) (cy next) _) as [m4|] eqn:Hset4; [|discriminate].
  cbn [mbind option_bind]. intros [= <-]. exists next. cbn [alg_current alg_stack alg_maze].
  split; [eapply list_elem_of_lookup_2; eauto|]. split; [reflexivity|].
  split; [reflexivity|].
  destruct (setCell_dims _ _ _ _ _ Hset1), (setCell_dims _ _ _ _ _ Hset2),
    (setCell_dims _ _ _ _ _ Hset3), (setCell_dims _ _ _ _ _ Hset4).
  split; [congruence|]. split; [congruence|]. intros f q.
  rewrite (cellFlag_setCell f _ _ _ _ _ _ _ q Hset4).
  destruct (decide (q = next)); [reflexivity|].
  rewrite (cellFlag_setCell f _ _ _ _ _ _ _ q Hset3).
  destruct (decide (q = cur)); [reflexivity|].
  rewrite (cellFlag_setCell f _ _ _ _ _ _ _ q Hset2).
  destruct (decide (q = next)); [contradiction|].
  rewrite (cellFlag_setCell f _ _ _ _ _ _ _ q Hset1). reflexivity.
Qed.

Lemma advance_backtrack_cells r a cur top rest a' :
  alg_stack a = top :: rest -> advance r a cur [] = Some a' ->
  alg_current a' = Some top /\
  width (alg_maze a') = width (alg_maze a) /\
  height (alg_maze a') = height (alg_maze a) /\
  forall f q,
    cellFlag f (alg_maze a') q
    = if decide (q = top) then f (mkCell false true true true)
      else if decide (q = cur) then f (mkCell false true false true)
      else cellFlag f (alg_maze a) q.
Proof.
  intros Hstack. unfold advance. rewrite Hstack.
  destruct (setCell (alg_maze a) (cx cur) (cy cur) _) as [m1|] eqn:Hset1; [|discriminate].
  cbn [mbind option_bind].
  destruct (setCell m1 (cx top) (cy top) _) as [m2|] eqn:Hset2; [|discriminate].
  cbn [mbind option_bind]. intros [= <-]. cbn [alg_current alg_maze].
  split; [reflexivity|].
  destruct (setCell_dims _ _ _ _ _ Hset1), (setCell_dims _ _ _ _ _ Hset2).
  split; [congruence|]. split; [congruence|]. intros f q.
  rewrite (cellFlag_setCell f _ _ _ _ _ _ _ q Hset2).
  destruct (decide (q = top)); [reflexivity|].
  rewrite (cellFlag_setCell f _ _ _ _ _ _ _ q Hset1). reflexivity.
Qed.

Lemma advance_finish_cells r a cur a' :
  alg_stack a = [] -> advance r a cur [] = Some a' ->
  width (alg_maze a') = width (alg_maze a) /\
  height (alg_maze a') = height (alg_maze a) /\
  forall f q,
    cellFlag f (alg_maze a') q
    = if decide (q = cur) then f (mkCell false true false true)
      else cellFlag f (alg_maze a) q.
Proof.
  intros Hstack. unfold advance. rewrite Hstack.
  destruct (setCell (alg_maze a) (cx cur) (cy cur) _) as [m1|] eqn:Hset1; [|discriminate].
  cbn [mbind option_bind]. intros [= <-]. cbn [alg_maze].
  destruct (setCell_dims _ _ _ _ _ Hset1).
  split; [congruence|]. split; [congruence|]. intros f q.
  rewrite (cellFlag_setCell f _ _ _ _ _ _ _ q Hset1). reflexivity.
Qed.

(** ** The search invariant *)

Lemma isOdd_spec p : isOdd p = true <-> oddCell p.
Proof.
  unfold isOdd, oddCell. rewrite andb_true_iff, !Z.eqb_eq. reflexivity.
Qed.

Lemma isRoom_spec m p : isRoom m p = true <-> room m p.
Proof. unfold isRoom, room. rewrite andb_true_iff, isOdd_spec. reflexivity. Qed.

Lemma roomCount_ext m m' :
  width m' = width m -> height m' = height m ->
  (forall q, passage m' q = passage m q) -> roomCount m' = roomCount m.
Proof.
  intros Hw Hh Hp. apply countCells_ext; auto.
  intros q. unfold isRoom. rewrite Hp. reflexivity.
Qed.

(** A step that finds no unvisited neighbour leaves the current room with
    all its neighbours visited. *)
Lemma no_neighbors_closed a cur :
  running a -> getUnvisitedNeighbors a (cx cur) (cy cur) = Some [] ->
  forall n, n ∈ directions (cx cur) (cy cur) 2 ->
    isValidCoordinate (cx n) (cy n) (width (alg_maze a)) (height (alg_maze a)) = true ->
    isVisited (alg_maze a) n = true.
Proof.
  intros Hrun Hns n Hdir Hvalid.
  destruct (getUnvisitedNeighbors_spec a (cx cur) (cy cur)) as (ns & Hns' & Hspec);
    [apply Hrun|].
  rewrite Hns in Hns'. injection Hns' as <-. rewrite (run_stepSize a Hrun) in Hspec.
  destruct (isVisited (alg_maze a) n) eqn:Hv; [reflexivity|].
  exfalso. apply (elem_of_nil n), Hspec. auto.
Qed.

Lemma step_searching r a a' res :
  running a -> searching a -> alg_isComplete a = false ->
  step r a = Some (a', res) -> searching a'.
Proof.
  intros Hrun Hs Hactive Hstep.
  destruct (run_current a Hrun) as (cur & Hcur & Hroom & _).
  pose proof (run_carved a Hrun) as Hcv.
  destruct (sch_trail a Hs) as (cur' & Hcur' & Hlast).
  rewrite Hcur in Hcur'. injection Hcur' as <-.
  pose proof (sch_count a Hs) as Hcount. rewrite Hactive in Hcount.
  pose proof (sch_rooms a Hs) as Hrooms.
  destruct (getUnvisitedNeighbors a (cx cur) (cy cur)) as [ns|] eqn:Hns.
  2:{ unfold step in Hstep. rewrite Hactive, Hcur in Hstep. simpl in Hstep.
      rewrite Hns in Hstep. discriminate. }
  assert (exists a1, advance r a cur ns = Some a1 /\
            a' = mkAlgorithm (alg_maze a1) (alg_stepSize a1) (alg_stack a1)
                   (alg_current a1) (alg_isComplete a1) (S (alg_stepCount a1)))
    as (a1 & Hadv & ->).
  { unfold step in Hstep. rewrite Hactive, Hcur in Hstep. simpl in Hstep.
    rewrite Hns in Hstep. simpl in Hstep.
    destruct (advance r a cur ns) as [a1|]; [|discriminate].
    simpl in Hstep. injection Hstep as <- _. eauto. }
  clear Hstep.
  destruct ns as [|n0 ns0].
  - pose proof (no_neighbors_closed a cur Hrun Hns) as Hclosed.
    destruct (alg_stack a) as [|top rest] eqn:Hstack.
    + (* the search is over *)
      destruct (advance_finish r a cur [] Hrun Hactive Hcur eq_refl Hstack)
        as (a1' & Hadv' & _ & Hdone & Hcnt & Hst & Hc1 & _ & Hvis & _).
      rewrite Hadv in Hadv'. injection Hadv' as <-.
      destruct (advance_finish_cells r a cur a1 Hstack Hadv) as (Hw & Hh & Hcells).
      assert (forall q, passage (alg_maze a1) q = passage (alg_maze a) q) as Hp.
      { intros q. unfold passage. rewrite Hcells.
        destruct (decide (q = cur)) as [->|]; [|reflexivity].
        symmetry. apply Hroom. }
      assert (forall q, isVisited (alg_maze a) q = true -> isVisited (alg_maze a1) q = true)
        as Hmono.
      { intros q Hq. unfold isVisited. rewrite Hcells.
        destruct (decide (q = cur)); [reflexivity | exact Hq]. }
      split; simpl.
      * exists cur. rewrite Hc1, Hst. auto.
      * intros _. exact Hst.
      * rewrite Hdone, Hcnt, Hst, Hvis. simpl in *. lia.
      * intros p n [Hodd Hpass] _ Hdir. rewrite Hw, Hh. intros Hvalid. apply Hmono.
        destruct (decide (p = cur)) as [->|Hne]; [apply Hclosed; assumption|].
        apply (sch_closed a Hs p n); auto.
        -- split; [exact Hodd|]. rewrite <- Hp. exact Hpass.
        -- right. intros [Hon|Hon]; [congruence|].
           rewrite Hstack in Hon. inversion Hon.
      * intros p Hpass _. unfold isPath. rewrite Hcells.
        destruct (decide (p = cur)) as [->|Hne]; [reflexivity|].
        apply (sch_path a Hs p); [rewrite <- Hp; exact Hpass|].
        right. congruence.
      * rewrite Hvis, (roomCount_ext (alg_maze a) (alg_maze a1)); auto.
    + (* one room back *)
      destruct (advance_backtrack r a cur [] Hrun Hactive Hcur top rest eq_refl Hstack)
        as (a1' & Hadv' & _ & Hdone & Hcnt & Hst & Hvis & _).
      rewrite Hadv in Hadv'. injection Hadv' as <-.
      destruct (advance_backtrack_cells r a cur top rest a1 Hstack Hadv)
        as (Hc1 & Hw & Hh & Hcells).
      pose proof (run_stack a Hrun) as Hrs. rewrite Hstack in Hrs.
      apply Forall_cons in Hrs as [Htop _].
      assert (forall q, passage (alg_maze a1) q = passage (alg_maze a) q) as Hp.
      { intros q. unfold passage. rewrite Hcells.
        destruct (decide (q = top)) as [->|]; [symmetry; apply Htop|].
        destruct (decide (q = cur)) as [->|]; [|reflexivity].
        symmetry. apply Hroom. }
      assert (forall q, isVisited (alg_maze a) q = true -> isVisited (alg_maze a1) q = true)
        as Hmono.
      { intros q Hq. unfold isVisited. rewrite Hcells.
        destruct (decide (q = top)); [reflexivity|].
        destruct (decide (q = cur)); [reflexivity | exact Hq]. }
      split; simpl.
      * exists top. rewrite Hc1, Hst. split; [reflexivity|]. exact Hlast.
      * rewrite Hdone. discriminate.
      * rewrite Hdone, Hcnt, Hst, Hvis. simpl in *. lia.
      * intros p n [Hodd Hpass] [Hd|Hoff] Hdir; [congruence|].
        rewrite Hw, Hh. intros Hvalid. apply Hmono.
        destruct (decide (p = cur)) as [->|Hne]; [apply Hclosed; assumption|].
        apply (sch_closed a Hs p n); auto.
        -- split; [exact Hodd|]. rewrite <- Hp. exact Hpass.
        -- right. intros [Hon|Hon]; [congruence|].
           apply Hoff. unfold onTrail. simpl. rewrite Hc1, Hst.
           rewrite Hstack in Hon. apply elem_of_cons in Hon as [->|Hon]; auto.
      * intros p Hpass [Hd|Hnc]; [congruence|]. unfold isPath. rewrite Hcells.
        destruct (decide (p = top)) as [->|]; [reflexivity|].
        destruct (decide (p = cur)) as [->|Hne]; [reflexivity|].
        apply (sch_path a Hs p); [rewrite <- Hp; exact Hpass|].
        right. congruence.
      * rewrite Hvis, (roomCount_ext (alg_maze a) (alg_maze a1)); auto.
  - (* into a new room *)
    destruct (advance_forward r a cur (n0 :: ns0) Hrun Hactive Hcur Hns)
      as (a1' & Hadv' & Hrun1 & Hdone & Hcnt & Hst & Hvis & Hco); [discriminate|].
    rewrite Hadv in Hadv'. injection Hadv' as <-.
    destruct (advance_forward_cells r a cur (n0 :: ns0) a1) as
      (next & Hin & Hc1 & _ & Hw & Hh & Hcells); [discriminate | exact Hadv |].
    apply (advance_neighbors a cur (n0 :: ns0) Hrun Hns) in Hin
      as (Hdir & Hvalid & Hunvis).
    destruct (wall_between cur next Hdir) as (Htouch & Hx & Hy).
    set (w := mkCoord (cx cur + (cx next - cx cur) / 2)
                      (cy cur + (cy next - cy cur) / 2)) in *.
    assert (oddCell next) as Hoddn
      by (apply (between_oddCell cur w next); auto; apply Hroom).
    assert (~ oddCell w) as Hevenw
      by (intros Hoddw; apply (oddCells_apart cur w); auto; apply Hroom).
    assert (passage (alg_maze a) next = false) as Hpn
      by (rewrite <- (cv_visited _ Hcv); exact Hunvis).
    assert (forall q, isVisited (alg_maze a) q = true -> isVisited (alg_maze a1) q = true)
      as Hmono.
    { intros q Hq. unfold isVisited. rewrite Hcells.
      destruct (decide (q = next)); [reflexivity|].
      destruct (decide (q = cur)); [reflexivity|].
      destruct (decide (q = w)); [reflexivity | exact Hq]. }
    assert (forall q, passage (alg_maze a1) q
                      = if decide (q = next) then true
                        else if decide (q = w) then true else passage (alg_maze a) q)
      as Hp.
    { intros q. unfold passage. rewrite Hcells.
      destruct (decide (q = next)); [reflexivity|].
      destruct (decide (q = cur)) as [->|]; [|reflexivity].
      destruct (decide (cur = w)); [reflexivity|]. symmetry. apply Hroom. }
    split; simpl.
    + exists next. rewrite Hc1, Hst. split; [reflexivity|]. exact Hlast.
    + rewrite Hdone. discriminate.
    + rewrite Hdone, Hcnt, Hst, Hvis. simpl in *. lia.
    + intros p n [Hodd Hpass] [Hd|Hoff] Hdirp; [congruence|].
      rewrite Hw, Hh. intros Hvalidn. apply Hmono.
      assert (p <> next) as Hpnext.
      { intros ->. apply Hoff. left. simpl. exact Hc1. }
      assert (p <> cur) as Hpcur.
      { intros ->. apply Hoff. right. simpl. rewrite Hst. left. }
      apply (sch_closed a Hs p n); auto.
      * split; [exact Hodd|]. rewrite Hp in Hpass.
        destruct (decide (p = next)); [contradiction|].
        destruct (decide (p = w)) as [->|]; [contradiction | exact Hpass].
      * right. intros [Hon|Hon]; [congruence|].
        apply Hoff. right. simpl. rewrite Hst. right. exact Hon.
    + intros p Hpass [Hd|Hnc]; [congruence|]. rewrite Hc1 in Hnc.
      unfold isPath. rewrite Hcells.
      destruct (decide (p = next)) as [->|]; [congruence|].
      destruct (decide (p = cur)) as [->|Hne]; [reflexivity|].
      destruct (decide (p = w)) as [->|Hnw]; [reflexivity|].
      apply (sch_path a Hs p).
      * rewrite Hp in Hpass. destruct (decide (p = next)); [contradiction|].
        destruct (decide (p = w)); [contradiction | exact Hpass].
      * right. congruence.
    + rewrite Hvis. unfold roomCount, countCells in *.
      rewrite (coords_dims (alg_maze a) (alg_maze a1) Hw Hh).
      rewrite (count_switch_on (isRoom (alg_maze a)) (isRoom (alg_maze a1)) _ next).
      * lia.
      * apply NoDup_coords.
      * apply elem_of_coords, isValidCoordinate_spec, Hvalid.
      * unfold isRoom. rewrite Hpn. apply andb_false_r.
      * apply isRoom_spec. split; [exact Hoddn|]. rewrite Hp.
        destruct (decide (next = next)); congruence.
      * intros q Hq. unfold isRoom. rewrite Hp.
        destruct (decide (q = next)); [contradiction|].
        destruct (decide (q = w)) as [->|]; [|reflexivity].
        destruct (isOdd w) eqn:Hw'; [|reflexivity].
        apply isOdd_spec in Hw'. contradiction.
Qed.

Lemma initialize_searching m a0 :
  fresh m -> initialize (newAlgorithm m) = Some a0 -> searching a0.
Proof.
  intros Hfresh Hinit.
  destruct (initialize_inside m a0 (proj1 Hfresh) Hinit) as [Hw Hh].
  destruct (initialize_running m Hfresh Hw Hh)
    as (a0' & Hinit' & Hrun & Hdone & Hcnt & Hcur & Hst & Hw0 & Hh0 & _).
  rewrite Hinit in Hinit'. injection Hinit' as <-.
  pose proof (run_carved a0 Hrun) as Hcv.
  set (start := mkCoord 1 1) in *.
  assert (forall q, passage (alg_maze a0) q = bool_decide (q = start)) as Hp.
  { unfold initialize, newAlgorithm in Hinit. simpl in Hinit.
    destruct (setCell m 1 1 _) as [m0|] eqn:Hset; [|discriminate].
    simpl in Hinit. injection Hinit as <-. simpl. intros q. unfold passage.
    rewrite (cellFlag_setCell _ m start _ _ _ _ _ q Hset).
    destruct (decide (q = start)) as [->|Hne];
      [rewrite bool_decide_eq_true_2 by reflexivity; reflexivity
      |rewrite bool_decide_eq_false_2 by assumption; apply Hfresh]. }
  assert (start ∈ coords (alg_maze a0)) as Hin
    by (apply elem_of_coords; rewrite Hw0, Hh0; simpl; lia).
  assert (oddCell start) as Hodd by (split; reflexivity).
  assert (visitedCount (alg_maze a0) = 1%nat) as Hvis.
  { rewrite (carved_visitedCount _ Hcv). unfold passageCount. rewrite countCells_count.
    apply (count_one _ _ start); [apply NoDup_coords | exact Hin | |].
    - rewrite Hp. apply bool_decide_eq_true_2. reflexivity.
    - intros q _. rewrite Hp. apply bool_decide_eq_true_1. }
  split.
  - exists start. rewrite Hcur, Hst. auto.
  - rewrite Hdone. discriminate.
  - rewrite Hdone, Hcnt, Hst, Hvis. reflexivity.
  - intros p n [_ Hpass] [Hd|Hoff]; [congruence|].
    rewrite Hp in Hpass. apply bool_decide_eq_true_1 in Hpass as ->.
    exfalso. apply Hoff. left. exact Hcur.
  - intros p Hpass [Hd|Hnc]; [congruence|].
    rewrite Hp in Hpass. apply bool_decide_eq_true_1 in Hpass as ->. congruence.
  - rewrite Hvis. unfold roomCount. rewrite countCells_count.
    rewrite (count_one _ _ start); [reflexivity | apply NoDup_coords | exact Hin | |].
    + apply isRoom_spec. split; [exact Hodd|]. rewrite Hp.
      apply bool_decide_eq_true_2. reflexivity.
    + intros q _ Hq. apply isRoom_spec in Hq as [_ Hq]. rewrite Hp in Hq.
      apply bool_decide_eq_true_1 in Hq. exact Hq.
Qed.

Lemma reachable_searching m a : fresh m -> reachable m a -> searching a.
Proof.
  intros Hfresh Hreach. induction Hreach as [a0 Hinit|a r a' res Hreach IH Hstep].
  - exact (initialize_searching m a0 Hfresh Hinit).
  - destruct (alg_isComplete a) eqn:Hdone.
    + rewrite (step_complete r a Hdone) in Hstep. congruence.
    + exact (step_searching r a a' res (reachable_running m a Hfresh Hreach) IH Hdone Hstep).
Qed.

Lemma advance_dims r a cur ns a1 :
  advance r a cur ns = Some a1 ->
  width (alg_maze a1) = width (alg_maze a) /\ height (alg_maze a1) = height (alg_maze a).
Proof.
  intros Hadv. destruct ns as [|n0 ns0]; [destruct (alg_stack a) as [|top rest] eqn:Hstack|].
  - destruct (advance_finish_cells r a cur a1 Hstack Hadv) as (Hw & Hh & _). auto.
  - destruct (advance_backtrack_cells r a cur top rest a1 Hstack Hadv)
      as (_ & Hw & Hh & _). auto.
  - destruct (advance_forward_cells r a cur (n0 :: ns0) a1)
      as (next & _ & _ & _ & Hw & Hh & _); [discriminate | exact Hadv | auto].
Qed.

Lemma step_dims r a a' res :
  step r a = Some (a', res) ->
  width (alg_maze a') = width (alg_maze a) /\ height (alg_maze a') = height (alg_maze a).
Proof.
  unfold step. destruct (alg_isComplete a); [intros [= <- _]; auto|].
  destruct (alg_current a) as [cur|]; simpl; [|discriminate].
  destruct (getUnvisitedNeighbors a (cx cur) (cy cur)) as [ns|]; simpl; [|discriminate].
  destruct (advance r a cur ns) as [a1|] eqn:Hadv; simpl; [|discriminate].
  intros [= <- _]. simpl. exact (advance_dims r a cur ns a1 Hadv).
Qed.

Lemma reachable_dims m a :
  reachable m a ->
  width (alg_maze a) = width m /\ height (alg_maze a) = height m.
Proof.
  intros Hreach. induction Hreach as [a0 Hinit|a r a' res Hreach [IHw IHh] Hstep].
  - destruct (initialize_dims _ _ Hinit) as (Hw & Hh & _). auto.
  - destruct (step_dims r a a' res Hstep) as [Hw Hh]. split; congruence.
Qed.

(** ** Runs of [generate] *)

Lemma generateLoop_reachable {W} (cb : option (Q -> nat -> StepResult -> W -> W))
    rnd m totalCells fuel :
  forall k a w a' k' w',
    reachable m a -> alg_stepCount a = k ->
    generateLoop cb rnd fuel totalCells k a w = Done (a', k', w') ->
    reachable m a' /\ alg_isComplete a' = true /\ alg_stepCount a' = k'.
Proof.
  induction fuel as [|fuel IH]; intros k a w a' k' w' Hreach Hcnt; simpl;
    destruct (alg_isComplete a) eqn:Hdone; try discriminate.
  - intros [= <- <- <-]. auto.
  - intros [= <- <- <-]. auto.
  - destruct (step (rnd k) a) as [[a1 res]|] eqn:Hstep; [|discriminate].
    apply IH.
    + exact (reach_step m a (rnd k) a1 res Hreach Hstep).
    + destruct (step_stepCount _ _ _ _ Hdone Hstep) as (-> & _). congruence.
Qed.

Lemma generate_reachable {W} (cb : option (Q -> nat -> StepResult -> W -> W))
    rnd m fuel w a stats w' :
  generate cb rnd fuel (newAlgorithm m) w = Done (a, stats, w') ->
  reachable m a /\ alg_isComplete a = true /\
  stats_steps stats = alg_stepCount a /\ stats_cellsProcessed stats = alg_stepCount a.
Proof.
  unfold generate.
  destruct (initialize (newAlgorithm m)) as [a0|] eqn:Hinit; [|discriminate].
  destruct (initialize_dims _ _ Hinit) as (_ & _ & Hcnt0).
  destruct (generateLoop cb rnd fuel _ 0%nat a0 w) as [[[a' k] w'']| |] eqn:Hloop;
    try discriminate.
  intros [= <- <- <-]. simpl.
  destruct (generateLoop_reachable cb rnd m _ fuel _ _ _ _ _ _
              (reach_initialize m a0 Hinit) Hcnt0 Hloop) as (Hreach & Hdone & Hk).
  auto.
Qed.

Lemma stepN_reachable rnd m n :
  forall a0 a o, reachable m a0 -> stepN rnd n a0 = Some (a, o) -> reachable m a.
Proof.
  induction n as [|n IH]; intros a0 a o Hreach; simpl.
  - intros [= <- _]. exact Hreach.
  - destruct (stepN rnd n a0) as [[a1 o1]|] eqn:HstepN; simpl; [|discriminate].
    destruct (step (rnd n) a1) as [[a2 res]|] eqn:Hstep; simpl; [|discriminate].
    intros [= <- _]. exact (reach_step m a1 (rnd n) a2 res (IH a0 a1 o1 Hreach HstepN) Hstep).
Qed.

(** ** Counting the cells with odd coordinates *)

Lemma count_app {A} (f : A -> bool) l1 l2 :
  count f (l1 ++ l2) = (count f l1 + count f l2)%nat.
Proof. unfold count. rewrite filter_app, length_app. reflexivity. Qed.

Lemma count_cons {A} (f : A -> bool) a l :
  count f (a :: l) = ((if f a then 1 else 0) + count f l)%nat.
Proof.
  unfold count. rewrite filter_cons.
  destruct (f a); destruct (decide _); try congruence; reflexivity.
Qed.

Lemma count_odd_seqZ (n : nat) :
  count (fun z : Z => (z mod 2 =? 1)%Z) (seqZ 0 (Z.of_nat n)) = Z.to_nat (Z.of_nat n / 2).
Proof.
  induction n as [|n IH]; [reflexivity|].
  rewrite Nat2Z.inj_succ, <- Z.add_1_r, seqZ_app by lia.
  rewrite count_app, IH. simpl.
  change (seqZ (0 + Z.of_nat n) 1) with [0 + Z.of_nat n]. rewrite count_cons.
  change (count _ []) with 0%nat.
  destruct ((0 + Z.of_nat n) mod 2 =? 1) eqn:Ho.
  - apply Z.eqb_eq in Ho. Z.div_mod_to_equations. lia.
  - apply Z.eqb_neq in Ho. Z.div_mod_to_equations. lia.
Qed.

Lemma count_isOdd_row (y : Z) (xs : list Z) :
  count isOdd (xs ≫= fun x => [mkCoord x y])
  = if y mod 2 =? 1 then count (fun z : Z => (z mod 2 =? 1)%Z) xs else 0%nat.
Proof.
  induction xs as [|x xs IH].
  - destruct (y mod 2 =? 1); reflexivity.
  - rewrite bind_cons, count_app, IH, !count_cons. unfold isOdd. simpl.
    change (count _ []) with 0%nat.
    destruct (y mod 2 =? 1), (x mod 2 =? 1); simpl; lia.
Qed.

Lemma count_isOdd_grid (ys xs : list Z) :
  count isOdd (ys ≫= fun y => xs ≫= fun x => [mkCoord x y])
  = (count (fun z : Z => (z mod 2 =? 1)%Z) ys * count (fun z : Z => (z mod 2 =? 1)%Z) xs)%nat.
Proof.
  induction ys as [|y ys IH]; [reflexivity|].
  rewrite bind_cons, count_app, IH, count_isOdd_row, count_cons.
  destruct (y mod 2 =? 1); simpl; lia.
Qed.

Lemma count_isOdd_coords m :
  0 <= width m -> 0 <= height m ->
  Z.of_nat (count isOdd (coords m)) = (width m / 2) * (height m / 2).
Proof.
  intros Hw Hh. unfold coords. rewrite count_isOdd_grid.
  rewrite <- (Z2Nat.id (width m)) at 1 by exact Hw.
  rewrite <- (Z2Nat.id (height m)) at 1 by exact Hh.
  rewrite !count_odd_seqZ, !Z2Nat.id by assumption.
  rewrite Nat2Z.inj_mul, !Z2Nat.id by (apply Z.div_pos; lia). lia.
Qed.

(** ** What the search has done when it is over *)

Lemma closed_room_neighbor m p n :
  carved m -> room m p ->
  n ∈ directions (cx p) (cy p) 2 -> isVisited m n = true -> room m n.
Proof.
  intros Hcv [[Hx Hy] _] Hdir Hvis. split.
  - unfold directions in Hdir. rewrite !elem_of_cons, elem_of_nil in Hdir.
    unfold oddCell.
    destruct Hdir as [->|[->|[->|[->|[]]]]]; simpl; Z.div_mod_to_equations; lia.
  - rewrite <- (cv_visited m Hcv). exact Hvis.
Qed.

Lemma complete_rooms a :
  running a -> searching a -> alg_isComplete a = true ->
  forall p, oddCell p ->
    0 <= cx p < width (alg_maze a) -> 0 <= cy p < height (alg_maze a) ->
    room (alg_maze a) p.
Proof.
  intros Hrun Hs Hdone. set (m := alg_maze a).
  pose proof (run_carved a Hrun) as Hcv. fold m in Hcv.
  assert (room m (mkCoord 1 1)) as Hstart.
  { split; [split; reflexivity | apply (run_start a Hrun)]. }
  pose proof (passage_valid m _ (cv_wf m Hcv) (proj2 Hstart)) as [Hw1 Hh1].
  simpl in Hw1, Hh1.
  assert (forall p n, room m p -> n ∈ directions (cx p) (cy p) 2 ->
            0 <= cx n < width m /\ 0 <= cy n < height m -> room m n) as Hnext.
  { intros p n Hp Hdir Hvalid. apply (closed_room_neighbor m p n Hcv Hp Hdir).
    apply (sch_closed a Hs p n Hp); auto. apply isValidCoordinate_spec, Hvalid. }
  assert (forall i : nat, 1 + 2 * Z.of_nat i < width m ->
            room m (mkCoord (1 + 2 * Z.of_nat i) 1)) as Hrow.
  { induction i as [|i IH]; intros Hi; [exact Hstart|].
    apply (Hnext (mkCoord (1 + 2 * Z.of_nat i) 1)); [apply IH; lia | | simpl; lia].
    unfold directions. simpl. rewrite !elem_of_cons. right. left. f_equal. lia. }
  assert (forall (i j : nat), 1 + 2 * Z.of_nat i < width m ->
            1 + 2 * Z.of_nat j < height m ->
            room m (mkCoord (1 + 2 * Z.of_nat i) (1 + 2 * Z.of_nat j))) as Hgrid.
  { intros i. induction j as [|j IH]; intros Hi Hj; [apply Hrow, Hi|].
    apply (Hnext (mkCoord (1 + 2 * Z.of_nat i) (1 + 2 * Z.of_nat j)));
      [apply IH; lia | | simpl; lia].
    unfold directions. simpl. rewrite !elem_of_cons. right. right. left. f_equal. lia. }
  intros p [Hox Hoy] Hx Hy.
  replace p with (mkCoord (1 + 2 * Z.of_nat (Z.to_nat (cx p / 2)))
                          (1 + 2 * Z.of_nat (Z.to_nat (cy p / 2)))).
  - apply Hgrid; rewrite Z2Nat.id; Z.div_mod_to_equations; lia.
  - destruct p as [x y]. simpl in *. f_equal; rewrite Z2Nat.id; Z.div_mod_to_equations; lia.
Qed.

(** X16.  The search leaves no room out.  In a state of a run on a fresh
    grid in which [isComplete] is set, every cell of the grid with odd
    coordinates is visited and is a passage. *)
Theorem search_visits_every_room (m : Maze) (a : Algorithm) (p : Coord) :
  fresh m -> reachable m a -> alg_isComplete a = true ->
  oddCell p -> 0 <= cx p < width m -> 0 <= cy p < height m ->
  isVisited (alg_maze a) p = true /\ passage (alg_maze a) p = true.
Proof.
  intros Hfresh Hreach Hdone Hodd Hx Hy.
  pose proof (reachable_running m a Hfresh Hreach) as Hrun.
  destruct (reachable_dims m a Hreach) as [Hw Hh].
  destruct (complete_rooms a Hrun (reachable_searching m a Hfresh Hreach) Hdone p Hodd)
    as [_ Hpass]; [lia | lia |].
  rewrite (cv_visited _ (run_carved a Hrun)). auto.
Qed.

Lemma search_visits_every_room_witness :
  match generate None (fun k => k) 25 (newAlgorithm (blankMaze 5 5)) tt with
  | Done (a, _, _) =>
      isVisited (alg_maze a) (mkCoord 3 3) = true /\
      passage (alg_maze a) (mkCoord 3 3) = true
  | _ => False
  end.
Proof.
  destruct (generate None (fun k => k) 25 (newAlgorithm (blankMaze 5 5)) tt)
    as [[[a stats] w']| |] eqn:Hgen.
  - destruct (generate_reachable _ _ _ _ _ _ _ _ Hgen) as (Hreach & Hdone & _).
    apply (search_visits_every_room (blankMaze 5 5) a (mkCoord 3 3)).
    + apply fresh_blankMaze; lia.
    + exact Hreach.
    + exact Hdone.
    + split; reflexivity.
    + simpl. lia.
    + simpl. lia.
  - vm_compute in Hgen. discriminate.
  - vm_compute in Hgen. discriminate.
Defined.

(** X17.  Every call of [step()] during a run either enters a new room
    (pushing the one it leaves) or leaves a room for good (popping the one
    it returns to, or closing the run): in every state of a run on a fresh
    grid, [stepCount] plus the height of the stack is the number of visited
    cells minus one, plus one when the run is complete. *)
Theorem search_step_count (m : Maze) (a : Algorithm) :
  fresh m -> reachable m a ->
  (alg_stepCount a + length (alg_stack a) + 1
   = visitedCount (alg_maze a) + if alg_isComplete a then 1 else 0)%nat.
Proof.
  intros Hfresh Hreach. apply sch_count, (reachable_searching m a Hfresh Hreach).
Qed.

Lemma search_step_count_witness :
  match a0 ← initialize (newAlgorithm (blankMaze 5 5)); stepN (fun k => k) 3 a0 with
  | Some (a, _) =>
      (alg_stepCount a + length (alg_stack a) + 1
       = visitedCount (alg_maze a) + if alg_isComplete a then 1 else 0)%nat
  | None => False
  end.
Proof.
  destruct (initialize (newAlgorithm (blankMaze 5 5))) as [a0|] eqn:Hinit;
    [|vm_compute in Hinit; discriminate].
  cbn [mbind option_bind]. destruct (stepN (fun k => k) 3 a0) as [[a o]|] eqn:HstepN.
  - apply (search_step_count (blankMaze 5 5) a).
    + apply fresh_blankMaze; lia.
    + exact (stepN_reachable _ _ _ _ _ _ (reach_initialize _ a0 Hinit) HstepN).
  - vm_compute in Hinit. injection Hinit as <-. vm_compute in HstepN. discriminate.
Defined.

(** The length of a finished run. *)
Lemma complete_stepCount a :
  running a -> searching a -> alg_isComplete a = true ->
  alg_stepCount a = passageCount (alg_maze a) /\
  Z.of_nat (alg_stepCount a)
  = 2 * ((width (alg_maze a) / 2) * (height (alg_maze a) / 2)) - 1.
Proof.
  intros Hrun Hs Hdone. pose proof (run_carved a Hrun) as Hcv.
  pose proof (sch_count a Hs) as Hcount. rewrite Hdone, (sch_done a Hs Hdone) in Hcount.
  simpl in Hcount.
  assert (alg_stepCount a = visitedCount (alg_maze a)) as Hsv by lia.
  split; [rewrite Hsv; apply carved_visitedCount, Hcv|].
  pose proof (sch_rooms a Hs) as Hrooms.
  assert (roomCount (alg_maze a) = count isOdd (coords (alg_maze a))) as Hall.
  { unfold roomCount. rewrite countCells_count. apply count_ext. intros q Hq.
    apply elem_of_coords in Hq as [Hx Hy]. unfold isRoom.
    destruct (isOdd q) eqn:Hodd; [|reflexivity]. simpl.
    apply (complete_rooms a Hrun Hs Hdone q); auto. apply isOdd_spec, Hodd. }
  destruct (cv_wf _ Hcv) as (Hw0 & Hh0 & _).
  rewrite <- (count_isOdd_coords (alg_maze a)) by assumption. lia.
Qed.

(** X18.  The statistics [generate] resolves to, on a fresh grid: the number
    of steps is the number of loop iterations, it is the number of passage
    cells of the finished maze, and it depends on the size of the grid only:
    twice the number of cells with odd coordinates, minus one. *)
Theorem generate_statistics
    {W : Type} (progressCallback : option (Q -> nat -> StepResult -> W -> W))
    (rnd : nat -> nat) (m : Maze) (w : W) (fuel : nat)
    (a : Algorithm) (stats : Stats) (w' : W) :
  fresh m ->
  generate progressCallback rnd fuel (newAlgorithm m) w = Done (a, stats, w') ->
  stats_cellsProcessed stats = stats_steps stats /\
  stats_steps stats = passageCount (alg_maze a) /\
  Z.of_nat (stats_steps stats) = 2 * ((width m / 2) * (height m / 2)) - 1.
Proof.
  intros Hfresh Hgen.
  destruct (generate_reachable _ _ _ _ _ _ _ _ Hgen) as (Hreach & Hdone & Hsteps & Hproc).
  destruct (reachable_dims m a Hreach) as [Hw Hh].
  destruct (complete_stepCount a (reachable_running m a Hfresh Hreach)
              (reachable_searching m a Hfresh Hreach) Hdone) as [Hpass Hclosed].
  rewrite Hw, Hh in Hclosed.
  split; [congruence|]. split; congruence.
Qed.

Lemma generate_statistics_witness :
  match generate None (fun k => k) 35 (newAlgorithm (blankMaze 7 5)) tt with
  | Done (a, stats, _) =>
      stats_cellsProcessed stats = stats_steps stats /\
      stats_steps stats = passageCount (alg_maze a) /\
      Z.of_nat (stats_steps stats) = 2 * ((7 / 2) * (5 / 2)) - 1
  | _ => False
  end.
Proof.
  destruct (generate None (fun k => k) 35 (newAlgorithm (blankMaze 7 5)) tt)
    as [[[a stats] w']| |] eqn:Hgen.
  - apply (generate_statistics None (fun k => k) (blankMaze 7 5) tt 35 a stats w').
    + apply fresh_blankMaze; lia.
    + exact Hgen.
  - vm_compute in Hgen. discriminate.
  - vm_compute in Hgen. discriminate.
Defined.

Example generate_7x5_statistics :
  match generate None (fun k => k) 35 (newAlgorithm (blankMaze 7 5)) tt with
  | Done (a, stats, _) => Some (stats_steps stats, passageCount (alg_maze a))
  | _ => None
  end
  = Some (11%nat, 11%nat).
Proof. reflexivity. Qed.

(** X19.  The stack always leads back to the cell (1,1) the search started
    from: in every state of a run on a fresh grid the bottom of the trail
    (the current cell on top of the stack) is (1,1), and once [isComplete]
    is set the stack is empty and the current cell is (1,1) again. *)
Theorem search_returns_to_start (m : Maze) (a : Algorithm) :
  fresh m -> reachable m a ->
  exists cur,
    alg_current a = Some cur /\
    last (cur :: alg_stack a) = Some (mkCoord 1 1) /\
    (alg_isComplete a = true -> alg_stack a = [] /\ cur = mkCoord 1 1).
Proof.
  intros Hfresh Hreach. pose proof (reachable_searching m a Hfresh Hreach) as Hs.
  destruct (sch_trail a Hs) as (cur & Hcur & Hlast).
  exists cur. split; [exact Hcur|]. split; [exact Hlast|].
  intros Hdone. pose proof (sch_done a Hs Hdone) as Hst. split; [exact Hst|].
  rewrite Hst in Hlast. simpl in Hlast. congruence.
Qed.

Lemma search_returns_to_start_witness :
  match generate None (fun k => k) 25 (newAlgorithm (blankMaze 5 5)) tt with
  | Done (a, _, _) =>
      exists cur,
        alg_current a = Some cur /\
        last (cur :: alg_stack a) = Some (mkCoord 1 1) /\
        (alg_isComplete a = true -> alg_stack a = [] /\ cur = mkCoord 1 1)
  | _ => False
  end.
Proof.
  destruct (generate None (fun k => k) 25 (newAlgorithm (blankMaze 5 5)) tt)
    as [[[a stats] w']| |] eqn:Hgen.
  - destruct (generate_reachable _ _ _ _ _ _ _ _ Hgen) as (Hreach & _).
    apply (search_returns_to_start (blankMaze 5 5) a).
    + apply fresh_blankMaze; lia.
    + exact Hreach.
  - vm_compute in Hgen. discriminate.
  - vm_compute in Hgen. discriminate.
Defined.

(** X20.  Every cell the search opens ends up marked as path: in every state
    of a run on a fresh grid all passage cells other than the current cell
    carry the [path] mark, and once [isComplete] is set all of them do. *)
Theorem search_marks_path (m : Maze) (a : Algorithm) (p : Coord) :
  fresh m -> reachable m a ->
  passage (alg_maze a) p = true ->
  alg_isComplete a = true \/ alg_current a <> Some p ->
  isPath (alg_maze a) p = true.
Proof.
  intros Hfresh Hreach. apply sch_path, (reachable_searching m a Hfresh Hreach).
Qed.

Lemma search_marks_path_witness :
  match generate None (fun k => k) 25 (newAlgorithm (blankMaze 5 5)) tt with
  | Done (a, _, _) => isPath (alg_maze a) (mkCoord 1 1) = true
  | _ => False
  end.
Proof.
  destruct (generate None (fun k => k) 25 (newAlgorithm (blankMaze 5 5)) tt)
    as [[[a stats] w']| |] eqn:Hgen.
  - destruct (generate_reachable _ _ _ _ _ _ _ _ Hgen) as (Hreach & Hdone & _).
    apply (search_marks_path (blankMaze 5 5) a (mkCoord 1 1)).
    + apply fresh_blankMaze; lia.
    + exact Hreach.
    + apply (run_start a), (reachable_running (blankMaze 5 5) a);
        [apply fresh_blankMaze; lia | exact Hreach].
    + left. exact Hdone.
  - vm_compute in Hgen. discriminate.
  - vm_compute in Hgen. discriminate.
Defined.

(** ** The object between runs *)

(** X21.  [step()] needs [initialize()]: on a newly constructed object, and
    again after [reset()], [this.current] is [null] and the call throws.
    [reset()] leaves the grid alone, and [initialize()], hence [generate],
    starts from whatever state the object is in as it does after
    [reset()]. *)
Theorem step_requires_initialize
    {W : Type} (progressCallback : option (Q -> nat -> StepResult -> W -> W))
    (rnd : nat -> nat) (fuel : nat) (w : W) (r : nat) (m : Maze) (a : Algorithm) :
  step r (newAlgorithm m) = None /\
  step r (reset a) = None /\
  alg_maze (reset a) = alg_maze a /\
  initialize (reset a) = initialize a /\
  generate progressCallback rnd fuel (reset a) w = generate progressCallback rnd fuel a w.
Proof. split_and!; reflexivity. Qed.

Lemma collectUnvisited_sublist m dirs :
  forall ns, collectUnvisited m dirs = Some ns -> ns `sublist_of` dirs.
Proof.
  induction dirs as [|dir rest IH]; intros ns; simpl.
  - intros [= <-]. constructor.
  - destruct (isValidCoordinate _ _ _ _).
    + destruct (getCell m (cx dir) (cy dir)) as [cell|]; simpl; [|discriminate].
      destruct (collectUnvisited m rest) as [ns'|]; simpl; [|discriminate].
      intros [= <-]. destruct (c_visited cell).
      * apply sublist_cons. auto.
      * apply sublist_skip. auto.
    + intros Hns. apply sublist_cons. auto.
Qed.

(** X22.  [getUnvisitedNeighbors] answers with a selection of the four
    candidates that keeps their order (north, east, south, west): at most
    four cells, none of them twice when the step size is not 0. *)
Theorem getUnvisitedNeighbors_in_order (a : Algorithm) (x y : Z) (ns : list Coord) :
  getUnvisitedNeighbors a x y = Some ns ->
  ns `sublist_of` directions x y (alg_stepSize a) /\
  (length ns <= 4)%nat /\
  (alg_stepSize a <> 0 -> NoDup ns).
Proof.
  intros Hns. pose proof (collectUnvisited_sublist _ _ _ Hns) as Hsub.
  split; [exact Hsub|]. split.
  - apply sublist_length in Hsub. exact Hsub.
  - intros Hstep. refine (sublist_NoDup _ _ _ Hsub).
    unfold directions. repeat (apply NoDup_cons; split);
      rewrite ?elem_of_cons, ?elem_of_nil, ?Coord_eq_iff; simpl; try lia.
    apply NoDup_nil. exact I.
Qed.

Lemma getUnvisitedNeighbors_in_order_witness :
  [mkCoord 3 3; mkCoord 1 1] `sublist_of` directions 3 1 2 /\
  (length [mkCoord 3 3; mkCoord 1 1] <= 4)%nat /\
  NoDup [mkCoord 3 3; mkCoord 1 1].
Proof.
  destruct (getUnvisitedNeighbors_in_order (newAlgorithm (blankMaze 5 5)) 3 1
              [mkCoord 3 3; mkCoord 1 1] eq_refl) as (Hsub & Hlen & Hnd).
  split; [exact Hsub|]. split; [exact Hlen|]. apply Hnd. discriminate.
Defined.

(** X23.  The pause between two steps of [generate] falls linearly with the
    animation speed: it is [animationDelayMax] at speed 1,
    [animationDelayBase] at speed 10, and between the two for every speed
    from 1 to 10 (for a configuration whose base does not exceed its
    maximum). *)
Theorem animationDelay_range (h : Heap) (l : nat) (dmax base speed : Q) :
  getField h MazeConfig_ref "maze" = Some (VRef l) ->
  getNum h l "animationDelayMax" = Some dmax ->
  getNum h l "animationDelayBase" = Some base ->
  (base <= dmax)%Q ->
  (1 <= speed <= 10)%Q ->
  exists d lo hi,
    animationDelay h speed = Some d /\ (base <= d <= dmax)%Q /\
    animationDelay h 1 = Some hi /\ (hi == dmax)%Q /\
    animationDelay h 10 = Some lo /\ (lo == base)%Q.
Proof.
  intros Hmaze Hmax Hbase Hle [Hs1 Hs10]. unfold animationDelay.
  rewrite Hmaze, Hmax. cbn [mbind option_bind]. rewrite Hbase. cbn [mbind option_bind].
  eexists _, _, _. split; [reflexivity|]. split; [|split; [reflexivity|split;
    [field | split; [reflexivity | field]]]].
  split.
  - assert ((speed - 1) * (dmax - base) / 9 <= dmax - base)%Q; [|lra].
    assert ((speed - 1) * (dmax - base) <= 9 * (dmax - base))%Q by nra.
    apply Qle_shift_div_r; [reflexivity|]. lra.
  - assert (0 <= (speed - 1) * (dmax - base) / 9)%Q; [|lra].
    apply Qle_shift_div_l; [reflexivity|]. nra.
Qed.

Lemma animationDelay_range_witness :
  exists d lo hi,
    animationDelay configHeap 5 = Some d /\ (50 <= d <= 500)%Q /\
    animationDelay configHeap 1 = Some hi /\ (hi == 500)%Q /\
    animationDelay configHeap 10 = Some lo /\ (lo == 50)%Q.
Proof.
  apply (animationDelay_range configHeap maze_ref (inject_Z 500) (inject_Z 50) 5).
  - reflexivity.
  - reflexivity.
  - reflexivity.
  - vm_compute. discriminate.
  - split; vm_compute; discriminate.
Defined.

Example animationDelay_default :
  Qred <$> animationDelay configHeap 5 = Some (300 # 1)%Q.
Proof. reflexivity. Qed.

(** ** A second run on the same grid *)

Lemma cell_of_flags m p w v cu pa :
  cellFlag c_wall m p = w -> isVisited m p = v -> isCurrent m p = cu -> isPath m p = pa ->
  passage m p = true ->
  getCell m (cx p) (cy p) = Some (mkCell w v cu pa).
Proof.
  unfold passage, isVisited, isCurrent, isPath, cellFlag.
  destruct (getCell m (cx p) (cy p)) as [[w' v' cu' pa']|]; simpl; [|discriminate].
  intros -> -> -> -> _. reflexivity.
Qed.

(** Writing a cell and then writing back what it held restores the grid. *)
Lemma setCell_restore m x y st w v cu pa m1 m2 :
  getCell m x y = Some (mkCell w v cu pa) ->
  setCell m x y st = Some m1 ->
  setCell m1 x y (cellState w v cu pa) = Some m2 ->
  m2 = m.
Proof.
  unfold getCell, setCell. destruct ((x <? 0) || (y <? 0)); [discriminate|].
  destruct (grid m !! Z.to_nat y) as [row|] eqn:Hrow; simpl; [|discriminate].
  intros Hc. rewrite Hc. simpl. intros [= <-]. simpl.
  rewrite list_lookup_insert_eq by (eapply lookup_lt_Some; eauto). simpl.
  rewrite list_lookup_insert_eq by (eapply lookup_lt_Some; eauto). simpl.
  intros [= <-]. destruct m as [wd ht g]. simpl in *. f_equal.
  rewrite !list_insert_insert_eq.
  unfold mergeCell. simpl.
  rewrite (list_insert_id row (Z.to_nat x)) by exact Hc.
  apply list_insert_id. exact Hrow.
Qed.

Lemma generateLoop_complete {W} (cb : option (Q -> nat -> StepResult -> W -> W))
    rnd fuel totalCells k a w :
  alg_isComplete a = true ->
  generateLoop cb rnd fuel totalCells k a w = Done (a, k, w).
Proof. intros H. destruct fuel; simpl; rewrite H; reflexivity. Qed.

(** X24.  [generate] needs a fresh grid.  Called a second time on the
    object of a finished run, it finds every neighbour of the start cell
    visited and stops after a single step: the grid is left exactly as the
    first run made it, and the statistics report one step. *)
Theorem generate_again_stops_at_once
    {W W2 : Type} (progressCallback : option (Q -> nat -> StepResult -> W -> W))
    (rnd : nat -> nat) (m : Maze) (w : W) (fuel : nat)
    (a : Algorithm) (stats : Stats) (w' : W)
    (progressCallback2 : option (Q -> nat -> StepResult -> W2 -> W2))
    (rnd2 : nat -> nat) (w2 : W2) (fuel2 : nat) :
  fresh m ->
  generate progressCallback rnd fuel (newAlgorithm m) w = Done (a, stats, w') ->
  (0 < fuel2)%nat ->
  exists a2 w2',
    generate progressCallback2 rnd2 fuel2 a w2
    = Done (a2, mkStats "recursive" 1 1, w2') /\
    alg_maze a2 = alg_maze a /\
    alg_isComplete a2 = true /\
    alg_current a2 = Some (mkCoord 1 1) /\
    alg_stack a2 = [].
Proof.
  intros Hfresh Hgen Hfuel.
  destruct (generate_reachable _ _ _ _ _ _ _ _ Hgen) as (Hreach & Hdone & _).
  pose proof (reachable_running m a Hfresh Hreach) as Hrun.
  pose proof (reachable_searching m a Hfresh Hreach) as Hs.
  pose proof (run_carved a Hrun) as Hcv. pose proof (cv_wf _ Hcv) as Hwf.
  set (start := mkCoord 1 1).
  assert (room (alg_maze a) start) as Hroom.
  { split; [split; reflexivity | apply (run_start a Hrun)]. }
  destruct (run_current a Hrun) as (cur & _ & _ & Hmark). rewrite Hdone in Hmark.
  assert (getCell (alg_maze a) 1 1 = Some (mkCell false true false true)) as Hcell.
  { apply (cell_of_flags (alg_maze a) start).
    - destruct Hroom as [_ Hp]. unfold passage, cellFlag in *.
      destruct (getCell (alg_maze a) (cx start) (cy start)) as [c|]; [|discriminate].
      destruct (c_wall c); [discriminate | reflexivity].
    - rewrite (cv_visited _ Hcv). apply Hroom.
    - apply Hmark.
    - apply (sch_path a Hs); [apply Hroom | left; exact Hdone].
    - apply Hroom. }
  destruct (setCell_passage (alg_maze a) start (cellState false true true false))
    as [m0 Hset0]; [apply Hroom|].
  destruct (setCell_dims _ _ _ _ _ Hset0) as [Hw0 Hh0].
  pose proof (setCell_wellFormed _ _ _ _ _ Hset0 Hwf) as Hwf0.
  set (a0 := mkAlgorithm m0 (alg_stepSize a) [] (Some start) false 0).
  assert (initialize a = Some a0) as Hinit.
  { unfold initialize. change (cx (mkCoord 1 1)) with (cx start).
    change (cy (mkCoord 1 1)) with (cy start). rewrite Hset0. reflexivity. }
  destruct (getUnvisitedNeighbors_spec a0 (cx start) (cy start) Hwf0)
    as (ns & Hns & Hspec).
  assert (ns = []) as ->.
  { destruct ns as [|n ns]; [reflexivity|]. exfalso.
    destruct (proj1 (Hspec n)) as (Hdir & Hvalid & Hunvis); [left|].
    simpl in Hdir, Hvalid, Hunvis. rewrite (run_stepSize a Hrun) in Hdir.
    rewrite Hw0, Hh0 in Hvalid.
    pose proof (sch_closed a Hs start n Hroom (or_introl Hdone) Hdir Hvalid) as Hv.
    unfold isVisited in Hunvis.
    rewrite (cellFlag_setCell _ _ start _ _ _ _ _ n Hset0) in Hunvis.
    destruct (decide (n = start)); [discriminate|].
    unfold isVisited in Hv. congruence. }
  destruct (setCell_of_valid m0 start (cellState false true false true) Hwf0)
    as [m1 Hset1].
  { rewrite Hw0, Hh0. apply isValidCoordinate_spec.
    apply (passage_valid _ _ Hwf), Hroom. }
  assert (m1 = alg_maze a) as ->
    by exact (setCell_restore _ _ _ _ _ _ _ _ _ _ Hcell Hset0 Hset1).
  set (a1 := mkAlgorithm (alg_maze a) (alg_stepSize a) [] (Some start) true 1).
  assert (forall r, step r a0
            = Some (a1, mkStepResult true (Some start) (Some 1%nat) (Some 0%nat)))
    as Hstep.
  { intros r. unfold step. cbn [a0 alg_isComplete alg_current mbind option_bind].
    rewrite Hns. cbn [mbind option_bind].
    unfold advance. cbn [a0 alg_stack alg_maze]. rewrite Hset1. reflexivity. }
  destruct fuel2 as [|fuel2]; [lia|].
  eexists a1, _. split; [|auto].
  unfold generate. rewrite Hinit. simpl. rewrite Hstep.
  rewrite generateLoop_complete by reflexivity. reflexivity.
Qed.

Lemma generate_again_stops_at_once_witness :
  match generate None (fun k => k) 25 (newAlgorithm (blankMaze 5 5)) tt with
  | Done (a, _, _) =>
      exists a2 w2',
        generate (Some recordProgress) (fun _ => 0%nat) 1 a []
        = Done (a2, mkStats "recursive" 1 1, w2') /\
        alg_maze a2 = alg_maze a /\
        alg_isComplete a2 = true /\
        alg_current a2 = Some (mkCoord 1 1) /\
        alg_stack a2 = []
  | _ => False
  end.
Proof.
  destruct (generate None (fun k => k) 25 (newAlgorithm (blankMaze 5 5)) tt)
    as [[[a stats] w']| |] eqn:Hgen.
  - apply (generate_again_stops_at_once None (fun k => k) (blankMaze 5 5) tt 25 a stats w'
             (Some recordProgress) (fun _ => 0%nat) [] 1).
    + apply fresh_blankMaze; lia.
    + exact Hgen.
    + lia.
  - vm_compute in Hgen. discriminate.
  - vm_compute in Hgen. discriminate.
Defined.

(** ** What a step leaves alone *)

(** X25.  Whatever state it is called in, a call of [step()] that returns
    keeps the size of the grid, writes at most three cells (the current
    cell, and the neighbour it moves to with the cell between them, or the
    cell it steps back to), never turns a passage back into a wall and
    never takes a visited mark away. *)
Theorem step_only_opens (r : nat) (a a' : Algorithm) (res : StepResult) :
  step r a = Some (a', res) ->
  width (alg_maze a') = width (alg_maze a) /\
  height (alg_maze a') = height (alg_maze a) /\
  (exists touched : list Coord,
     (length touched <= 3)%nat /\
     forall f q, q ∉ touched -> cellFlag f (alg_maze a') q = cellFlag f (alg_maze a) q) /\
  (forall q, passage (alg_maze a) q = true -> passage (alg_maze a') q = true) /\
  (forall q, isVisited (alg_maze a) q = true -> isVisited (alg_maze a') q = true).
Proof.
  intros Hstep. destruct (step_dims r a a' res Hstep) as [Hw Hh].
  split; [exact Hw|]. split; [exact Hh|]. clear Hw Hh.
  unfold step in Hstep. destruct (alg_isComplete a).
  { injection Hstep as <- _. split; [exists []; simpl; split; [lia | auto]|]. auto. }
  destruct (alg_current a) as [cur|]; simpl in Hstep; [|discriminate].
  destruct (getUnvisitedNeighbors a (cx cur) (cy cur)) as [ns|]; simpl in Hstep;
    [|discriminate].
  destruct (advance r a cur ns) as [a1|] eqn:Hadv; simpl in Hstep; [|discriminate].
  injection Hstep as <- _. simpl.
  destruct ns as [|n0 ns0]; [destruct (alg_stack a) as [|top rest] eqn:Hstack|].
  - destruct (advance_finish_cells r a cur a1 Hstack Hadv) as (_ & _ & Hcells).
    split; [exists [cur]; split; [simpl; lia|]|split].
    + intros f q Hq. rewrite Hcells. destruct (decide (q = cur)) as [->|]; [|reflexivity].
      exfalso. apply Hq. left.
    + intros q Hq. unfold passage. rewrite Hcells.
      destruct (decide (q = cur)); [reflexivity | exact Hq].
    + intros q Hq. unfold isVisited. rewrite Hcells.
      destruct (decide (q = cur)); [reflexivity | exact Hq].
  - destruct (advance_backtrack_cells r a cur top rest a1 Hstack Hadv)
      as (_ & _ & _ & Hcells).
    split; [exists [top; cur]; split; [simpl; lia|]|split].
    + intros f q Hq. rewrite Hcells.
      destruct (decide (q = top)) as [->|]; [exfalso; apply Hq; left|].
      destruct (decide (q = cur)) as [->|]; [|reflexivity].
      exfalso. apply Hq. right. left.
    + intros q Hq. unfold passage. rewrite Hcells.
      destruct (decide (q = top)); [reflexivity|].
      destruct (decide (q = cur)); [reflexivity | exact Hq].
    + intros q Hq. unfold isVisited. rewrite Hcells.
      destruct (decide (q = top)); [reflexivity|].
      destruct (decide (q = cur)); [reflexivity | exact Hq].
  - destruct (advance_forward_cells r a cur (n0 :: ns0) a1)
      as (next & _ & _ & _ & _ & _ & Hcells); [discriminate | exact Hadv |].
    set (w := mkCoord (cx cur + (cx next - cx cur) / 2)
                      (cy cur + (cy next - cy cur) / 2)) in *.
    split; [exists [next; cur; w]; split; [simpl; lia|]|split].
    + intros f q Hq. rewrite Hcells.
      destruct (decide (q = next)) as [->|]; [exfalso; apply Hq; left|].
      destruct (decide (q = cur)) as [->|]; [exfalso; apply Hq; right; left|].
      destruct (decide (q = w)) as [->|]; [|reflexivity].
      exfalso. apply Hq. right. right. left.
    + intros q Hq. unfold passage. rewrite Hcells.
      destruct (decide (q = next)); [reflexivity|].
      destruct (decide (q = cur)); [reflexivity|].
      destruct (decide (q = w)); [reflexivity | exact Hq].
    + intros q Hq. unfold isVisited. rewrite Hcells.
      destruct (decide (q = next)); [reflexivity|].
      destruct (decide (q = cur)); [reflexivity|].
      destruct (decide (q = w)); [reflexivity | exact Hq].
Qed.

Lemma step_only_opens_witness :
  match step 0 initialized3 with
  | Some (a', _) =>
      width (alg_maze a') = width (alg_maze initialized3) /\
      height (alg_maze a') = height (alg_maze initialized3) /\
      (exists touched : list Coord,
         (length touched <= 3)%nat /\
         forall f q, q ∉ touched ->
           cellFlag f (alg_maze a') q = cellFlag f (alg_maze initialized3) q) /\
      (forall q, passage (alg_maze initialized3) q = true ->
                 passage (alg_maze a') q = true) /\
      (forall q, isVisited (alg_maze initialized3) q = true ->
                 isVisited (alg_maze a') q = true)
  | None => False
  end.
Proof.
  destruct (step 0 initialized3) as [[a' res]|] eqn:Hstep.
  - exact (step_only_opens 0 initialized3 a' res Hstep).
  - vm_compute in Hstep. discriminate.
Defined.

(** ** The percentage reported last *)

Lemma applyCalls_recordProgress (calls0 calls : list ProgressCall) :
  applyCalls recordProgress calls0 calls = calls0 ++ calls.
Proof.
  revert calls0. induction calls as [|c calls IH]; intros calls0; simpl.
  - rewrite app_nil_r. reflexivity.
  - unfold applyCalls in *. simpl. rewrite IH. unfold recordProgress.
    rewrite <- app_assoc. destruct c. reflexivity.
Qed.

(** X26.  The percentage handed to the progress callback counts steps
    against a quarter of the grid's cells, and a run takes almost two steps
    per room: on a fresh grid of width and height 4 or more, the last
    invocation of the callback carries the final step count and a
    percentage above 100. *)
Theorem progress_percentage_final (rnd : nat -> nat) (m : Maze) (fuel : nat)
    (a : Algorithm) (stats : Stats) (calls : list ProgressCall) :
  fresh m -> 4 <= width m -> 4 <= height m ->
  generate (Some recordProgress) rnd fuel (newAlgorithm m) [] = Done (a, stats, calls) ->
  exists c,
    last calls = Some c /\
    pc_stepCount c = stats_steps stats /\
    (pc_percentage c == percentageOf (stats_steps stats) ((width m * height m) / 4))%Q /\
    (100 < pc_percentage c)%Q.
Proof.
  intros Hfresh Hw Hh Hgen.
  destruct (generate_reachable _ _ _ _ _ _ _ _ Hgen) as (Hreach & Hdone & Hsteps & Hproc).
  destruct (reachable_dims m a Hreach) as [Hwa Hha].
  destruct (complete_stepCount a (reachable_running m a Hfresh Hreach)
              (reachable_searching m a Hfresh Hreach) Hdone) as [_ Hclosed].
  rewrite Hwa, Hha, <- Hsteps in Hclosed.
  assert ((width m * height m) / 4 < Z.of_nat (stats_steps stats)) as Hover.
  { rewrite Hclosed. clear - Hw Hh.
    assert (2 <= width m / 2) by (Z.div_mod_to_equations; lia).
    assert (2 <= height m / 2) by (Z.div_mod_to_equations; lia).
    assert (width m <= 2 * (width m / 2) + 1) by (Z.div_mod_to_equations; lia).
    assert (height m <= 2 * (height m / 2) + 1) by (Z.div_mod_to_equations; lia).
    assert (width m * height m
            <= (2 * (width m / 2) + 1) * (2 * (height m / 2) + 1)) by nia.
    apply Z.div_lt_upper_bound; [lia|]. nia. }
  (* the calls *)
  destruct (generate_calls _ _ _ _ _ _ _ _ Hgen)
    as (a0 & calls0 & _ & Hcalls0 & _ & Hlen & Hcalls).
  rewrite applyCalls_recordProgress in Hcalls0. simpl in Hcalls0. subst calls0.
  rewrite Hproc, <- Hsteps in Hlen.
  destruct (stats_steps stats) as [|n] eqn:Hn.
  { exfalso. assert (0 <= (width m * height m) / 4) by (apply Z.div_pos; nia). lia. }
  destruct (lookup_lt_is_Some_2 calls n) as [c Hc]; [lia|].
  exists c. split; [rewrite last_lookup, Hlen; exact Hc|].
  destruct (Hcalls n c Hc) as (ai & ri & _ & -> & Hcnt). simpl.
  split; [exact Hcnt|]. split; [reflexivity|].
  unfold percentageOf.
  assert (0 < (width m * height m) / 4) as Htot by (apply Z.div_str_pos; nia).
  assert (0 < inject_Z ((width m * height m) / 4))%Q as Hq
    by (change 0%Q with (inject_Z 0); rewrite <- Zlt_Qlt; exact Htot).
  assert (1 < inject_Z (Z.of_nat (S n)) / inject_Z ((width m * height m) / 4))%Q as Hratio.
  { apply Qlt_shift_div_l; [exact Hq|]. rewrite Qmult_1_l, <- Zlt_Qlt. exact Hover. }
  change (inject_Z 100) with 100%Q. lra.
Qed.

Lemma progress_percentage_final_witness :
  match generate (Some recordProgress) (fun k => k) 25 (newAlgorithm (blankMaze 5 5)) [] with
  | Done (a, stats, calls) =>
      exists c,
        last calls = Some c /\
        pc_stepCount c = stats_steps stats /\
        (pc_percentage c == percentageOf (stats_steps stats) ((5 * 5) / 4))%Q /\
        (100 < pc_percentage c)%Q
  | _ => False
  end.
Proof.
  destruct (generate (Some recordProgress) (fun k => k) 25 (newAlgorithm (blankMaze 5 5)) [])
    as [[[a stats] calls]| |] eqn:Hgen.
  - apply (progress_percentage_final (fun k => k) (blankMaze 5 5) 25 a stats calls).
    + apply fresh_blankMaze; lia.
    + simpl. lia.
    + simpl. lia.
    + exact Hgen.
  - vm_compute in Hgen. discriminate.
  - vm_compute in Hgen. discriminate.
Defined.

(* ===================================================================== *)
(** * Object.freeze and the camera of the 3D scene *)
(* ===================================================================== *)

(** The nested objects of the configuration are other objects than
    [window.MazeConfig]: after the freeze they can all still be written. *)
Example nested_configuration_writable (k : string) (v : Value) :
  Forall (fun l => is_Some (setField configHeap l k v))
    [maze_ref; threeD_ref; ui_ref; colors_ref; algorithms_ref; recursive_ref;
     kruskal_ref; cellular_ref; performance_ref; events_ref].
Proof.
  repeat (apply Forall_cons; split); [..|apply Forall_nil; exact I];
    unfold setField;
    match goal with
    | |- is_Some (?x ≫= _) =>
        let o := eval vm_compute in x in
        replace x with o by (vm_compute; reflexivity)
    end; simpl; eauto.
Qed.

Lemma getField_written (h : Heap) l frozen fields k v k' :
  getField (<[l := mkObj frozen (<[k := v]> fields)]> h) l k'
  = if decide (k' = k) then Some v else fields !! k'.
Proof.
  unfold getField. rewrite lookup_insert_eq. simpl.
  destruct (decide (k' = k)) as [->|Hne];
    [apply lookup_insert_eq | apply lookup_insert_ne; congruence].
Qed.

(** X28.  What [fitCameraToMaze] does for a scene that holds a maze and a
    camera, when [this.config] has a number as [cellSize].  If the
    configuration object is frozen the assignment to [cameraDistance]
    throws.  Otherwise [cameraDistance] becomes
    [max(width, height) * cellSize * 0.8], the camera is put at that height
    above the centre of the maze and looks straight down at it; the maze,
    the other properties of the configuration object and all other objects
    stay as they are. *)
Theorem fitCameraToMaze_spec (h : Heap) (sc : MazeScene3D) (mz : Maze) (cam : Camera)
    (o : Obj) (cellSize : Q) :
  sc_maze sc = Some mz -> sc_camera sc = Some cam ->
  h !! sc_config sc = Some o ->
  obj_fields o !! "cellSize" = Some (VNum cellSize) ->
  if obj_frozen o then fitCameraToMaze h sc = None
  else
    exists h' sc',
      fitCameraToMaze h sc = Some (h', sc') /\
      let distance := Qred (inject_Z (Z.max (width mz) (height mz)) * cellSize * (8 # 10)) in
      let x := (inject_Z (width mz) * cellSize / 2)%Q in
      let z := (inject_Z (height mz) * cellSize / 2)%Q in
      getField h' (sc_config sc) "cameraDistance" = Some (VNum distance) /\
      sc_camera sc' = Some (mkCamera (x, distance, z) (x, 0%Q, z)) /\
      sc_maze sc' = Some mz /\ sc_config sc' = sc_config sc /\
      (forall k, k <> "cameraDistance" ->
         getField h' (sc_config sc) k = getField h (sc_config sc) k) /\
      (forall l, l <> sc_config sc -> h' !! l = h !! l).
Proof.
  intros Hmz Hcam Ho Hcs. unfold fitCameraToMaze. rewrite Hmz, Hcam.
  assert (getNum h (sc_config sc) "cellSize" = Some cellSize) as Hnum
    by (unfold getNum, getField; rewrite Ho; simpl; rewrite Hcs; reflexivity).
  rewrite Hnum. cbn [mbind option_bind]. unfold setField. rewrite Ho.
  cbn [mbind option_bind]. destruct (obj_frozen o) eqn:Hfrozen; [reflexivity|].
  cbn [mbind option_bind]. unfold setCameraView. rewrite Hcam.
  unfold getMazeCenter. rewrite Hmz. unfold getNum. rewrite !getField_written.
  destruct (decide ("cellSize" = "cameraDistance")); [discriminate|].
  destruct (decide ("cameraDistance" = "cameraDistance")); [|congruence].
  rewrite Hcs. cbn [mbind option_bind].
  eexists _, _. split; [reflexivity|]. cbn [sc_camera sc_maze sc_config].
  split_and!; try reflexivity.
  - rewrite getField_written.
    destruct (decide ("cameraDistance" = "cameraDistance")); congruence.
  - intros k Hk. rewrite getField_written.
    destruct (decide (k = "cameraDistance")); [contradiction|].
    unfold getField. rewrite Ho. reflexivity.
  - intros l Hl. rewrite lookup_insert_ne by congruence. reflexivity.
Qed.

Lemma fitCameraToMaze_spec_witness :
  exists h' sc',
    fitCameraToMaze configHeap
      (mkScene threeD_ref (Some (blankMaze 31 21)) (Some (mkCamera (0, 0, 0) (0, 0, 0))%Q))
    = Some (h', sc') /\
    getField h' threeD_ref "cameraDistance" = Some (VNum (496 # 5)) /\
    sc_camera sc' = Some (mkCamera (inject_Z 31 * inject_Z 4 / 2, 496 # 5,
                                    inject_Z 21 * inject_Z 4 / 2)
                                   (inject_Z 31 * inject_Z 4 / 2, 0,
                                    inject_Z 21 * inject_Z 4 / 2))%Q /\
    sc_maze sc' = Some (blankMaze 31 21) /\ sc_config sc' = threeD_ref /\
    (forall k, k <> "cameraDistance" ->
       getField h' threeD_ref k = getField configHeap threeD_ref k) /\
    (forall l, l <> threeD_ref -> h' !! l = configHeap !! l).
Proof.
  destruct (configHeap !! threeD_ref) as [o|] eqn:Ho; [|vm_compute in Ho; discriminate].
  pose proof (fitCameraToMaze_spec configHeap
    (mkScene threeD_ref (Some (blankMaze 31 21)) (Some (mkCamera (0, 0, 0) (0, 0, 0))%Q))
    (blankMaze 31 21) (mkCamera (0, 0, 0) (0, 0, 0))%Q o (inject_Z 4)
    eq_refl eq_refl Ho) as Hspec.
  vm_compute in Ho. injection Ho as <-.
  apply Hspec. reflexivity.
Defined.

(** X29.  [fitCameraToMaze] settles at once: calling it again, with the
    heap and the scene the first call left, changes nothing. *)
Theorem fitCameraToMaze_idempotent (h h' : Heap) (sc sc' : MazeScene3D) :
  fitCameraToMaze h sc = Some (h', sc') ->
  fitCameraToMaze h' sc' = Some (h', sc').
Proof.
  unfold fitCameraToMaze.
  destruct (sc_maze sc) as [mz|] eqn:Hmz;
    [destruct (sc_camera sc) as [cam|] eqn:Hcam|].
  2,3: intros [= <- <-]; rewrite Hmz, ?Hcam; reflexivity.
  destruct (getNum h (sc_config sc) "cellSize") as [cellSize|] eqn:Hcs; [|discriminate].
  cbn [mbind option_bind]. unfold setField.
  destruct (h !! sc_config sc) as [o|] eqn:Ho; [|discriminate].
  cbn [mbind option_bind]. destruct (obj_frozen o) eqn:Hfrozen; [discriminate|].
  cbn [mbind option_bind]. unfold setCameraView. rewrite Hcam.
  unfold getMazeCenter. rewrite Hmz.
  assert (forall d, getNum (<[sc_config sc := mkObj false
                               (<["cameraDistance" := VNum d]> (obj_fields o))]> h)
                      (sc_config sc) "cellSize" = Some cellSize) as Hcs'.
  { intros d. unfold getNum, getField in *. rewrite lookup_insert_eq. simpl.
    rewrite lookup_insert_ne by discriminate. rewrite Ho in Hcs. exact Hcs. }
  assert (forall d, getNum (<[sc_config sc := mkObj false
                               (<["cameraDistance" := VNum d]> (obj_fields o))]> h)
                      (sc_config sc) "cameraDistance" = Some d) as Hcd.
  { intros d. unfold getNum, getField. rewrite lookup_insert_eq. simpl.
    rewrite lookup_insert_eq. reflexivity. }
  rewrite Hcs', Hcd. cbn [mbind option_bind]. intros [= <- <-].
  cbn [sc_maze sc_camera sc_config]. rewrite Hcs'. cbn [mbind option_bind].
  rewrite lookup_insert_eq. cbn [mbind option_bind obj_frozen obj_fields].
  rewrite !insert_insert_eq. rewrite Hcs', Hcd. reflexivity.
Qed.

Lemma fitCameraToMaze_idempotent_witness :
  match sc ← sampleScene; fitCameraToMaze configHeap sc with
  | Some (h', sc') => fitCameraToMaze h' sc' = Some (h', sc')
  | None => False
  end.
Proof.
  destruct (sc ← sampleScene; fitCameraToMaze configHeap sc) as [[h' sc']|] eqn:Hfit.
  - destruct sampleScene as [sc|] eqn:Hsc; [|discriminate].
    apply (fitCameraToMaze_idempotent configHeap h' sc sc'). exact Hfit.
  - vm_compute in Hfit. discriminate.
Defined.
